(** * Statto bridge: per-player-per-point table construction

    A shallow embedding of [statto_bridge.py] and of its batch driver
    [batch_ingest_statto.py].  A pandas DataFrame is a list
    of records, one record per row, in row order.  A cell that pandas would
    hold as NaN after a join is [None]; float cells carry their own NaN.
    Integer cells are [Z]: flags are 0/1 and counts are bounded by the number
    of rows, so their sums stay inside int64; the two scores at the pull are
    subtracted in int64, which wraps.  A text cell is a sequence of code
    points below 256, and [Text] gives Python's [isspace], [isdigit] and
    [int] on them.  A key column of player names that has rows and a name in
    none of them is a float64 column to pandas, and merging it with a column
    that holds a name raises.  An exception raised by Python or pandas is
    [None] in the result of the function that raises it. *)

From Stdlib Require Import List ZArith Lia Bool Ascii String PrimFloat Sorted
  Permutation.
Import ListNotations.

Local Open Scope string_scope.
Local Open Scope list_scope.
Local Open Scope Z_scope.

(** ** Python text primitives *)

Module Text.

(** [str.isspace] of a character: tab, LF, VT, FF, CR, the four separators
    0x1c..0x1f, space, NEL (0x85) and the no-break space (0xa0). *)
Definition is_space (c : ascii) : bool :=
  let n := nat_of_ascii c in
  ((9 <=? n) && (n <=? 13))%nat || ((28 <=? n) && (n <=? 32))%nat ||
  (n =? 133)%nat || (n =? 160)%nat.

(** [str.isdecimal] of a character: ["0"] to ["9"]. *)
Definition is_decimal (c : ascii) : bool :=
  let n := nat_of_ascii c in ((48 <=? n) && (n <=? 57))%nat.

(** [str.isdigit] of a character: the decimal digits and the superscripts
    two (0xb2), three (0xb3) and one (0xb9). *)
Definition is_digit (c : ascii) : bool :=
  let n := nat_of_ascii c in
  is_decimal c || (n =? 178)%nat || (n =? 179)%nat || (n =? 185)%nat.

Definition digit_val (c : ascii) : Z := Z.of_nat (nat_of_ascii c) - 48.

Definition digit_char (d : Z) : ascii := ascii_of_nat (Z.to_nat (48 + d)).

Fixpoint lstrip (s : string) : string :=
  match s with
  | String c s' => if is_space c then lstrip s' else s
  | EmptyString => EmptyString
  end.

Fixpoint rstrip (s : string) : string :=
  match s with
  | String c s' =>
      match rstrip s' with
      | EmptyString => if is_space c then EmptyString else String c EmptyString
      | t => String c t
      end
  | EmptyString => EmptyString
  end.

(** [s.strip()] *)
Definition strip (s : string) : string := rstrip (lstrip s).

(** [s.split(sep)] for a one-character separator: never empty. *)
Fixpoint split (sep : ascii) (s : string) : list string :=
  match s with
  | EmptyString => [EmptyString]
  | String c s' =>
      if Ascii.eqb c sep then EmptyString :: split sep s'
      else match split sep s' with
           | t :: ts => String c t :: ts
           | [] => [String c EmptyString]
           end
  end.

Fixpoint all_digits (s : string) : bool :=
  match s with
  | EmptyString => true
  | String c s' => is_digit c && all_digits s'
  end.

(** [s.isdigit()]: at least one character and all of them digits. *)
Definition isdigit (s : string) : bool :=
  match s with
  | EmptyString => false
  | _ => all_digits s
  end.

Fixpoint all_decimal (s : string) : bool :=
  match s with
  | EmptyString => true
  | String c s' => is_decimal c && all_decimal s'
  end.

(** [s.isdecimal()] *)
Definition isdecimal (s : string) : bool :=
  match s with
  | EmptyString => false
  | _ => all_decimal s
  end.

Fixpoint int_acc (acc : Z) (s : string) : Z :=
  match s with
  | EmptyString => acc
  | String c s' => int_acc (10 * acc + digit_val c) s'
  end.

(** The most digits that [int] converts: [sys.int_info.default_max_str_digits]
    of Python 3.11. *)
Definition max_str_digits : nat := 4300.

(** The tokens that [int] converts among those for which [isdigit] holds:
    every digit is decimal, and there are no more of them than the limit. *)
Definition int_ok (s : string) : bool :=
  isdecimal s && (String.length s <=? max_str_digits)%nat.

(** [int(s)] on a token for which [isdigit] holds, so without sign, blank
    or underscore: the number, or ValueError on a superscript digit and on
    too many digits. *)
Definition int (s : string) : option Z :=
  if int_ok s then Some (int_acc 0 s) else None.

(** Decimal digits of a non-negative integer, most significant first. *)
Fixpoint digits (fuel : nat) (n : Z) : string :=
  match fuel with
  | O => EmptyString
  | S f =>
      if n <? 10 then String (digit_char n) EmptyString
      else (digits f (n / 10) ++ String (digit_char (n mod 10)) EmptyString)%string
  end.

(** [str(n)] for [0 <= n]. *)
Definition str_nat (n : Z) : string := digits (S (Z.to_nat (Z.log2 n))) n.

Fixpoint zeros (k : nat) : string :=
  match k with
  | O => EmptyString
  | S k' => String "0"%char (zeros k')
  end.

(** Left padding with ["0"] up to [width] characters. *)
Definition zfill (width : nat) (s : string) : string :=
  (zeros (width - String.length s) ++ s)%string.

(** [format(n, "02d")]: the sign counts towards the width and the padding
    goes between the sign and the digits. *)
Definition format_02d (n : Z) : string :=
  if n <? 0 then String "-"%char (zfill 1 (str_nat (- n)))
  else zfill 2 (str_nat n).

End Text.

(** ** Table operations of pandas, on lists of rows *)

Section Tables.

Context {K A B : Type} (eqb : K -> K -> bool).

(** The distinct keys of a column, each at its first occurrence.  pandas
    emits groups in sorted key order; the aggregate tables are only ever
    joined by key, so the order of their rows is not observable. *)
Fixpoint unique (l : list K) : list K :=
  match l with
  | [] => []
  | k :: t => k :: filter (fun k' => negb (eqb k k')) (unique t)
  end.

(** [df.groupby(key, dropna=False)]: every key with the rows that carry it,
    in row order. *)
Definition groupby (key : A -> K) (rows : list A) : list (K * list A) :=
  map (fun k => (k, filter (fun r => eqb (key r) k) rows))
      (unique (map key rows)).

(** The rows of [right] whose key matches that of [a]. *)
Definition matches (kl : A -> K) (kr : B -> K) (a : A) (right : list B) : list B :=
  filter (fun b => eqb (kl a) (kr b)) right.

(** The joined rows of one left row: one per match, or a single row with NaN
    columns when there is none. *)
Definition joined (a : A) (ms : list B) : list (A * option B) :=
  match ms with
  | [] => [(a, None)]
  | _ => map (fun b => (a, Some b)) ms
  end.

(** [left.merge(right, how="left")]: left order is kept and a left row with
    several matches is repeated. *)
Definition merge_left (kl : A -> K) (kr : B -> K)
    (left : list A) (right : list B) : list (A * option B) :=
  flat_map (fun a => joined a (matches kl kr a right)) left.

(** [pd.merge(left, right, how="outer")]: the left join together with the
    right rows that no left row matches.  pandas orders the result by key;
    here the unmatched right rows come last. *)
Definition merge_outer (kl : A -> K) (kr : B -> K)
    (left : list A) (right : list B) : list (option A * option B) :=
  map (fun ab => (Some (fst ab), snd ab)) (merge_left kl kr left right) ++
  map (fun b => (None, Some b))
      (filter (fun b => negb (existsb (fun a => eqb (kl a) (kr b)) left)) right).

(** The group of rows that carry key [k]. *)
Definition group (key : A -> K) (rows : list A) (k : K) : list A :=
  filter (fun r => eqb (key r) k) rows.

(** The first row of [right] under key [k]. *)
Definition lookup (kr : B -> K) (k : K) (right : list B) : option B :=
  find (fun b => eqb k (kr b)) right.

Definition to_list (o : option B) : list B :=
  match o with Some b => [b] | None => [] end.

End Tables.

(** A pass over a column or a list that raises at the first element on
    which [f] does, as [Series.astype(int)] on a NaN cell. *)
Fixpoint traverse {A B : Type} (f : A -> option B) (l : list A) : option (list B) :=
  match l with
  | [] => Some []
  | a :: t =>
      match f a, traverse f t with
      | Some b, Some bs => Some (b :: bs)
      | _, _ => None
      end
  end.

Definition len {A : Type} (l : list A) : Z := Z.of_nat (List.length l).

(** Number of rows satisfying a boolean mask: [int(mask.sum())]. *)
Definition count_if {A : Type} (f : A -> bool) (l : list A) : Z :=
  len (filter f l).

(** Column sum of an integer column. *)
Definition zsum (l : list Z) : Z := fold_right Z.add 0 l.

(** One step of the compensated summation of [groupby(...).sum()]: the
    running sum and its compensation; a NaN cell is skipped, and a
    compensation that becomes NaN is reset. *)
Definition kahan (st : float * float) (x : float) : float * float :=
  if is_nan x then st
  else
    let y := (x - snd st)%float in
    let t := (fst st + y)%float in
    let c := (t - fst st - y)%float in
    (t, if is_nan c then 0%float else c).

(** Column sum of a float column within a group, in row order; 0 for a
    group without a number. *)
Definition fsum (l : list float) : float := fst (fold_left kahan l (0%float, 0%float)).

(** int64 arithmetic: the result modulo 2^64, in [-2^63, 2^63). *)
Definition wrap64 (z : Z) : Z := (z + 2 ^ 63) mod 2 ^ 64 - 2 ^ 63.

(** [fillna(0)] on a float cell. *)
Definition fillna0 (x : float) : float := if is_nan x then 0%float else x.

(** Round half to even to an integral float, [numpy.rint]. *)
Definition rint (x : float) : float :=
  let two52 := 4503599627370496%float in
  if (abs x <? two52)%float then
    let r := (abs x + two52 - two52)%float in
    if get_sign x then (- r)%float else r
  else x.

(** [Series.round(2)]: scale, round to integral, scale back. *)
Definition round2 (x : float) : float := (rint (x * 100) / 100)%float.

(** Non-null entries of a text column: [count]. *)
Definition count_notna (l : list (option string)) : Z :=
  count_if (fun o => match o with Some _ => true | None => false end) l.

(** Distinct values of an integer column: [nunique]. *)
Definition nunique (l : list Z) : Z := len (unique Z.eqb l).

(** Largest value of a non-empty integer column. *)
Definition zmax (l : list Z) : Z :=
  match l with
  | [] => 0
  | x :: t => fold_left Z.max t x
  end.

(** A text cell that is not missing. *)
Definition named (o : option string) : bool :=
  match o with Some _ => true | None => false end.

(** A [Player] column that has rows and a name in none of them: pandas
    holds it as float64. *)
Definition all_missing (col : list (option string)) : bool :=
  match col with
  | [] => false
  | _ => forallb (fun o => negb (named o)) col
  end.

(** The dtype check of [merge] on the [Player] columns of its two frames:
    joining a float64 column with a column that holds a name raises
    ValueError.  A frame without rows is joined unchecked. *)
Definition keys_clash (left right : list (option string)) : bool :=
  (all_missing left && existsb named right) ||
  (existsb named left && all_missing right).

Definition name_eqb (a b : option string) : bool :=
  match a, b with
  | Some x, Some y => String.eqb x y
  | None, None => true
  | _, _ => false
  end.

(** Join key [(Point, Player)]. *)
Definition key := (Z * option string)%type.

Definition key_eqb (a b : key) : bool :=
  Z.eqb (fst a) (fst b) && name_eqb (snd a) (snd b).

(** ** The five input tables *)

(** A row of "Player Stats": [Points_played] is the text [str] gives for the
    cell. *)
Record PlayerStats := {
  ps_Player : option string;
  ps_Points_played : string
}.

Record PointRecord := {
  pt_Point : Z;
  pt_Started_on_offense : Z;
  pt_Scored : Z;
  pt_Our_score_at_pull : Z;
  pt_Opp_score_at_pull : Z;
  pt_Possessions : Z;
  pt_Passes : Z;
  pt_Turnovers : Z;
  pt_Defensive_blocks : Z
}.

Record PassEvent := {
  pa_Point : Z;
  pa_Thrower : option string;
  pa_Receiver : option string;
  pa_Turnover : Z;
  pa_Assist : Z;
  pa_Secondary_assist : Z;
  pa_Huck : Z;
  pa_Swing : Z;
  pa_Dump : Z;
  pa_Forward_distance : float
}.

Record BlockEvent := {
  bl_Point : Z;
  bl_Player : option string
}.

Record PossessionRecord := {
  po_Point : Z;
  po_Possession : Z;
  po_Scored : Z
}.

(** ** Intermediate tables *)

Record RosterEntry := {
  ro_Player : string;
  ro_Point : Z
}.

Definition ro_key (r : RosterEntry) : key := (ro_Point r, Some (ro_Player r)).

(** Throwing side of [_aggregate_passes]. *)
Record ThrowAgg := {
  th_Point : Z;
  th_Player : option string;
  th_throws : Z;
  th_completions : Z;
  th_turnovers : Z;
  th_assists : Z;
  th_secondary_assists : Z;
  th_hucks : Z;
  th_swings : Z;
  th_dumps : Z;
  th_throw_yards : float
}.

(** Catching side of [_aggregate_passes]. *)
Record CatchAgg := {
  ca_Point : Z;
  ca_Player : option string;
  ca_catches : Z;
  ca_received_yards : float;
  ca_goals : Z
}.

(** A row of [df_actions].  [fillna(0)] runs over every column, so a missing
    player name is the number 0 there and no longer a name: [None]. *)
Record ActionRow := {
  ac_Point : Z;
  ac_Player : option string;
  ac_throws : Z;
  ac_completions : Z;
  ac_turnovers : Z;
  ac_assists : Z;
  ac_secondary_assists : Z;
  ac_hucks : Z;
  ac_swings : Z;
  ac_dumps : Z;
  ac_throw_yards : float;
  ac_catches : Z;
  ac_received_yards : float;
  ac_goals : Z
}.

Record BlockAgg := {
  ba_Point : Z;
  ba_Player : option string;
  ba_blocks : Z
}.

(** A row of the point context table [ctx]. *)
Record Ctx := {
  Point : Z;
  Started_on_offense : Z;
  Scored : Z;
  our_score_start : Z;
  opp_score_start : Z;
  point_possessions_total : Z;
  point_passes_total : Z;
  point_turnovers_total : Z;
  point_blocks_total : Z;
  team_line : option string;
  point_result : Z;
  num_possessions : Z;
  first_possession_scored : Z;
  any_possession_scored : Z;
  clean_hold : Z;
  hold : Z;
  broken : Z;
  break_scored : Z;
  break_chance : Z
}.

(** A row of [pp] after the zero fill and the [touches] column. *)
Record PPRow := {
  pp_Player : string;
  pp_Point : Z;
  pp_throws : Z;
  pp_completions : Z;
  pp_turnovers : Z;
  pp_assists : Z;
  pp_secondary_assists : Z;
  pp_hucks : Z;
  pp_swings : Z;
  pp_dumps : Z;
  pp_throw_yards : float;
  pp_catches : Z;
  pp_received_yards : float;
  pp_goals : Z;
  pp_blocks : Z;
  pp_touches : Z
}.

(** ** The two output tables *)

Record Row := {
  game_id : string;
  point_uid : string;
  r_team_line : option string;
  player : string;
  touches : Z;
  throws : Z;
  completions : Z;
  assists : Z;
  secondary_assists : Z;
  goals : Z;
  turnovers : Z;
  blocks : Z;
  pulls : Z;
  yards_gain_m : float;
  score_diff_start : Z;
  r_point_result : Z;
  r_num_possessions : Z;
  r_clean_hold : Z;
  r_hold : Z;
  r_broken : Z;
  r_break_scored : Z;
  r_break_chance : Z;
  hucks : Z;
  swings : Z;
  dumps : Z
}.

Record PtSum := {
  su_ctx : Ctx;
  su_game_id : string;
  su_point_uid : string
}.

(** ** Core transformation helpers *)

(** The tokens of a "Points played" cell that are read: those between
    commas that, stripped, pass [isdigit]. *)
Definition digit_tokens (raw : string) : list string :=
  filter Text.isdigit (map Text.strip (Text.split ","%char raw)).

(** The points of one cell: its digit tokens read by [int], which raises on
    the first one that is not a decimal number. *)
Definition points_played (raw : string) : option (list Z) :=
  match raw with
  | EmptyString => Some []
  | _ => traverse Text.int (digit_tokens raw)
  end.

(** [DataFrame.dropna] on the (Player, Point) rows: [Point] is never null. *)
Definition dropna (rows : list (option string * Z)) : list RosterEntry :=
  flat_map (fun r =>
    match fst r with
    | Some name => [{| ro_Player := name; ro_Point := snd r |}]
    | None => []
    end) rows.

(** The rows appended for one row of the player table. *)
Definition player_rows (row : PlayerStats) : option (list (option string * Z)) :=
  option_map (map (fun pt => (ps_Player row, pt)))
             (points_played (ps_Points_played row)).

Definition _expand_roster_from_player_stats (df_player : list PlayerStats)
    : option (list RosterEntry) :=
  option_map (fun rows => dropna (List.concat rows))
             (traverse player_rows df_player).

Definition throw_key (e : PassEvent) : key := (pa_Point e, pa_Thrower e).
Definition catch_key (e : PassEvent) : key := (pa_Point e, pa_Receiver e).

Definition throw_agg (g : key * list PassEvent) : ThrowAgg :=
  let x := snd g in
  {| th_Point := fst (fst g);
     th_Player := snd (fst g);
     th_throws := count_notna (map pa_Thrower x);
     th_completions := count_if (fun e => pa_Turnover e =? 0) x;
     th_turnovers := count_if (fun e => pa_Turnover e =? 1) x;
     th_assists := zsum (map pa_Assist x);
     th_secondary_assists := zsum (map pa_Secondary_assist x);
     th_hucks := zsum (map pa_Huck x);
     th_swings := zsum (map pa_Swing x);
     th_dumps := zsum (map pa_Dump x);
     th_throw_yards := fsum (map pa_Forward_distance x) |}.

Definition catch_agg (g : key * list PassEvent) : CatchAgg :=
  let x := snd g in
  {| ca_Point := fst (fst g);
     ca_Player := snd (fst g);
     ca_catches := count_notna (map pa_Receiver x);
     ca_received_yards := fsum (map pa_Forward_distance x);
     ca_goals := count_if (fun e => pa_Assist e =? 1) x |}.

Definition th_key (t : ThrowAgg) : key := (th_Point t, th_Player t).
Definition ca_key (c : CatchAgg) : key := (ca_Point c, ca_Player c).
Definition ac_key (a : ActionRow) : key := (ac_Point a, ac_Player a).
Definition ba_key (b : BlockAgg) : key := (ba_Point b, ba_Player b).

Definition throws_table (df_passes : list PassEvent) : list ThrowAgg :=
  map throw_agg (groupby key_eqb throw_key df_passes).

(** Only completed passes count as catches. *)
Definition completed (df_passes : list PassEvent) : list PassEvent :=
  filter (fun e => pa_Turnover e =? 0) df_passes.

Definition catches_table (df_passes : list PassEvent) : list CatchAgg :=
  map catch_agg (groupby key_eqb catch_key (completed df_passes)).

Definition opt_z {A : Type} (f : A -> Z) (o : option A) : Z :=
  match o with Some a => f a | None => 0 end.

Definition opt_f {A : Type} (f : A -> float) (o : option A) : float :=
  match o with Some a => fillna0 (f a) | None => 0%float end.

(** A row of the outer merge after [fillna(0)] and the casts. *)
Definition action_row (x : option ThrowAgg * option CatchAgg) : ActionRow :=
  let (t, c) := x in
  {| ac_Point := match t, c with
                 | Some t', _ => th_Point t'
                 | None, Some c' => ca_Point c'
                 | None, None => 0
                 end;
     ac_Player := match t, c with
                  | Some t', _ => th_Player t'
                  | None, Some c' => ca_Player c'
                  | None, None => None
                  end;
     ac_throws := opt_z th_throws t;
     ac_completions := opt_z th_completions t;
     ac_turnovers := opt_z th_turnovers t;
     ac_assists := opt_z th_assists t;
     ac_secondary_assists := opt_z th_secondary_assists t;
     ac_hucks := opt_z th_hucks t;
     ac_swings := opt_z th_swings t;
     ac_dumps := opt_z th_dumps t;
     ac_throw_yards := opt_f th_throw_yards t;
     ac_catches := opt_z ca_catches c;
     ac_received_yards := opt_f ca_received_yards c;
     ac_goals := opt_z ca_goals c |}.

Definition _aggregate_passes (df_passes : list PassEvent)
    : option (list ActionRow) :=
  let throws := throws_table df_passes in
  let catches := catches_table df_passes in
  if keys_clash (map th_Player throws) (map ca_Player catches) then None
  else Some (map action_row (merge_outer key_eqb th_key ca_key throws catches)).

Definition block_key (e : BlockEvent) : key := (bl_Point e, bl_Player e).

Definition _aggregate_blocks (df_blocks : list BlockEvent) : list BlockAgg :=
  match df_blocks with
  | [] => []
  | _ => map (fun g => {| ba_Point := fst (fst g);
                          ba_Player := snd (fst g);
                          ba_blocks := len (snd g) |})
             (groupby key_eqb block_key df_blocks)
  end.

(** Order of [sort_values(["Point","Possession"])]. *)
Definition poss_leb (a b : PossessionRecord) : bool :=
  (po_Point a <? po_Point b) ||
  ((po_Point a =? po_Point b) && (po_Possession a <=? po_Possession b)).

Fixpoint insert_sorted (x : PossessionRecord) (l : list PossessionRecord)
    : list PossessionRecord :=
  match l with
  | [] => [x]
  | y :: t => if poss_leb x y then x :: l else y :: insert_sorted x t
  end.

(** The sort on several columns is stable: rows that agree on both columns
    keep their input order. *)
Fixpoint sort_values (l : list PossessionRecord) : list PossessionRecord :=
  match l with
  | [] => []
  | x :: t => insert_sorted x (sort_values t)
  end.

Definition b2z (b : bool) : Z := if b then 1 else 0.

(** [groupby("Point").first()] on the [Scored?] column; a group is never
    empty. *)
Definition first_scored (g : Z * list PossessionRecord) : Z :=
  match snd g with
  | r :: _ => po_Scored r
  | [] => 0
  end.

Definition possum (df_poss : list PossessionRecord) : list (Z * Z) :=
  map (fun g => (fst g, nunique (map po_Possession (snd g))))
      (groupby Z.eqb po_Point df_poss).

Definition first_pos (df_poss : list PossessionRecord) : list (Z * Z) :=
  map (fun g => (fst g, first_scored g))
      (groupby Z.eqb po_Point (sort_values df_poss)).

Definition any_pos_scored (df_poss : list PossessionRecord) : list (Z * Z) :=
  map (fun g => (fst g, zmax (map po_Scored (snd g))))
      (groupby Z.eqb po_Point df_poss).

(** One row of [ctx] from a point record joined with the three possession
    summaries: NaN fill, then the tags. *)
Definition ctx_row
    (x : ((PointRecord * option (Z * Z)) * option (Z * Z)) * option (Z * Z)) : Ctx :=
  let p := fst (fst (fst x)) in
  let n := opt_z snd (snd (fst (fst x))) in
  let soff := pt_Started_on_offense p =? 1 in
  let scored := pt_Scored p =? 1 in
  {| Point := pt_Point p;
     Started_on_offense := pt_Started_on_offense p;
     Scored := pt_Scored p;
     our_score_start := pt_Our_score_at_pull p;
     opp_score_start := pt_Opp_score_at_pull p;
     point_possessions_total := pt_Possessions p;
     point_passes_total := pt_Passes p;
     point_turnovers_total := pt_Turnovers p;
     point_blocks_total := pt_Defensive_blocks p;
     team_line := if pt_Started_on_offense p =? 1 then Some "O"
                  else if pt_Started_on_offense p =? 0 then Some "D"
                  else None;
     point_result := pt_Scored p;
     num_possessions := n;
     first_possession_scored := opt_z snd (snd (fst x));
     any_possession_scored := opt_z snd (snd x);
     clean_hold := b2z (soff && scored && (n =? 1));
     hold := b2z (soff && scored);
     broken := b2z (soff && negb scored);
     break_scored := b2z (negb soff && scored);
     break_chance := b2z (negb soff && (n >? 0)) |}.

Definition _build_point_context_with_possessions
    (df_points : list PointRecord) (df_poss : list PossessionRecord) : list Ctx :=
  let m1 := merge_left Z.eqb pt_Point fst df_points (possum df_poss) in
  let m2 := merge_left Z.eqb (fun x => pt_Point (fst x)) fst
              m1 (first_pos df_poss) in
  let m3 := merge_left Z.eqb (fun x => pt_Point (fst (fst x))) fst
              m2 (any_pos_scored df_poss) in
  map ctx_row m3.

(** ** The row assembler *)

(** The zero fill of [pp] and the [touches] column. *)
Definition fill_pp (x : (RosterEntry * option ActionRow) * option BlockAgg) : PPRow :=
  let r := fst (fst x) in
  let a := snd (fst x) in
  {| pp_Player := ro_Player r;
     pp_Point := ro_Point r;
     pp_throws := opt_z ac_throws a;
     pp_completions := opt_z ac_completions a;
     pp_turnovers := opt_z ac_turnovers a;
     pp_assists := opt_z ac_assists a;
     pp_secondary_assists := opt_z ac_secondary_assists a;
     pp_hucks := opt_z ac_hucks a;
     pp_swings := opt_z ac_swings a;
     pp_dumps := opt_z ac_dumps a;
     pp_throw_yards := opt_f ac_throw_yards a;
     pp_catches := opt_z ac_catches a;
     pp_received_yards := opt_f ac_received_yards a;
     pp_goals := opt_z ac_goals a;
     pp_blocks := opt_z ba_blocks (snd x);
     pp_touches := opt_z ac_throws a + opt_z ac_catches a |}.

(** The f-string [f"{game_id}_P{int(x):02d}"]. *)
Definition make_point_uid (gid : string) (x : Z) : string :=
  (gid ++ "_P" ++ Text.format_02d x)%string.

(** The columns of the final table for a player row with its context row. *)
Definition make_row (gid : string) (pp : PPRow) (c : Ctx) : Row :=
  {| game_id := gid;
     point_uid := make_point_uid gid (pp_Point pp);
     r_team_line := team_line c;
     player := pp_Player pp;
     touches := pp_touches pp;
     throws := pp_throws pp;
     completions := pp_completions pp;
     assists := pp_assists pp;
     secondary_assists := pp_secondary_assists pp;
     goals := pp_goals pp;
     turnovers := pp_turnovers pp;
     blocks := pp_blocks pp;
     pulls := 0;
     yards_gain_m := round2 (pp_throw_yards pp + pp_received_yards pp)%float;
     score_diff_start := wrap64 (our_score_start c - opp_score_start c);
     r_point_result := point_result c;
     r_num_possessions := num_possessions c;
     r_clean_hold := clean_hold c;
     r_hold := hold c;
     r_broken := broken c;
     r_break_scored := break_scored c;
     r_break_chance := break_chance c;
     hucks := pp_hucks pp;
     swings := pp_swings pp;
     dumps := pp_dumps pp |}.

(** One row of the final table.  The context columns of a player row whose
    point has no context row are NaN, and [astype(int)] raises on them. *)
Definition final_row (gid : string) (x : PPRow * option Ctx) : option Row :=
  match snd x with
  | Some c => Some (make_row gid (fst x) c)
  | None => None
  end.

Definition ptsum_row (gid : string) (c : Ctx) : PtSum :=
  {| su_ctx := c; su_game_id := gid; su_point_uid := make_point_uid gid (Point c) |}.

(** The table [pp] as it stands before the final columns are built: the
    two left joins of the roster, each with its check of the [Player]
    columns, the zero fill and the join with the point context. *)
Definition pp_table (roster : list RosterEntry) (actions : list ActionRow)
    (blocks : list BlockAgg) (ctx : list Ctx) : option (list (PPRow * option Ctx)) :=
  if keys_clash (map (fun e => Some (ro_Player e)) roster) (map ac_Player actions)
  then None
  else
    let pp := merge_left key_eqb ro_key ac_key roster actions in
    if keys_clash (map (fun x => Some (ro_Player (fst x))) pp) (map ba_Player blocks)
    then None
    else
      let pp := merge_left key_eqb (fun x => ro_key (fst x)) ba_key pp blocks in
      let pp := map fill_pp pp in
      Some (merge_left Z.eqb pp_Point Point pp ctx).

Definition build_per_player_per_point
    (df_player : list PlayerStats) (df_points : list PointRecord)
    (df_passes : list PassEvent) (df_blocks : list BlockEvent)
    (df_poss : list PossessionRecord) (gid : string)
    : option (list Row * list PtSum) :=
  match _expand_roster_from_player_stats df_player with
  | None => None
  | Some roster =>
      match _aggregate_passes df_passes with
      | None => None
      | Some actions =>
          let blocks := _aggregate_blocks df_blocks in
          let ctx := _build_point_context_with_possessions df_points df_poss in
          match pp_table roster actions blocks ctx with
          | None => None
          | Some pp =>
              match traverse (final_row gid) pp with
              | Some rows => Some (rows, map (ptsum_row gid) ctx)
              | None => None
              end
          end
      end
  end.

(** ** Notions used in the statements *)

(** The aggregate of the group under key [k], when the group has rows. *)
Definition agg_of {K A B : Type} (agg : K * list A -> B) (k : K) (g : list A)
    : option B :=
  match g with
  | [] => None
  | _ => Some (agg (k, g))
  end.

(** The events thrown, and the completed passes caught, under a key. *)
Definition thrown (df : list PassEvent) (k : key) : list PassEvent :=
  group key_eqb throw_key df k.

Definition caught (df : list PassEvent) (k : key) : list PassEvent :=
  group key_eqb catch_key (completed df) k.

(** The possession rows of one point. *)
Definition poss_of (df_poss : list PossessionRecord) (pt : Z) : list PossessionRecord :=
  group Z.eqb po_Point df_poss pt.

(** The context row that a point record gets. *)
Definition ctx_of (df_poss : list PossessionRecord) (p : PointRecord) : Ctx :=
  ctx_row (((p, lookup Z.eqb fst (pt_Point p) (possum df_poss)),
            lookup Z.eqb fst (pt_Point p) (first_pos df_poss)),
           lookup Z.eqb fst (pt_Point p) (any_pos_scored df_poss)).

(** The row that [sort_values] followed by [first] selects for a point: the
    lowest possession number, and among equal numbers the earliest row. *)
Fixpoint first_row (pt : Z) (l : list PossessionRecord) : option PossessionRecord :=
  match l with
  | [] => None
  | x :: t =>
      if po_Point x =? pt then
        match first_row pt t with
        | Some y => if po_Possession x <=? po_Possession y then Some x else Some y
        | None => Some x
        end
      else first_row pt t
  end.

Definition poss_le (a b : PossessionRecord) : Prop := poss_leb a b = true.

(** The point number in decimal, with a zero in front when it has a single
    digit: the reading of "zero-padded to two digits". *)
Definition zero_padded2 (n : Z) : string :=
  if n <? 0 then String "-"%char (Text.str_nat (- n))
  else if n <? 10 then String "0"%char (Text.str_nat n)
  else Text.str_nat n.

(** The numbers that the digit tokens of a cell spell. *)
Definition points_of (raw : string) : list Z :=
  map (Text.int_acc 0) (digit_tokens raw).

(** The roster that the expansion returns, when it returns. *)
Definition roster_of (df_player : list PlayerStats) : list RosterEntry :=
  dropna (flat_map (fun row =>
            map (fun pt => (ps_Player row, pt))
                (points_of (ps_Points_played row))) df_player).

(** [int] converts every digit token of every cell. *)
Definition readable (df_player : list PlayerStats) : bool :=
  forallb (fun row => forallb Text.int_ok (digit_tokens (ps_Points_played row)))
          df_player.

(** The table that the pass aggregator returns, when it returns. *)
Definition actions_of (df_passes : list PassEvent) : list ActionRow :=
  map action_row
      (merge_outer key_eqb th_key ca_key
         (throws_table df_passes) (catches_table df_passes)).

(** The player row that a roster entry gets: its aggregates looked up by
    key, zero where there is none. *)
Definition pp_of (df_passes : list PassEvent) (df_blocks : list BlockEvent)
    (e : RosterEntry) : PPRow :=
  fill_pp ((e, lookup key_eqb ac_key (ro_key e) (actions_of df_passes)),
           lookup key_eqb ba_key (ro_key e) (_aggregate_blocks df_blocks)).

(** The pass table names a thrower, and names the receiver of a completed
    pass; the block table is empty or names a player. *)
Definition throwers_named (df_passes : list PassEvent) : bool :=
  existsb (fun e => named (pa_Thrower e)) df_passes.

Definition receivers_named (df_passes : list PassEvent) : bool :=
  existsb (fun e => (pa_Turnover e =? 0) && named (pa_Receiver e)) df_passes.

Definition blockers_named (df_blocks : list BlockEvent) : bool :=
  match df_blocks with
  | [] => true
  | _ => existsb (fun b => named (bl_Player b)) df_blocks
  end.

(** The three checks of [Player] columns that the build runs through. *)
Definition clashes (df_player : list PlayerStats) (df_passes : list PassEvent)
    (df_blocks : list BlockEvent) : bool :=
  keys_clash (map th_Player (throws_table df_passes))
             (map ca_Player (catches_table df_passes)) ||
  keys_clash (map (fun e => Some (ro_Player e)) (roster_of df_player))
             (map ac_Player (actions_of df_passes)) ||
  keys_clash (map (fun e => Some (ro_Player e)) (roster_of df_player))
             (map ba_Player (_aggregate_blocks df_blocks)).

(** Every rostered point has a row in the points table. *)
Definition covered (roster : list RosterEntry) (df_points : list PointRecord) : bool :=
  forallb (fun e => existsb (fun p => ro_Point e =? pt_Point p) df_points) roster.

(** The build returns: no token makes [int] raise, no join meets a clash of
    [Player] columns, and no rostered point lacks its context. *)
Definition returns (df_player : list PlayerStats) (df_points : list PointRecord)
    (df_passes : list PassEvent) (df_blocks : list BlockEvent) : bool :=
  readable df_player && negb (clashes df_player df_passes df_blocks) &&
  covered (roster_of df_player) df_points.

(** The final rows, when every player row finds a context row. *)
Definition rows_of (gid : string) (pps : list PPRow) (ctx : list Ctx) : list Row :=
  flat_map (fun x => map (make_row gid x) (matches Z.eqb pp_Point Point x ctx)) pps.

(** The [catches] value that the pass aggregates hold for a key, 0 when they
    have no row for it. *)
Definition catches_for (actions : list ActionRow) (k : key) : Z :=
  opt_z ac_catches (lookup key_eqb ac_key k actions).


(** The roster entry, and the final row, of a player on a point. *)
Definition is_entry (name : string) (pt : Z) (e : RosterEntry) : bool :=
  String.eqb (ro_Player e) name && (ro_Point e =? pt).

Definition is_row (gid name : string) (pt : Z) (r : Row) : bool :=
  String.eqb (player r) name && String.eqb (point_uid r) (make_point_uid gid pt).


(** How a final row changes when one assisted completion from [a] to [b] on
    point [pt] is added to the pass events: [r] with the event, [r'] without. *)
Definition event_delta (gid a b : string) (pt : Z) (r r' : Row) : Prop :=
  player r = player r' /\ point_uid r = point_uid r' /\
  (player r = a -> point_uid r = make_point_uid gid pt ->
     completions r = completions r' + 1 /\ assists r = assists r' + 1) /\
  (player r = b -> point_uid r = make_point_uid gid pt ->
     goals r = goals r' + 1 /\ (a <> b -> touches r = touches r' + 1)).

(** The character [sep] does not occur in [s]. *)
Fixpoint no_sep (sep : ascii) (s : string) : bool :=
  match s with
  | EmptyString => true
  | String c s' => negb (Ascii.eqb c sep) && no_sep sep s'
  end.

(** [sep.join(parts)] *)
Fixpoint join (sep : string) (parts : list string) : string :=
  match parts with
  | [] => EmptyString
  | [x] => x
  | x :: rest => (x ++ sep ++ join sep rest)%string
  end.

Fixpoint all_space (s : string) : bool :=
  match s with
  | EmptyString => true
  | String c s' => Text.is_space c && all_space s'
  end.

(** A points-played cell as it is exported: the point numbers in decimal,
    separated by commas, each with blanks [w1] before and [w2] after. *)
Definition points_cell (w1 w2 : string) (pts : list Z) : string :=
  join "," (map (fun n => (w1 ++ Text.str_nat n ++ w2)%string) pts).

(** The possession rows whose point has a row in the points table. *)
Definition known_possessions (df_points : list PointRecord)
    (df_poss : list PossessionRecord) : list PossessionRecord :=
  filter (fun r => existsb (fun p => pt_Point p =? po_Point r) df_points) df_poss.

(** The columns that a context row takes over from its point record. *)
Definition point_columns (c : Ctx) : PointRecord :=
  {| pt_Point := Point c;
     pt_Started_on_offense := Started_on_offense c;
     pt_Scored := Scored c;
     pt_Our_score_at_pull := our_score_start c;
     pt_Opp_score_at_pull := opp_score_start c;
     pt_Possessions := point_possessions_total c;
     pt_Passes := point_passes_total c;
     pt_Turnovers := point_turnovers_total c;
     pt_Defensive_blocks := point_blocks_total c |}.

(** ** The batch driver, [batch_ingest_statto.py] *)

Module Batch.

(** [Path.glob] on the names of a directory of a case-sensitive file system,
    for patterns whose only wildcard is ["*"]: it stands for any run of
    characters, the empty one included. *)
Fixpoint glob_match (pat : string) : string -> bool :=
  match pat with
  | EmptyString =>
      fun name => match name with EmptyString => true | _ => false end
  | String c pat' =>
      if Ascii.eqb c "*"%char then
        fix star (name : string) : bool :=
          glob_match pat' name ||
          match name with
          | String _ name' => star name'
          | EmptyString => false
          end
      else
        fun name =>
          match name with
          | String d name' => Ascii.eqb c d && glob_match pat' name'
          | EmptyString => false
          end
  end.

(** [next(game_dir.glob(pat), None)]: the first entry, in the order in which
    the directory yields its entries, whose name matches. *)
Definition first_match (pat : string) (entries : list string) : option string :=
  hd_error (filter (glob_match pat) entries).

Record Files := {
  f_player : string;
  f_points : string;
  f_passes : string;
  f_blocks : string;
  f_poss : string
}.

(** The entry of the [missing] list for a pattern without a match. *)
Definition missing_label (label : string) (found : option string) : list string :=
  match found with
  | Some _ => []
  | None => [label]
  end.

(** [find_game_files]: the five files, or [FileNotFoundError] carrying the
    labels of the patterns that matched nothing. *)
Definition find_game_files (entries : list string) : Files + list string :=
  let player := first_match "Player Stats vs*.*csv" entries in
  let points := first_match "Points vs*.*csv" entries in
  let passes := first_match "Passes vs*.*csv" entries in
  let blocks := first_match "Defensive Blocks vs*.*csv" entries in
  let poss := first_match "Possessions vs*.*csv" entries in
  let missing :=
    missing_label "Player Stats vs*.csv" player ++
    missing_label "Points vs*.csv" points ++
    missing_label "Passes vs*.csv" passes ++
    missing_label "Defensive Blocks vs*.csv" blocks ++
    missing_label "Possessions vs*.csv" poss in
  match player, points, passes, blocks, poss with
  | Some a, Some b, Some c, Some d, Some e =>
      inl {| f_player := a; f_points := b; f_passes := c; f_blocks := d;
             f_poss := e |}
  | _, _, _, _, _ => inr missing
  end.

(** A path, as its components. *)
Definition path := list string.

(** What the driver sees of the file system: the sub-directories of the root
    in the order [iterdir] yields them, the entries of each, and what
    [pd.read_csv] makes of a file ([None] when it raises, or when the table
    lacks a column that the bridge indexes). *)
Record Fs := {
  subdirs : list string;
  entries : string -> list string;
  read_player : path -> option (list PlayerStats);
  read_points : path -> option (list PointRecord);
  read_passes : path -> option (list PassEvent);
  read_blocks : path -> option (list BlockEvent);
  read_poss : path -> option (list PossessionRecord)
}.

Inductive Table :=
| FactTable (rows : list Row)
| SummaryTable (rows : list PtSum).

(** The lines printed, without their wording. *)
Inductive Line :=
| NoSubdirectories (root : path)
| Processing (game_id : string)
| MissingFiles (game_dir : path) (missing : list string)
| WroteAggregated (rows_path ptsum_path : path)
| NoGamesProcessed.

(** The effects of a run: the lines printed, the directories made and the
    tables written, each in the order of the calls. *)
Record World := {
  stdout : list Line;
  made : list path;
  written : list (path * Table)
}.

Definition print (l : Line) (w : World) : World :=
  {| stdout := stdout w ++ [l]; made := made w; written := written w |}.

Definition mkdir (p : path) (w : World) : World :=
  {| stdout := stdout w; made := made w ++ [p]; written := written w |}.

Definition to_csv (p : path) (t : Table) (w : World) : World :=
  {| stdout := stdout w; made := made w; written := written w ++ [(p, t)] |}.

(** How a run ends: normally, by [sys.exit(1)], or by an exception that
    nothing catches. *)
Inductive Ending := Completed | Exit1 | Uncaught.

(** [sorted(game_dirs)]: paths of one directory compare by their names. *)
Fixpoint insert_name (x : string) (l : list string) : list string :=
  match l with
  | [] => [x]
  | y :: t => if String.leb x y then x :: l else y :: insert_name x t
  end.

Fixpoint sorted_names (l : list string) : list string :=
  match l with
  | [] => []
  | x :: t => insert_name x (sorted_names t)
  end.

(** The order in which Python compares two names: at the first position
    where they differ the smaller code point decides, and a name comes
    before its extensions. *)
Fixpoint name_le (a b : string) : Prop :=
  match a, b with
  | EmptyString, _ => True
  | String _ _, EmptyString => False
  | String c a', String d b' =>
      (N_of_ascii c < N_of_ascii d)%N \/ (c = d /\ name_le a' b')
  end.

(** Loading the five tables of a game and building its two tables; [None]
    when [read_csv] or the build raises. *)
Definition load_and_build (fs : Fs) (game_dir : path) (files : Files) (game_id : string)
    : option (list Row * list PtSum) :=
  match read_player fs (game_dir ++ [f_player files]),
        read_points fs (game_dir ++ [f_points files]),
        read_passes fs (game_dir ++ [f_passes files]),
        read_blocks fs (game_dir ++ [f_blocks files]),
        read_poss fs (game_dir ++ [f_poss files]) with
  | Some df_player, Some df_points, Some df_passes, Some df_blocks, Some df_poss =>
      build_per_player_per_point df_player df_points df_passes df_blocks df_poss game_id
  | _, _, _, _, _ => None
  end.

(** The state of the loop over the games. *)
Record Loop := {
  world : World;
  all_rows : list (list Row);
  all_ptsum : list (list PtSum)
}.

(** The loop over the sorted game directories.  Only [FileNotFoundError] from
    [find_game_files] is caught; any other exception ends the run where it
    is raised. *)
Fixpoint games (fs : Fs) (root out_root : path) (dirs : list string) (st : Loop)
    : Loop * bool :=
  match dirs with
  | [] => (st, true)
  | name :: rest =>
      let game_dir := root ++ [name] in
      let game_id := name in
      let w := print (Processing game_id) (world st) in
      match find_game_files (entries fs name) with
      | inr missing =>
          games fs root out_root rest
            {| world := print (MissingFiles game_dir missing) w;
               all_rows := all_rows st; all_ptsum := all_ptsum st |}
      | inl files =>
          match load_and_build fs game_dir files game_id with
          | None =>
              ({| world := w; all_rows := all_rows st; all_ptsum := all_ptsum st |},
               false)
          | Some (rows, ptsum) =>
              let game_out := out_root ++ [game_id] in
              let w := mkdir game_out w in
              let w := to_csv (game_out ++ ["per_player_per_point.csv"])
                              (FactTable rows) w in
              let w := to_csv (game_out ++ ["point_level_summary.csv"])
                              (SummaryTable ptsum) w in
              games fs root out_root rest
                {| world := w; all_rows := all_rows st ++ [rows];
                   all_ptsum := all_ptsum st ++ [ptsum] |}
          end
      end
  end.

(** [main], after the arguments are parsed. *)
Definition main (fs : Fs) (root out_root : path) : Ending * World :=
  let w := mkdir out_root {| stdout := []; made := []; written := [] |} in
  match subdirs fs with
  | [] => (Exit1, print (NoSubdirectories root) w)
  | _ =>
      let (st, ok) :=
        games fs root out_root (sorted_names (subdirs fs))
          {| world := w; all_rows := []; all_ptsum := [] |} in
      if ok then
        match all_rows st with
        | [] => (Completed, print NoGamesProcessed (world st))
        | _ =>
            let rows_path := out_root ++ ["all_per_player_per_point.csv"] in
            let ptsum_path := out_root ++ ["all_point_level_summary.csv"] in
            let w := to_csv rows_path (FactTable (List.concat (all_rows st))) (world st) in
            let w := to_csv ptsum_path (SummaryTable (List.concat (all_ptsum st))) w in
            (Completed, print (WroteAggregated rows_path ptsum_path) w)
        end
      else (Uncaught, world st)
  end.

(** The five kinds of export, in the order in which they are looked up. *)
Definition kinds : list string :=
  ["Player Stats"; "Points"; "Passes"; "Defensive Blocks"; "Possessions"].

(** The glob pattern of a kind, and its label in the error message. *)
Definition pattern_of (kind : string) : string := (kind ++ " vs*.*csv")%string.
Definition label_of (kind : string) : string := (kind ++ " vs*.csv")%string.

(** The shape of a name that the pattern of a kind matches. *)
Definition export_name (kind a b : string) : string :=
  (kind ++ " vs" ++ a ++ "." ++ b ++ "csv")%string.

(** What becomes of one game directory. *)
Inductive GameResult :=
| Skipped (missing : list string)
| Failed
| Built (rows : list Row) (ptsum : list PtSum).

Definition game_result (fs : Fs) (root : path) (name : string) : GameResult :=
  match find_game_files (entries fs name) with
  | inr missing => Skipped missing
  | inl files =>
      match load_and_build fs (root ++ [name]) files name with
      | Some (rows, ptsum) => Built rows ptsum
      | None => Failed
      end
  end.

(** The games that were built, with their tables, in the given order. *)
Definition built_games (fs : Fs) (root : path) (names : list string)
    : list (string * (list Row * list PtSum)) :=
  flat_map (fun name =>
    match game_result fs root name with
    | Built rows ptsum => [(name, (rows, ptsum))]
    | _ => []
    end) names.

(** The lines printed for the games, in the given order. *)
Definition log_of (fs : Fs) (root : path) (names : list string) : list Line :=
  flat_map (fun name =>
    Processing name ::
    match game_result fs root name with
    | Skipped missing => [MissingFiles (root ++ [name]) missing]
    | _ => []
    end) names.

(** The two files written for a game. *)
Definition game_writes (out_root : path) (g : string * (list Row * list PtSum))
    : list (path * Table) :=
  [ ((out_root ++ [fst g]) ++ ["per_player_per_point.csv"], FactTable (fst (snd g)));
    ((out_root ++ [fst g]) ++ ["point_level_summary.csv"], SummaryTable (snd (snd g))) ].

(** The two season files, written when at least one game was built. *)
Definition season_writes (out_root : path)
    (gs : list (string * (list Row * list PtSum))) : list (path * Table) :=
  match gs with
  | [] => []
  | _ =>
      [ (out_root ++ ["all_per_player_per_point.csv"],
         FactTable (List.concat (map (fun g => fst (snd g)) gs)));
        (out_root ++ ["all_point_level_summary.csv"],
         SummaryTable (List.concat (map (fun g => snd (snd g)) gs))) ]
  end.

End Batch.

(** ** Sample game *)

Module Sample.

Definition pass (pt : Z) (t r : option string) (turn assist : Z) (d : float)
    : PassEvent :=
  {| pa_Point := pt; pa_Thrower := t; pa_Receiver := r; pa_Turnover := turn;
     pa_Assist := assist; pa_Secondary_assist := 0; pa_Huck := 0;
     pa_Swing := 0; pa_Dump := 0; pa_Forward_distance := d |}.

Definition point (pt soff scored : Z) : PointRecord :=
  {| pt_Point := pt; pt_Started_on_offense := soff; pt_Scored := scored;
     pt_Our_score_at_pull := 0; pt_Opp_score_at_pull := 0; pt_Possessions := 1;
     pt_Passes := 2; pt_Turnovers := 0; pt_Defensive_blocks := 0 |}.

Definition poss (pt i s : Z) : PossessionRecord :=
  {| po_Point := pt; po_Possession := i; po_Scored := s |}.

Definition players : list PlayerStats :=
  [ {| ps_Player := Some "A"; ps_Points_played := "1, 3" |};
    {| ps_Player := Some "B"; ps_Points_played := "3,x" |};
    {| ps_Player := Some "C"; ps_Points_played := "" |} ].

Definition points : list PointRecord := [ point 1 0 1; point 3 1 1 ].

Definition passes : list PassEvent :=
  [ pass 3 (Some "B") (Some "A") 0 0 2.5;
    pass 3 (Some "A") (Some "B") 0 1 10;
    pass 1 (Some "A") None 1 0 4 ].

Definition blocks : list BlockEvent := [ {| bl_Point := 1; bl_Player := Some "A" |} ].

Definition possessions : list PossessionRecord := [ poss 3 1 1 ].

End Sample.

(** A season of three game directories: one complete, one without its
    blocks file, one whose player table lists a point that its points table
    does not have. *)
Module SampleSeason.

Definition export : list string :=
  [ "Passes vs. X.csv"; "Player Stats vs. X.csv"; "Points vs. X.csv";
    "Possessions vs. X.csv"; "Defensive Blocks vs. X.csv" ].

Definition fs : Batch.Fs :=
  {| Batch.subdirs := ["g3"; "g1"; "g2"];
     Batch.entries := fun name =>
       if String.eqb name "g2" then removelast export else export;
     Batch.read_player := fun p =>
       if existsb (String.eqb "g3") p
       then Some [ {| ps_Player := Some "A"; ps_Points_played := "1,2" |} ]
       else Some Sample.players;
     Batch.read_points := fun _ => Some Sample.points;
     Batch.read_passes := fun _ => Some Sample.passes;
     Batch.read_blocks := fun _ => Some Sample.blocks;
     Batch.read_poss := fun _ => Some Sample.possessions |}.

End SampleSeason.

(** ** The model on the sample game *)

Example strip_ex : Text.strip "  12 " = "12".
Proof. reflexivity. Qed.

Example split_ex : Text.split ","%char "1, 2,x,,3" = ["1"; " 2"; "x"; ""; "3"].
Proof. reflexivity. Qed.

Example points_played_ex : points_played "1, 2,x,,03, 4 5,-6" = Some [1; 2; 3].
Proof. reflexivity. Qed.

Example format_02d_ex :
  map Text.format_02d [0; 7; 10; 99; 100; 1234; -5; -12] =
  ["00"; "07"; "10"; "99"; "100"; "1234"; "-5"; "-12"].
Proof. reflexivity. Qed.

Example round2_ex :
  map round2 [0; 0.125; -0.375; 2.5; 12.5]%float =
  [0; 12 / 100; -38 / 100; 2.5; 12.5]%float.
Proof. reflexivity. Qed.

(** The compensated sum: adding 37.45, 34.805 and 15.1 from left to right
    gives 87.35499999999999, the group sum is 87.355, and the rounded values
    differ. *)
Example fsum_ex :
  let l := [3745 / 100; 34805 / 1000; 151 / 10]%float in
  fsum l = (87355 / 1000)%float /\
  round2 (fsum l) = (8736 / 100)%float /\
  round2 (fold_left PrimFloat.add l 0%float) = (8735 / 100)%float.
Proof. repeat split; reflexivity. Qed.

Example wrap64_ex :
  map wrap64 [0; -7; 2 ^ 63 - 1; 2 ^ 63; - 2 ^ 63 - 1] =
  [0; -7; 2 ^ 63 - 1; - 2 ^ 63; 2 ^ 63 - 1].
Proof. reflexivity. Qed.

Example roster_ex :
  _expand_roster_from_player_stats Sample.players =
  Some [ {| ro_Player := "A"; ro_Point := 1 |};
         {| ro_Player := "A"; ro_Point := 3 |};
         {| ro_Player := "B"; ro_Point := 3 |} ].
Proof. reflexivity. Qed.

Example actions_ex :
  option_map
    (map (fun a => (ac_key a, ac_throws a, ac_completions a, ac_assists a,
                    ac_catches a, ac_goals a)))
    (_aggregate_passes Sample.passes) =
  Some [ ((3, Some "B"), 1, 1, 0, 1, 1);
         ((3, Some "A"), 1, 1, 1, 1, 0);
         ((1, Some "A"), 1, 0, 0, 0, 0) ].
Proof. reflexivity. Qed.

(** A completed pass without a receiver name beside a named thrower: the
    catching side has a float64 [Player] column and the outer merge raises.
    With no name on either side the merge goes through. *)
Example actions_clash_ex :
  _aggregate_passes [Sample.pass 3 (Some "A") None 0 0 5] = None /\
  _aggregate_passes [Sample.pass 3 None (Some "B") 0 0 5] = None /\
  option_map (map ac_key) (_aggregate_passes [Sample.pass 3 None None 0 0 5]) =
    Some [(3, None)].
Proof. repeat split; reflexivity. Qed.

Example build_ex :
  option_map (fun t => map (fun r => (point_uid r, player r, touches r, throws r,
                                      goals r, blocks r, yards_gain_m r,
                                      r_clean_hold r, r_break_scored r))
                           (fst t))
    (build_per_player_per_point Sample.players Sample.points Sample.passes
       Sample.blocks Sample.possessions "G") =
  Some [ ("G_P01", "A", 1, 1, 0, 1, 4%float, 0, 1);
         ("G_P03", "A", 2, 1, 0, 0, 12.5%float, 1, 0);
         ("G_P03", "B", 2, 1, 1, 0, 12.5%float, 1, 0) ].
Proof. reflexivity. Qed.

(** ** Facts about the table operations *)

Section TableFacts.

Context {K : Type} (eqb : K -> K -> bool).
Hypothesis eqb_spec : forall x y, eqb x y = true <-> x = y.

Lemma eqb_refl k : eqb k k = true.
Proof. now apply eqb_spec. Qed.

Lemma eqb_neq x y : eqb x y = false <-> x <> y.
Proof.
  split; intros H.
  - intros E. apply eqb_spec in E. congruence.
  - destruct (eqb x y) eqn:E; [apply eqb_spec in E; contradiction | reflexivity].
Qed.

Lemma unique_In (l : list K) k : In k (unique eqb l) <-> In k l.
Proof.
  induction l as [|a t IH]; simpl; [tauto|].
  rewrite filter_In, IH. split.
  - intros [->|[H _]]; auto.
  - intros [->|H]; auto.
    destruct (eqb a k) eqn:E; [apply eqb_spec in E; auto | right; auto].
Qed.

Lemma unique_NoDup (l : list K) : NoDup (unique eqb l).
Proof.
  induction l as [|a t IH]; simpl; constructor.
  - rewrite filter_In. intros [_ H]. now rewrite eqb_refl in H.
  - now apply NoDup_filter.
Qed.

Lemma lookup_None {B : Type} (kr : B -> K) k (r : list B) :
  lookup eqb kr k r = None <-> ~ In k (map kr r).
Proof.
  unfold lookup. induction r as [|b t IH]; simpl; [tauto|].
  destruct (eqb k (kr b)) eqn:E.
  - apply eqb_spec in E. split; [discriminate | intros H; exfalso; auto].
  - apply eqb_neq in E. rewrite IH. split; [intros H [H1|H1]; auto | auto].
Qed.

Lemma matches_unique {A B : Type} (kl : A -> K) (kr : B -> K) a (r : list B) :
  NoDup (map kr r) ->
  matches eqb kl kr a r = to_list (lookup eqb kr (kl a) r).
Proof.
  unfold matches, lookup. induction r as [|b t IH]; simpl; intros ND; [reflexivity|].
  inversion ND as [|? ? Hn ND']; subst.
  destruct (eqb (kl a) (kr b)) eqn:E; [|auto].
  simpl. f_equal. apply eqb_spec in E.
  assert (L : lookup eqb kr (kl a) t = None)
    by (apply lookup_None; now rewrite E).
  rewrite IH by assumption. unfold lookup in L. now rewrite L.
Qed.

(** A left join against a table with distinct keys keeps one row per left
    row. *)
Lemma merge_left_unique {A B : Type} (kl : A -> K) (kr : B -> K)
    (l : list A) (r : list B) :
  NoDup (map kr r) ->
  merge_left eqb kl kr l r = map (fun a => (a, lookup eqb kr (kl a) r)) l.
Proof.
  intros ND. unfold merge_left.
  induction l as [|a t IH]; cbn [flat_map map]; [reflexivity|].
  rewrite IH, (matches_unique kl kr a r ND).
  now destruct (lookup eqb kr (kl a) r).
Qed.

Lemma groupby_keys {A : Type} (key : A -> K) (rows : list A) :
  map fst (groupby eqb key rows) = unique eqb (map key rows).
Proof. unfold groupby. rewrite map_map. simpl. apply map_id. Qed.

Lemma groupby_NoDup {A : Type} (key : A -> K) (rows : list A) :
  NoDup (map fst (groupby eqb key rows)).
Proof. rewrite groupby_keys. apply unique_NoDup. Qed.

Lemma group_nil {A : Type} (key : A -> K) (rows : list A) k :
  group eqb key rows k = [] <-> ~ In k (map key rows).
Proof.
  unfold group. induction rows as [|a t IH]; simpl; [tauto|].
  destruct (eqb (key a) k) eqn:E.
  - apply eqb_spec in E. split; [discriminate | intros H; exfalso; auto].
  - apply eqb_neq in E. rewrite IH. split; [intros H [H1|H1]; auto | auto].
Qed.

Lemma lookup_map_find {B : Type} (f : K -> B) (kr : B -> K) (l : list K) k :
  (forall x, kr (f x) = x) ->
  lookup eqb kr k (map f l) = if existsb (eqb k) l then Some (f k) else None.
Proof.
  intros Hk. unfold lookup. induction l as [|a t IH]; simpl; [reflexivity|].
  rewrite Hk. destruct (eqb k a) eqn:E; simpl; [|exact IH].
  apply eqb_spec in E. now subst.
Qed.

Lemma existsb_In (l : list K) k : existsb (eqb k) l = true <-> In k l.
Proof.
  rewrite existsb_exists. split.
  - intros [x [H1 H2]]. apply eqb_spec in H2. now subst.
  - intros H. exists k. split; [assumption | apply eqb_refl].
Qed.

(** Looking a key up in an aggregate of a [groupby]. *)
Lemma lookup_groupby {A B : Type} (key : A -> K) (agg : K * list A -> B)
    (kr : B -> K) (rows : list A) k :
  (forall g, kr (agg g) = fst g) ->
  lookup eqb kr k (map agg (groupby eqb key rows)) =
  match group eqb key rows k with
  | [] => None
  | g => Some (agg (k, g))
  end.
Proof.
  intros Hk. unfold groupby. rewrite map_map.
  rewrite (lookup_map_find
             (fun x => agg (x, filter (fun r => eqb (key r) x) rows)) kr)
    by (intros x; now rewrite Hk).
  fold (group eqb key rows k).
  destruct (existsb (eqb k) (unique eqb (map key rows))) eqn:E.
  - apply (proj1 (existsb_In _ _)) in E. apply (proj1 (unique_In _ _)) in E.
    destruct (group eqb key rows k) eqn:G; [|reflexivity].
    apply (proj1 (group_nil key rows k)) in G. contradiction.
  - assert (G : group eqb key rows k = []).
    { apply group_nil. intros H. apply (proj2 (unique_In _ _)) in H.
      apply (proj2 (existsb_In _ _)) in H. congruence. }
    now rewrite G.
Qed.

Lemma find_app_l {B : Type} (f : B -> bool) (l1 l2 : list B) :
  find f (l1 ++ l2) =
  match find f l1 with Some b => Some b | None => find f l2 end.
Proof.
  induction l1 as [|a t IH]; simpl; [reflexivity|].
  now destruct (f a).
Qed.

Section Outer.

Context {A B C : Type} (kl : A -> K) (kr : B -> K) (kc : C -> K).
Context (f : option A * option B -> C).
Hypothesis key_left : forall a ob, kc (f (Some a, ob)) = kl a.
Hypothesis key_right : forall b, kc (f (None, Some b)) = kr b.

Lemma lookup_outer_left (l : list A) (r : list B) k :
  lookup eqb kc k (map (fun a => f (Some a, lookup eqb kr (kl a) r)) l) =
  match lookup eqb kl k l with
  | Some a => Some (f (Some a, lookup eqb kr k r))
  | None => None
  end.
Proof.
  unfold lookup at 1 3. induction l as [|a t IH]; simpl; [reflexivity|].
  rewrite key_left. destruct (eqb k (kl a)) eqn:E; [|exact IH].
  apply eqb_spec in E. now subst.
Qed.

Lemma lookup_outer_right (l : list A) (r : list B) k :
  lookup eqb kl k l = None ->
  lookup eqb kc k (map (fun b => f (None, Some b))
                 (filter (fun b => negb (existsb (fun a => eqb (kl a) (kr b)) l)) r)) =
  match lookup eqb kr k r with
  | Some b => Some (f (None, Some b))
  | None => None
  end.
Proof.
  intros HL. assert (HN := proj1 (lookup_None kl k l) HL).
  unfold lookup. induction r as [|b t IH]; simpl; [reflexivity|].
  destruct (eqb k (kr b)) eqn:E.
  - apply eqb_spec in E.
    assert (X : existsb (fun a => eqb (kl a) (kr b)) l = false).
    { destruct (existsb (fun a => eqb (kl a) (kr b)) l) eqn:X; [|reflexivity].
      apply existsb_exists in X. destruct X as [a [Ha Hb]].
      apply eqb_spec in Hb. exfalso. apply HN. rewrite E, <- Hb.
      now apply in_map. }
    rewrite X. simpl. rewrite key_right, E, eqb_refl. reflexivity.
  - destruct (negb (existsb (fun a => eqb (kl a) (kr b)) l)); simpl;
      [rewrite key_right, E|]; exact IH.
Qed.

(** Looking a key up in an outer merge of two tables with distinct keys. *)
Lemma lookup_merge_outer (l : list A) (r : list B) k :
  NoDup (map kr r) ->
  lookup eqb kc k (map f (merge_outer eqb kl kr l r)) =
  match lookup eqb kl k l, lookup eqb kr k r with
  | None, None => None
  | t, c => Some (f (t, c))
  end.
Proof.
  intros NR. unfold merge_outer.
  rewrite (merge_left_unique kl kr l r NR), map_app, !map_map. simpl.
  unfold lookup at 1. rewrite find_app_l.
  fold (lookup eqb kc k (map (fun a => f (Some a, lookup eqb kr (kl a) r)) l)).
  rewrite lookup_outer_left.
  destruct (lookup eqb kl k l) eqn:HL; [reflexivity|].
  fold (lookup eqb kc k (map (fun b => f (None, Some b))
          (filter (fun b => negb (existsb (fun a => eqb (kl a) (kr b)) l)) r))).
  rewrite (lookup_outer_right l r k HL).
  now destruct (lookup eqb kr k r).
Qed.

Lemma merge_outer_NoDup (l : list A) (r : list B) :
  NoDup (map kl l) -> NoDup (map kr r) ->
  NoDup (map kc (map f (merge_outer eqb kl kr l r))).
Proof.
  intros NL NR. unfold merge_outer.
  rewrite (merge_left_unique kl kr l r NR), map_app, !map_map. simpl.
  rewrite map_app, !map_map.
  rewrite (map_ext _ kl) by (intros a; apply key_left).
  rewrite (map_ext (fun b => kc (f (None, Some b))) kr) by (intros b; apply key_right).
  apply NoDup_app; [assumption | |].
  - clear NL. induction r as [|b t IH]; simpl; [constructor|].
    inversion NR as [|? ? Hn NR']; subst.
    destruct (negb (existsb (fun a => eqb (kl a) (kr b)) l)); simpl; [|auto].
    constructor; [|auto].
    intros H. apply Hn. apply in_map_iff in H. destruct H as [x [Hx Hi]].
    apply filter_In in Hi. rewrite <- Hx. apply in_map. tauto.
  - intros k Hl Hr. apply in_map_iff in Hr. destruct Hr as [b [Hb Hi]].
    apply filter_In in Hi. destruct Hi as [_ Hi].
    apply negb_true_iff in Hi.
    apply in_map_iff in Hl. destruct Hl as [a [Ha Hi']].
    assert (X : existsb (fun a => eqb (kl a) (kr b)) l = true).
    { apply existsb_exists. exists a. split; [assumption|].
      apply eqb_spec. congruence. }
    congruence.
Qed.

End Outer.

End TableFacts.

(** ** Facts about the aggregators *)

Lemma name_eqb_spec a b : name_eqb a b = true <-> a = b.
Proof.
  destruct a as [x|], b as [y|]; simpl; try (split; congruence).
  rewrite String.eqb_eq. split; congruence.
Qed.

Lemma key_eqb_spec (a b : key) : key_eqb a b = true <-> a = b.
Proof.
  destruct a as [p x], b as [q y]. unfold key_eqb. simpl.
  rewrite andb_true_iff, Z.eqb_eq, name_eqb_spec. split.
  - intros [-> ->]. reflexivity.
  - intros E. inversion E. auto.
Qed.

Lemma Zeqb_spec (a b : Z) : Z.eqb a b = true <-> a = b.
Proof. apply Z.eqb_eq. Qed.

Lemma throws_table_keys df : NoDup (map th_key (throws_table df)).
Proof.
  unfold throws_table. rewrite map_map.
  rewrite (map_ext _ fst) by (intros [[? ?] ?]; reflexivity).
  apply groupby_NoDup, key_eqb_spec.
Qed.

Lemma catches_table_keys df : NoDup (map ca_key (catches_table df)).
Proof.
  unfold catches_table. rewrite map_map.
  rewrite (map_ext _ fst) by (intros [[? ?] ?]; reflexivity).
  apply groupby_NoDup, key_eqb_spec.
Qed.

Lemma action_key_left t oc : ac_key (action_row (Some t, oc)) = th_key t.
Proof. reflexivity. Qed.

Lemma action_key_right c : ac_key (action_row (None, Some c)) = ca_key c.
Proof. reflexivity. Qed.

Lemma actions_keys df : NoDup (map ac_key (actions_of df)).
Proof.
  unfold actions_of.
  apply (merge_outer_NoDup key_eqb key_eqb_spec th_key ca_key ac_key action_row
           action_key_left action_key_right);
    [apply throws_table_keys | apply catches_table_keys].
Qed.

Lemma blocks_keys df : NoDup (map ba_key (_aggregate_blocks df)).
Proof.
  unfold _aggregate_blocks. destruct df as [|e t]; [constructor|].
  rewrite map_map.
  rewrite (map_ext _ fst) by (intros [[? ?] ?]; reflexivity).
  apply groupby_NoDup, key_eqb_spec.
Qed.

(** The row of [df_actions] for a key, from the events under that key. *)
Lemma lookup_actions df k :
  lookup key_eqb ac_key k (actions_of df) =
  match thrown df k, caught df k with
  | [], [] => None
  | t, c => Some (action_row (agg_of throw_agg k t, agg_of catch_agg k c))
  end.
Proof.
  unfold actions_of.
  rewrite (lookup_merge_outer key_eqb key_eqb_spec th_key ca_key ac_key action_row
             action_key_left action_key_right)
    by apply catches_table_keys.
  unfold throws_table, catches_table.
  rewrite !(lookup_groupby key_eqb key_eqb_spec) by (intros [[? ?] ?]; reflexivity).
  fold (thrown df k). fold (caught df k).
  destruct (thrown df k), (caught df k); reflexivity.
Qed.

Lemma lookup_blocks df k :
  lookup key_eqb ba_key k (_aggregate_blocks df) =
  match group key_eqb block_key df k with
  | [] => None
  | g => Some {| ba_Point := fst k; ba_Player := snd k; ba_blocks := len g |}
  end.
Proof.
  unfold _aggregate_blocks. destruct df as [|e t]; [reflexivity|].
  rewrite (lookup_groupby key_eqb key_eqb_spec) by (intros [[? ?] ?]; reflexivity).
  reflexivity.
Qed.

Lemma group_nonempty {A : Type} (key : A -> key) (rows : list A) k :
  group key_eqb key rows k <> [] <-> exists e, In e rows /\ key e = k.
Proof.
  split.
  - intros H. destruct (group key_eqb key rows k) as [|e g] eqn:G; [congruence|].
    assert (He : In e (group key_eqb key rows k)) by (rewrite G; now left).
    apply filter_In in He. destruct He as [He Hk]. apply key_eqb_spec in Hk.
    now exists e.
  - intros [e [He Hk]] G.
    apply (group_nil key_eqb key_eqb_spec) in G. apply G.
    rewrite <- Hk. now apply in_map.
Qed.

Lemma actions_key_In df k :
  In k (map ac_key (actions_of df)) <->
  thrown df k <> [] \/ caught df k <> [].
Proof.
  split.
  - intros H. destruct (thrown df k) eqn:T; [|left; discriminate].
    destruct (caught df k) eqn:C; [|right; discriminate].
    exfalso. revert H. apply (lookup_None key_eqb key_eqb_spec).
    now rewrite lookup_actions, T, C.
  - intros H.
    destruct (lookup key_eqb ac_key k (actions_of df)) as [a|] eqn:L.
    + apply find_some in L. destruct L as [La Lk]. apply key_eqb_spec in Lk.
      rewrite Lk. now apply in_map.
    + exfalso. rewrite lookup_actions in L.
      destruct (thrown df k), (caught df k); try discriminate.
      destruct H; congruence.
Qed.

Lemma thrown_covered df e :
  In e df -> In (throw_key e) (map ac_key (actions_of df)).
Proof.
  intros He. apply actions_key_In. left. apply group_nonempty. now exists e.
Qed.

Lemma caught_covered df e :
  In e (completed df) -> In (catch_key e) (map ac_key (actions_of df)).
Proof.
  intros He. apply actions_key_In. right. apply group_nonempty. now exists e.
Qed.

Lemma blocks_key_In df k :
  In k (map ba_key (_aggregate_blocks df)) <-> In k (map block_key df).
Proof.
  split.
  - intros H. destruct (group key_eqb block_key df k) eqn:G.
    + exfalso. revert H. apply (lookup_None key_eqb key_eqb_spec).
      now rewrite lookup_blocks, G.
    + assert (N : group key_eqb block_key df k <> []) by (rewrite G; discriminate).
      apply group_nonempty in N. destruct N as [e [He <-]]. now apply in_map.
  - intros H.
    destruct (lookup key_eqb ba_key k (_aggregate_blocks df)) as [b|] eqn:L.
    + apply find_some in L. destruct L as [Lb Lk]. apply key_eqb_spec in Lk.
      rewrite Lk. now apply in_map.
    + exfalso. rewrite lookup_blocks in L.
      destruct (group key_eqb block_key df k) eqn:G; [|discriminate].
      apply (group_nil key_eqb key_eqb_spec) in G. contradiction.
Qed.

(** ** The checks of the [Player] columns *)

Lemma all_missing_named col : existsb named col = true -> all_missing col = false.
Proof.
  intros H. apply existsb_exists in H. destruct H as [o [Ho Hn]].
  destruct col as [|x t]; [contradiction|].
  unfold all_missing. apply not_true_is_false. intros F.
  rewrite forallb_forall in F. specialize (F o Ho). now rewrite Hn in F.
Qed.

Lemma all_missing_spec col :
  all_missing col = true <-> col <> [] /\ forall o, In o col -> o = None.
Proof.
  destruct col as [|x t]; [split; [discriminate | intros [H _]; congruence]|].
  unfold all_missing. rewrite forallb_forall. split.
  - intros H. split; [discriminate|]. intros o Ho. specialize (H o Ho).
    now destruct o.
  - intros [_ H] o Ho. now rewrite (H o Ho).
Qed.

Lemma named_key_column {B : Type} (kr : B -> key) (f : B -> option string)
    (rows : list B) k :
  (forall b, f b = snd (kr b)) -> In k (map kr rows) -> named (snd k) = true ->
  existsb named (map f rows) = true.
Proof.
  intros Hf Hk Hn. apply in_map_iff in Hk. destruct Hk as [b [<- Hb]].
  apply existsb_exists. exists (f b). split; [now apply in_map|].
  now rewrite Hf.
Qed.

Lemma throws_key_In df k :
  In k (map th_key (throws_table df)) <-> In k (map throw_key df).
Proof.
  unfold throws_table. rewrite map_map.
  rewrite (map_ext _ fst) by (intros [[? ?] ?]; reflexivity).
  rewrite (groupby_keys key_eqb). apply (unique_In key_eqb key_eqb_spec).
Qed.

Lemma catches_key_In df k :
  In k (map ca_key (catches_table df)) <-> In k (map catch_key (completed df)).
Proof.
  unfold catches_table. rewrite map_map.
  rewrite (map_ext _ fst) by (intros [[? ?] ?]; reflexivity).
  rewrite (groupby_keys key_eqb). apply (unique_In key_eqb key_eqb_spec).
Qed.

Lemma throwers_named_column df :
  throwers_named df = true -> existsb named (map th_Player (throws_table df)) = true.
Proof.
  intros H. apply existsb_exists in H. destruct H as [e [He Hn]].
  apply (named_key_column th_key th_Player _ (throw_key e));
    [reflexivity | | exact Hn].
  apply throws_key_In. now apply in_map.
Qed.

Lemma receivers_named_column df :
  receivers_named df = true -> existsb named (map ca_Player (catches_table df)) = true.
Proof.
  intros H. apply existsb_exists in H. destruct H as [e [He Hn]].
  apply andb_true_iff in Hn. destruct Hn as [Ht Hn].
  apply (named_key_column ca_key ca_Player _ (catch_key e));
    [reflexivity | | exact Hn].
  apply catches_key_In. apply in_map. apply filter_In. auto.
Qed.

Lemma throwers_named_actions df :
  throwers_named df = true -> existsb named (map ac_Player (actions_of df)) = true.
Proof.
  intros H. apply existsb_exists in H. destruct H as [e [He Hn]].
  apply (named_key_column ac_key ac_Player _ (throw_key e));
    [reflexivity | | exact Hn].
  now apply thrown_covered.
Qed.

Lemma blockers_named_column df :
  blockers_named df = true -> all_missing (map ba_Player (_aggregate_blocks df)) = false.
Proof.
  destruct df as [|b t]; [reflexivity|]. intros H.
  apply all_missing_named. unfold blockers_named in H.
  apply existsb_exists in H. destruct H as [e [He Hn]].
  apply (named_key_column ba_key ba_Player _ (block_key e));
    [reflexivity | | exact Hn].
  apply blocks_key_In. now apply in_map.
Qed.

(** Tables that name their players pass every check. *)
Lemma named_no_clash df_player df_passes df_blocks :
  throwers_named df_passes = true -> receivers_named df_passes = true ->
  blockers_named df_blocks = true ->
  clashes df_player df_passes df_blocks = false.
Proof.
  intros HT HR HB. unfold clashes.
  pose proof (throwers_named_column df_passes HT) as T.
  pose proof (receivers_named_column df_passes HR) as R.
  pose proof (throwers_named_actions df_passes HT) as A.
  pose proof (blockers_named_column df_blocks HB) as B.
  unfold keys_clash.
  rewrite (all_missing_named _ T), (all_missing_named _ R), (all_missing_named _ A), B.
  rewrite !andb_false_r. cbn [orb andb].
  assert (F : forall l : list RosterEntry,
            all_missing (map (fun e => Some (ro_Player e)) l) = false).
  { intros [|e t]; reflexivity. }
  now rewrite F.
Qed.

(** ** Facts about the point context builder *)

Lemma lookup_possum df pt :
  lookup Z.eqb fst pt (possum df) =
  agg_of (fun g => (fst g, nunique (map po_Possession (snd g)))) pt
         (poss_of df pt) .
Proof.
  unfold possum.
  rewrite (lookup_groupby Z.eqb Zeqb_spec) by reflexivity.
  unfold agg_of, poss_of. now destruct (group Z.eqb po_Point _ pt).
Qed.

Lemma lookup_first_pos df pt :
  lookup Z.eqb fst pt (first_pos df) =
  agg_of (fun g => (fst g, first_scored g)) pt (poss_of (sort_values df) pt).
Proof.
  unfold first_pos.
  rewrite (lookup_groupby Z.eqb Zeqb_spec) by reflexivity.
  unfold agg_of, poss_of. now destruct (group Z.eqb po_Point _ pt).
Qed.

Lemma lookup_any_pos_scored df pt :
  lookup Z.eqb fst pt (any_pos_scored df) =
  agg_of (fun g => (fst g, zmax (map po_Scored (snd g)))) pt (poss_of df pt).
Proof.
  unfold any_pos_scored.
  rewrite (lookup_groupby Z.eqb Zeqb_spec) by reflexivity.
  unfold agg_of, poss_of. now destruct (group Z.eqb po_Point _ pt).
Qed.

Lemma summary_keys {B : Type} (f : Z * list PossessionRecord -> B) df :
  NoDup (map fst (map (fun g => (fst g, f g)) (groupby Z.eqb po_Point df))).
Proof.
  rewrite map_map. simpl. apply groupby_NoDup, Zeqb_spec.
Qed.

(** The three left joins keep the rows of the points table one for one. *)
Lemma ctx_map df_points df_poss :
  _build_point_context_with_possessions df_points df_poss =
  map (ctx_of df_poss) df_points.
Proof.
  unfold _build_point_context_with_possessions.
  rewrite !(merge_left_unique Z.eqb Zeqb_spec) by apply summary_keys.
  rewrite !map_map. reflexivity.
Qed.

Lemma ctx_of_Point df_poss p : Point (ctx_of df_poss p) = pt_Point p.
Proof. reflexivity. Qed.

Lemma insert_sorted_In x l y : In y (insert_sorted x l) <-> y = x \/ In y l.
Proof.
  induction l as [|a t IH]; simpl.
  - intuition congruence.
  - destruct (poss_leb x a); simpl; [intuition congruence|].
    rewrite IH. intuition congruence.
Qed.

Lemma sort_values_In l y : In y (sort_values l) <-> In y l.
Proof.
  induction l as [|a t IH]; simpl; [tauto|].
  rewrite insert_sorted_In, IH. intuition congruence.
Qed.

Lemma poss_of_nil df pt : ~ In pt (map po_Point df) -> poss_of df pt = [].
Proof. intros H. now apply (group_nil Z.eqb Zeqb_spec). Qed.

Lemma poss_of_sorted_nil df pt :
  ~ In pt (map po_Point df) -> poss_of (sort_values df) pt = [].
Proof.
  intros H. apply poss_of_nil. intros H1. apply H.
  apply in_map_iff in H1. destruct H1 as [r [E Hr]].
  apply (proj1 (sort_values_In _ _)) in Hr. apply in_map_iff. exists r. auto.
Qed.

Lemma poss_le_trans a b c : poss_le a b -> poss_le b c -> poss_le a c.
Proof.
  unfold poss_le, poss_leb. intros H1 H2.
  apply orb_true_iff in H1. apply orb_true_iff in H2. apply orb_true_iff.
  rewrite andb_true_iff, Z.ltb_lt, Z.eqb_eq, Z.leb_le in *. lia.
Qed.

Lemma poss_le_total a b : poss_leb a b = false -> poss_le b a.
Proof.
  unfold poss_le, poss_leb. intros H.
  apply orb_false_iff in H. destruct H as [H1 H2].
  apply andb_false_iff in H2. apply orb_true_iff.
  rewrite andb_true_iff, Z.ltb_lt, Z.eqb_eq, Z.leb_le.
  rewrite Z.ltb_ge in H1. rewrite Z.eqb_neq, Z.leb_gt in H2. lia.
Qed.

Lemma insert_sorted_sorted x l :
  StronglySorted poss_le l -> StronglySorted poss_le (insert_sorted x l).
Proof.
  induction 1 as [|a t Ht IH Ha]; simpl.
  - repeat constructor.
  - destruct (poss_leb x a) eqn:E.
    + constructor; [now constructor|].
      constructor; [exact E|].
      eapply Forall_impl; [|exact Ha].
      intros b Hb. eapply poss_le_trans; eassumption.
    + constructor; [assumption|].
      apply Forall_forall. intros y Hy.
      apply insert_sorted_In in Hy. destruct Hy as [->|Hy].
      * now apply poss_le_total.
      * rewrite Forall_forall in Ha. auto.
Qed.

Lemma sort_values_sorted l : StronglySorted poss_le (sort_values l).
Proof.
  induction l as [|a t IH]; simpl; [constructor | now apply insert_sorted_sorted].
Qed.

Lemma poss_leb_same a b :
  po_Point a = po_Point b ->
  poss_leb a b = (po_Possession a <=? po_Possession b).
Proof.
  intros E. unfold poss_leb. now rewrite E, Z.ltb_irrefl, Z.eqb_refl.
Qed.

Lemma hd_insert_sorted pt x l :
  StronglySorted poss_le l ->
  hd_error (poss_of (insert_sorted x l) pt) =
  if po_Point x =? pt then
    match hd_error (poss_of l pt) with
    | Some y => if po_Possession x <=? po_Possession y then Some x else Some y
    | None => Some x
    end
  else hd_error (poss_of l pt).
Proof.
  unfold poss_of, group.
  induction 1 as [|a t Ht IH Ha]; simpl.
  - now destruct (po_Point x =? pt).
  - destruct (poss_leb x a) eqn:E; simpl.
    + destruct (po_Point x =? pt) eqn:Ex; [|reflexivity]. simpl.
      apply Z.eqb_eq in Ex.
      destruct (po_Point a =? pt) eqn:Ea; simpl.
      * apply Z.eqb_eq in Ea.
        rewrite poss_leb_same in E by congruence. now rewrite E.
      * destruct (filter (fun r => po_Point r =? pt) t) as [|y u] eqn:F;
          [reflexivity|]. simpl.
        assert (Hy : In y t /\ (po_Point y =? pt) = true).
        { apply (proj1 (filter_In (fun r => po_Point r =? pt) y t)).
          rewrite F. now left. }
        destruct Hy as [Hy Ey]. apply Z.eqb_eq in Ey.
        rewrite Forall_forall in Ha.
        assert (Hxy : poss_le x y)
          by (eapply poss_le_trans; [exact E | now apply Ha]).
        unfold poss_le in Hxy. rewrite poss_leb_same in Hxy by congruence.
        now rewrite Hxy.
    + destruct (po_Point a =? pt) eqn:Ea; simpl.
      * destruct (po_Point x =? pt) eqn:Ex; [|reflexivity].
        apply Z.eqb_eq in Ex, Ea.
        rewrite poss_leb_same in E by congruence. now rewrite E.
      * exact IH.
Qed.

(** Sorting and taking the head of a point's rows selects [first_row]. *)
Lemma hd_sort_values pt l :
  hd_error (poss_of (sort_values l) pt) = first_row pt l.
Proof.
  induction l as [|x t IH]; simpl; [reflexivity|].
  rewrite hd_insert_sorted by apply sort_values_sorted.
  now rewrite IH.
Qed.

Lemma first_row_spec pt l r :
  first_row pt l = Some r ->
  exists l1 l2,
    l = l1 ++ r :: l2 /\ po_Point r = pt /\
    (forall r', In r' l1 -> po_Point r' = pt -> po_Possession r < po_Possession r') /\
    (forall r', In r' l2 -> po_Point r' = pt -> po_Possession r <= po_Possession r').
Proof.
  revert r. induction l as [|x t IH]; simpl; intros r H; [discriminate|].
  destruct (po_Point x =? pt) eqn:Ex.
  - apply Z.eqb_eq in Ex.
    destruct (first_row pt t) as [y|] eqn:F.
    + destruct (IH y eq_refl) as [l1 [l2 [E [Hp [H1 H2]]]]].
      destruct (po_Possession x <=? po_Possession y) eqn:L;
        inversion H; subst r.
      * apply Z.leb_le in L. exists [], t. repeat split; auto.
        -- intros r' [].
        -- intros r' Hr Hr'. rewrite E in Hr. apply in_app_iff in Hr.
           destruct Hr as [Hr|[<-|Hr]]; [specialize (H1 r' Hr Hr') | | specialize (H2 r' Hr Hr')]; lia.
      * apply Z.leb_gt in L. exists (x :: l1), l2. rewrite E. repeat split; auto.
        intros r' [<-|Hr] Hr'; [lia | auto].
    + inversion H; subst r. exists [], t. repeat split; auto.
      * intros r' [].
      * intros r' Hr Hr'. exfalso. clear IH H.
        induction t as [|a u IHu]; simpl in *; [contradiction|].
        destruct (po_Point a =? pt) eqn:Ea.
        -- destruct (first_row pt u) as [z|];
             [destruct (po_Possession a <=? po_Possession z)|]; discriminate.
        -- apply Z.eqb_neq in Ea. destruct Hr as [<-|Hr]; [congruence | auto].
  - destruct (IH r H) as [l1 [l2 [E [Hp [H1 H2]]]]].
    apply Z.eqb_neq in Ex.
    exists (x :: l1), l2. rewrite E. repeat split; auto.
    intros r' [<-|Hr] Hr'; [congruence | auto].
Qed.

Lemma nunique_pos (l : list Z) : l <> [] -> 0 < nunique l.
Proof.
  destruct l as [|a t]; [congruence|]. intros _.
  unfold nunique, len. simpl. lia.
Qed.

Lemma num_possessions_pos df_poss p :
  In (pt_Point p) (map po_Point df_poss) ->
  0 < num_possessions (ctx_of df_poss p).
Proof.
  intros H. unfold ctx_of, ctx_row. simpl.
  rewrite lookup_possum. unfold agg_of.
  destruct (poss_of df_poss (pt_Point p)) as [|r g] eqn:G.
  - apply (group_nil Z.eqb Zeqb_spec) in G. contradiction.
  - simpl. apply nunique_pos. discriminate.
Qed.

Lemma ctx_without_possessions df_poss p :
  ~ In (pt_Point p) (map po_Point df_poss) ->
  num_possessions (ctx_of df_poss p) = 0 /\
  first_possession_scored (ctx_of df_poss p) = 0 /\
  any_possession_scored (ctx_of df_poss p) = 0.
Proof.
  intros H. unfold ctx_of, ctx_row. simpl.
  rewrite lookup_possum, lookup_first_pos, lookup_any_pos_scored.
  rewrite poss_of_nil, poss_of_sorted_nil by assumption.
  auto.
Qed.

Lemma count_ctx_rows df_poss df_points pt :
  count_if (fun c => Point c =? pt) (map (ctx_of df_poss) df_points) =
  count_if (fun p => pt_Point p =? pt) df_points.
Proof.
  unfold count_if, len. f_equal.
  induction df_points as [|p t IH]; simpl; [reflexivity|].
  destruct (pt_Point p =? pt); simpl; now rewrite IH.
Qed.

Lemma count_if_NoDup {A : Type} (key : A -> Z) (l : list A) a :
  NoDup (map key l) -> In a l ->
  count_if (fun x => key x =? key a) l = 1.
Proof.
  unfold count_if, len. induction l as [|x t IH]; simpl; intros ND H; [contradiction|].
  inversion ND as [|? ? Hn ND']; subst.
  destruct H as [->|H].
  - rewrite Z.eqb_refl. simpl.
    assert (F : filter (fun x => key x =? key a) t = []).
    { apply (group_nil Z.eqb Zeqb_spec key t (key a)). assumption. }
    now rewrite F.
  - destruct (key x =? key a) eqn:E; [|auto].
    apply Z.eqb_eq in E. exfalso. apply Hn. rewrite E. now apply in_map.
Qed.

(** ** The point context builder *)

(** C6.  In every row of the point context table, [clean_hold = 1] implies
    [hold = 1]. *)
Theorem clean_hold_implies_hold :
  forall df_points df_poss c,
    In c (_build_point_context_with_possessions df_points df_poss) ->
    clean_hold c = 1 -> hold c = 1.
Proof.
  intros df_points df_poss c Hc. rewrite ctx_map in Hc.
  apply in_map_iff in Hc. destruct Hc as [p [<- _]].
  unfold ctx_of, ctx_row. simpl.
  destruct (pt_Started_on_offense p =? 1), (pt_Scored p =? 1); simpl;
    intros H; congruence.
Qed.

Lemma clean_hold_implies_hold_witness :
  hold (ctx_of Sample.possessions (Sample.point 3 1 1)) = 1.
Proof.
  apply (clean_hold_implies_hold Sample.points Sample.possessions).
  - simpl. right. left. reflexivity.
  - reflexivity.
Defined.

(** C2, as stated: point 1 of the sample game was started on defence and
    scored, and has no row in the possessions table; its context row has
    [break_scored = 1] and [break_chance = 0]. *)
Lemma break_scored_without_break_chance :
  ~ In 1 (map po_Point Sample.possessions) /\
  exists c,
    In c (_build_point_context_with_possessions Sample.points Sample.possessions) /\
    Point c = 1 /\ break_scored c = 1 /\ break_chance c = 0.
Proof.
  split; [simpl; intros [H|[]]; discriminate|].
  eexists. split; [left; reflexivity|]. repeat split; reflexivity.
Qed.

(** C2, amended.  In every row of the point context table whose point has at
    least one row in the possessions table, [break_scored = 1] implies
    [break_chance = 1]. *)
Theorem break_scored_implies_break_chance :
  forall df_points df_poss c,
    In c (_build_point_context_with_possessions df_points df_poss) ->
    In (Point c) (map po_Point df_poss) ->
    break_scored c = 1 -> break_chance c = 1.
Proof.
  intros df_points df_poss c Hc. rewrite ctx_map in Hc.
  apply in_map_iff in Hc. destruct Hc as [p [<- _]].
  rewrite ctx_of_Point. intros Hp.
  apply num_possessions_pos in Hp. revert Hp.
  unfold ctx_of, ctx_row. simpl. intros Hp.
  apply Z.gtb_lt in Hp. rewrite Hp.
  destruct (pt_Started_on_offense p =? 1), (pt_Scored p =? 1); simpl;
    intros H; congruence.
Qed.

Lemma break_scored_implies_break_chance_witness :
  break_chance (ctx_of [Sample.poss 1 1 0; Sample.poss 1 2 1] (Sample.point 1 0 1)) = 1.
Proof.
  apply (break_scored_implies_break_chance [Sample.point 1 0 1]
           [Sample.poss 1 1 0; Sample.poss 1 2 1]).
  - left. reflexivity.
  - simpl. left. reflexivity.
  - reflexivity.
Defined.

(** C5.  The builder is total, and a point of the points table that has no
    row in the possessions table gets as many context rows as it has rows in
    the points table -- exactly one when point numbers are a key of that
    table -- each with [num_possessions], [first_possession_scored] and
    [any_possession_scored] equal to 0. *)
Theorem point_without_possessions :
  forall df_points df_poss p,
    In p df_points ->
    ~ In (pt_Point p) (map po_Point df_poss) ->
    let ctx := _build_point_context_with_possessions df_points df_poss in
    count_if (fun c => Point c =? pt_Point p) ctx =
      count_if (fun q => pt_Point q =? pt_Point p) df_points /\
    (NoDup (map pt_Point df_points) ->
       count_if (fun c => Point c =? pt_Point p) ctx = 1) /\
    (exists c, In c ctx /\ Point c = pt_Point p) /\
    (forall c, In c ctx -> Point c = pt_Point p ->
       num_possessions c = 0 /\ first_possession_scored c = 0 /\
       any_possession_scored c = 0).
Proof.
  intros df_points df_poss p Hp Hn ctx. subst ctx. rewrite ctx_map.
  split; [apply count_ctx_rows|]. split; [|split].
  - intros ND. rewrite count_ctx_rows. now apply count_if_NoDup.
  - exists (ctx_of df_poss p). split; [now apply in_map | reflexivity].
  - intros c Hc E. apply in_map_iff in Hc. destruct Hc as [q [<- _]].
    rewrite ctx_of_Point in E. apply ctx_without_possessions. now rewrite E.
Qed.

Lemma point_without_possessions_witness :
  count_if (fun c => Point c =? 1)
    (_build_point_context_with_possessions Sample.points Sample.possessions) = 1.
Proof.
  apply (point_without_possessions Sample.points Sample.possessions
           (Sample.point 1 0 1)).
  - left. reflexivity.
  - simpl. intros [H|[]]. discriminate.
  - simpl. repeat constructor; simpl; intuition discriminate.
Defined.

(** C7.  For a point with at least one row in the possessions table,
    [first_possession_scored] is the [Scored?] flag of the first row of that
    point after the stable sort by (Point, Possession): the row with the
    lowest possession number, the earliest such row in input order. *)
Theorem first_possession_scored_lowest_index :
  forall df_points df_poss c,
    In c (_build_point_context_with_possessions df_points df_poss) ->
    In (Point c) (map po_Point df_poss) ->
    exists r l1 l2,
      df_poss = l1 ++ r :: l2 /\ po_Point r = Point c /\
      (forall r', In r' l1 -> po_Point r' = Point c ->
         po_Possession r < po_Possession r') /\
      (forall r', In r' l2 -> po_Point r' = Point c ->
         po_Possession r <= po_Possession r') /\
      hd_error (filter (fun x => po_Point x =? Point c) (sort_values df_poss)) = Some r /\
      first_possession_scored c = po_Scored r.
Proof.
  intros df_points df_poss c Hc. rewrite ctx_map in Hc.
  apply in_map_iff in Hc. destruct Hc as [p [<- _]].
  rewrite ctx_of_Point. intros Hp.
  pose proof (hd_sort_values (pt_Point p) df_poss) as Hh.
  destruct (first_row (pt_Point p) df_poss) as [r|] eqn:F.
  - destruct (first_row_spec _ _ _ F) as [l1 [l2 [E [Hr [H1 H2]]]]].
    exists r, l1, l2. repeat split; auto.
    unfold ctx_of, ctx_row. simpl. rewrite lookup_first_pos.
    unfold agg_of, first_scored.
    destruct (poss_of (sort_values df_poss) (pt_Point p)) as [|y g];
      simpl in *; congruence.
  - exfalso. unfold poss_of in Hh.
    destruct (group Z.eqb po_Point (sort_values df_poss) (pt_Point p)) eqn:G;
      [|discriminate].
    apply (group_nil Z.eqb Zeqb_spec) in G. apply G.
    apply in_map_iff in Hp. destruct Hp as [r [E Hr]].
    apply in_map_iff. exists r. split; [assumption|].
    now apply sort_values_In.
Qed.

Lemma first_possession_scored_lowest_index_witness :
  exists r l1 l2,
    [Sample.poss 3 2 0; Sample.poss 3 1 1; Sample.poss 1 1 0; Sample.poss 3 1 0] =
      l1 ++ r :: l2 /\ po_Point r = 3 /\
    (forall r', In r' l1 -> po_Point r' = 3 -> po_Possession r < po_Possession r') /\
    (forall r', In r' l2 -> po_Point r' = 3 -> po_Possession r <= po_Possession r') /\
    hd_error (filter (fun x => po_Point x =? 3)
      (sort_values [Sample.poss 3 2 0; Sample.poss 3 1 1; Sample.poss 1 1 0;
                    Sample.poss 3 1 0])) = Some r /\
    1 = po_Scored r.
Proof.
  apply (first_possession_scored_lowest_index Sample.points
           [Sample.poss 3 2 0; Sample.poss 3 1 1; Sample.poss 1 1 0; Sample.poss 3 1 0]
           (ctx_of [Sample.poss 3 2 0; Sample.poss 3 1 1; Sample.poss 1 1 0;
                    Sample.poss 3 1 0] (Sample.point 3 1 1))).
  - right. left. reflexivity.
  - left. reflexivity.
Defined.

(** ** Facts about the text primitives *)

Module TextFacts.
Import Text.

Lemma digit_cases d :
  0 <= d <= 9 ->
  d = 0 \/ d = 1 \/ d = 2 \/ d = 3 \/ d = 4 \/ d = 5 \/ d = 6 \/ d = 7 \/
  d = 8 \/ d = 9.
Proof. lia. Qed.

Lemma digit_char_ok d :
  0 <= d <= 9 ->
  is_decimal (digit_char d) = true /\ digit_val (digit_char d) = d /\
  digit_char d <> "-"%char.
Proof.
  intros H. apply digit_cases in H.
  repeat (destruct H as [->|H]); try subst d;
    (split; [reflexivity | split; [reflexivity | discriminate]]).
Qed.

Lemma int_acc_app acc s t :
  int_acc acc (s ++ t)%string = int_acc (int_acc acc s) t.
Proof.
  revert acc. induction s as [|c s IH]; simpl; intros acc; [reflexivity | apply IH].
Qed.

Lemma all_decimal_app s t :
  all_decimal (s ++ t)%string = all_decimal s && all_decimal t.
Proof.
  induction s as [|c s IH]; simpl; [reflexivity|].
  now rewrite IH, andb_assoc.
Qed.

Lemma length_app s t :
  String.length (s ++ t)%string = (String.length s + String.length t)%nat.
Proof. induction s as [|c s IH]; simpl; [reflexivity | now rewrite IH]. Qed.

Lemma log2_div10 n : 10 <= n -> Z.log2 (n / 10) < Z.log2 n.
Proof.
  intros H.
  assert (H1 : 0 < n / 10) by (apply Z.div_str_pos; lia).
  apply Z.log2_lt_pow2; [assumption|].
  assert (H2 : n < 2 ^ Z.succ (Z.log2 n)) by (apply Z.log2_spec; lia).
  rewrite Z.pow_succ_r in H2 by apply Z.log2_nonneg.
  apply Z.div_lt_upper_bound; lia.
Qed.

Lemma digits_int fuel n :
  0 <= n -> Z.log2 n < Z.of_nat fuel -> int_acc 0 (digits fuel n) = n.
Proof.
  revert n. induction fuel as [|f IH]; intros n H0 Hf.
  - pose proof (Z.log2_nonneg n). lia.
  - cbn [digits]. destruct (n <? 10) eqn:E.
    + apply Z.ltb_lt in E. cbn [int_acc].
      destruct (digit_char_ok n) as [_ [-> _]]; lia.
    + apply Z.ltb_ge in E. rewrite int_acc_app. cbn [int_acc].
      rewrite IH.
      * destruct (digit_char_ok (n mod 10)) as [_ [-> _]].
        -- pose proof (Z.mod_pos_bound n 10). lia.
        -- pose proof (Z.div_mod n 10 ltac:(lia)). lia.
      * apply Z.div_pos; lia.
      * pose proof (log2_div10 n E). lia.
Qed.

Lemma digits_all fuel n : 0 <= n -> all_decimal (digits fuel n) = true.
Proof.
  revert n. induction fuel as [|f IH]; intros n H0; [reflexivity|].
  simpl. destruct (n <? 10) eqn:E.
  - apply Z.ltb_lt in E. simpl.
    destruct (digit_char_ok n) as [-> _]; [lia | reflexivity].
  - rewrite all_decimal_app, IH by (apply Z.div_pos; lia). simpl.
    destruct (digit_char_ok (n mod 10)) as [-> _]; [|reflexivity].
    pose proof (Z.mod_pos_bound n 10). lia.
Qed.

Lemma digits_step f n :
  digits (S f) n =
  if n <? 10 then String (digit_char n) EmptyString
  else (digits f (n / 10) ++ String (digit_char (n mod 10)) EmptyString)%string.
Proof. reflexivity. Qed.

Lemma digits_nonempty f n : (1 <= String.length (digits (S f) n))%nat.
Proof.
  simpl. destruct (n <? 10); [simpl; lia|].
  rewrite length_app. simpl. lia.
Qed.

Lemma str_nat_int n : 0 <= n -> int_acc 0 (str_nat n) = n.
Proof. intros H. apply digits_int; [assumption | lia]. Qed.

Lemma str_nat_small n : n < 10 -> str_nat n = String (digit_char n) EmptyString.
Proof.
  intros H. unfold str_nat. simpl.
  apply Z.ltb_lt in H. now rewrite H.
Qed.

Lemma str_nat_large n : 10 <= n -> (2 <= String.length (str_nat n))%nat.
Proof.
  intros H. unfold str_nat.
  assert (L : 3 <= Z.log2 n).
  { apply Z.log2_le_pow2; [lia|]. simpl. lia. }
  destruct (Z.to_nat (Z.log2 n)) as [|f] eqn:F; [lia|].
  rewrite digits_step. apply Z.ltb_ge in H. rewrite H.
  rewrite length_app. pose proof (digits_nonempty f (n / 10)).
  cbn [String.length]. lia.
Qed.

Lemma str_nat_nonempty n : (1 <= String.length (str_nat n))%nat.
Proof. apply digits_nonempty. Qed.

(** [format(n, "02d")] is the two-digit zero padding. *)
Lemma format_02d_padded n : format_02d n = zero_padded2 n.
Proof.
  unfold format_02d, zero_padded2, zfill.
  destruct (n <? 0) eqn:E0.
  - pose proof (str_nat_nonempty (- n)) as L.
    destruct (String.length (str_nat (- n))) as [|k]; [lia|].
    reflexivity.
  - destruct (n <? 10) eqn:E.
    + apply Z.ltb_lt in E. now rewrite (str_nat_small n E).
    + apply Z.ltb_ge in E. pose proof (str_nat_large n E) as L.
      destruct (String.length (str_nat n)) as [|[|k]]; try lia.
      reflexivity.
Qed.

Lemma str_nat_head n c s : 0 <= n -> str_nat n = String c s -> c <> "-"%char.
Proof.
  intros H0 E. pose proof (digits_all (S (Z.to_nat (Z.log2 n))) n H0) as A.
  fold (str_nat n) in A. rewrite E in A. simpl in A.
  apply andb_true_iff in A. destruct A as [A _].
  intros ->. discriminate.
Qed.

Lemma zero_padded2_inj m n : zero_padded2 m = zero_padded2 n -> m = n.
Proof.
  unfold zero_padded2.
  assert (P : forall k, 0 <= k -> int_acc 0 (String "0"%char (str_nat k)) = k).
  { intros k Hk. cbn [int_acc]. now apply str_nat_int. }
  destruct (m <? 0) eqn:Em, (n <? 0) eqn:En;
    try apply Z.ltb_lt in Em; try apply Z.ltb_lt in En;
    try apply Z.ltb_ge in Em; try apply Z.ltb_ge in En.
  - intros E. inversion E as [E'].
    apply (f_equal (int_acc 0)) in E'. rewrite !str_nat_int in E' by lia. lia.
  - intros E. exfalso.
    destruct (n <? 10); [discriminate|].
    symmetry in E. now apply str_nat_head in E.
  - intros E. exfalso.
    destruct (m <? 10); [discriminate|].
    now apply str_nat_head in E.
  - intros E. apply (f_equal (int_acc 0)) in E.
    destruct (m <? 10), (n <? 10);
      rewrite ?P, ?str_nat_int in E by lia; assumption.
Qed.

Lemma format_02d_inj m n : format_02d m = format_02d n -> m = n.
Proof. rewrite !format_02d_padded. apply zero_padded2_inj. Qed.

Lemma append_inv_head (p s t : string) : (p ++ s = p ++ t)%string -> s = t.
Proof.
  induction p as [|c p IH]; simpl; [auto|].
  intros E. inversion E. auto.
Qed.

Lemma int_acc_nonneg acc s : 0 <= acc -> all_decimal s = true -> 0 <= int_acc acc s.
Proof.
  revert acc. induction s as [|c s IH]; cbn [int_acc all_decimal];
    intros acc H A; [assumption|].
  apply andb_true_iff in A. destruct A as [A1 A2].
  apply IH; [|assumption].
  unfold is_decimal in A1. unfold digit_val.
  apply andb_true_iff in A1. destruct A1 as [A1 _].
  apply Nat.leb_le in A1. lia.
Qed.

Lemma decimal_digit c : is_decimal c = true -> is_digit c = true.
Proof. unfold is_digit. now intros ->. Qed.

Lemma all_decimal_digits s : all_decimal s = true -> all_digits s = true.
Proof.
  induction s as [|c s IH]; simpl; [reflexivity|].
  intros H. apply andb_true_iff in H. destruct H as [H1 H2].
  now rewrite (decimal_digit c H1), (IH H2).
Qed.

Lemma isdecimal_isdigit s : isdecimal s = true -> isdigit s = true.
Proof. destruct s; [discriminate | apply all_decimal_digits]. Qed.

Lemma int_Some s : int_ok s = true -> int s = Some (int_acc 0 s).
Proof. unfold int. now intros ->. Qed.

Lemma int_isdecimal s n : int s = Some n -> int_ok s = true /\ n = int_acc 0 s.
Proof.
  unfold int. destruct (int_ok s); [|discriminate].
  intros H. inversion H. auto.
Qed.

Lemma int_None s : int s = None <-> int_ok s = false.
Proof. unfold int. destruct (int_ok s); split; congruence. Qed.

Lemma int_ok_spec s :
  int_ok s = true <->
  isdecimal s = true /\ (String.length s <= max_str_digits)%nat.
Proof. unfold int_ok. now rewrite andb_true_iff, Nat.leb_le. Qed.

Lemma int_nonneg s n : int s = Some n -> 0 <= n.
Proof.
  intros H. apply int_isdecimal in H. destruct H as [D ->].
  apply int_ok_spec in D. destruct D as [D _].
  apply int_acc_nonneg; [lia|]. destruct s; [discriminate | exact D].
Qed.

Lemma digits_length fuel n k :
  0 <= n < 10 ^ Z.of_nat (S k) ->
  (String.length (digits (S fuel) n) <= S k)%nat.
Proof.
  revert n k. induction fuel as [|f IH]; intros n k H.
  - cbn [digits]. destruct (n <? 10); cbn [String.length append]; lia.
  - rewrite digits_step. destruct (n <? 10) eqn:E; [cbn [String.length]; lia|].
    apply Z.ltb_ge in E. rewrite length_app. cbn [String.length].
    destruct k as [|k'].
    + change (10 ^ Z.of_nat 1) with 10 in H. lia.
    + assert (String.length (digits (S f) (n / 10)) <= S k')%nat; [|lia].
      apply IH. split; [apply Z.div_pos; lia|].
      apply Z.div_lt_upper_bound; [lia|].
      rewrite (Nat2Z.inj_succ (S k')), Z.pow_succ_r in H by lia. lia.
Qed.

Lemma str_nat_length n k :
  0 <= n < 10 ^ Z.of_nat (S k) -> (String.length (str_nat n) <= S k)%nat.
Proof. apply digits_length. Qed.

Lemma str_nat_isdecimal n : 0 <= n -> isdecimal (str_nat n) = true.
Proof.
  intros H. pose proof (str_nat_nonempty n) as L.
  pose proof (digits_all (S (Z.to_nat (Z.log2 n))) n H) as A.
  fold (str_nat n) in A.
  destruct (str_nat n); [simpl in L; lia | exact A].
Qed.

Lemma str_nat_int_ok n : 0 <= n < 10 ^ 4300 -> int_ok (str_nat n) = true.
Proof.
  intros H. apply int_ok_spec. split; [apply str_nat_isdecimal; lia|].
  apply (str_nat_length n 4299). exact H.
Qed.

Lemma str_nat_int_Some n : 0 <= n < 10 ^ 4300 -> int (str_nat n) = Some n.
Proof.
  intros H. rewrite int_Some by now apply str_nat_int_ok.
  rewrite str_nat_int by lia. reflexivity.
Qed.

End TextFacts.

Lemma make_point_uid_inj gid m n :
  make_point_uid gid m = make_point_uid gid n -> m = n.
Proof.
  unfold make_point_uid. intros E.
  apply TextFacts.append_inv_head in E.
  apply (TextFacts.append_inv_head "_P") in E.
  now apply TextFacts.format_02d_inj.
Qed.

(** ** Facts about the row assembler *)

Lemma traverse_int (l : list string) :
  traverse Text.int l =
  if forallb Text.int_ok l then Some (map (Text.int_acc 0) l) else None.
Proof.
  induction l as [|t l IH]; cbn [traverse forallb map]; [reflexivity|].
  rewrite IH. unfold Text.int at 1.
  destruct (Text.int_ok t); [|reflexivity].
  now destruct (forallb Text.int_ok l).
Qed.

Lemma digit_tokens_nil : digit_tokens EmptyString = [].
Proof. reflexivity. Qed.

(** The points of a cell in closed form. *)
Lemma points_played_eq raw :
  points_played raw =
  if forallb Text.int_ok (digit_tokens raw) then Some (points_of raw) else None.
Proof.
  unfold points_played, points_of. destruct raw as [|c raw']; [reflexivity|].
  apply traverse_int.
Qed.

Lemma traverse_player_rows (df_player : list PlayerStats) :
  traverse player_rows df_player =
  if readable df_player
  then Some (map (fun row => map (fun pt => (ps_Player row, pt))
                                 (points_of (ps_Points_played row))) df_player)
  else None.
Proof.
  unfold readable.
  induction df_player as [|row t IH]; cbn [traverse forallb map]; [reflexivity|].
  rewrite IH. unfold player_rows at 1. rewrite points_played_eq.
  destruct (forallb Text.int_ok (digit_tokens (ps_Points_played row)));
    [|reflexivity].
  cbn [option_map andb]. now destruct (forallb _ t).
Qed.

(** The roster expansion in closed form: it raises exactly when some digit
    token is not a decimal number. *)
Lemma expand_roster_eq (df_player : list PlayerStats) :
  _expand_roster_from_player_stats df_player =
  if readable df_player then Some (roster_of df_player) else None.
Proof.
  unfold _expand_roster_from_player_stats, roster_of.
  rewrite traverse_player_rows.
  destruct (readable df_player); [|reflexivity].
  cbn [option_map]. now rewrite flat_map_concat_map.
Qed.

(** The pass aggregator in closed form. *)
Lemma aggregate_passes_eq (df_passes : list PassEvent) :
  _aggregate_passes df_passes =
  if keys_clash (map th_Player (throws_table df_passes))
                (map ca_Player (catches_table df_passes))
  then None else Some (actions_of df_passes).
Proof. reflexivity. Qed.

Lemma expand_roster_Some df_player roster :
  _expand_roster_from_player_stats df_player = Some roster ->
  readable df_player = true /\ roster = roster_of df_player.
Proof.
  rewrite expand_roster_eq. destruct (readable df_player); [|discriminate].
  intros H. inversion H. auto.
Qed.

Lemma aggregate_passes_Some df_passes actions :
  _aggregate_passes df_passes = Some actions -> actions = actions_of df_passes.
Proof.
  rewrite aggregate_passes_eq. destruct (keys_clash _ _); [discriminate|].
  intros H. now inversion H.
Qed.

(** The check on a roster column: it holds names only, so it clashes with
    any column that has rows and no name. *)
Lemma keys_clash_names {A : Type} (f : A -> string) (l : list A)
    (col : list (option string)) :
  keys_clash (map (fun a => Some (f a)) l) col =
  match l with
  | [] => false
  | _ => all_missing col
  end.
Proof.
  unfold keys_clash. destruct l as [|a t]; [reflexivity|].
  cbn [map existsb named orb andb]. unfold all_missing at 1. cbn [map forallb named negb andb].
  reflexivity.
Qed.

Lemma pp_table_eq roster df_points df_passes df_blocks df_poss :
  pp_table roster (actions_of df_passes) (_aggregate_blocks df_blocks)
    (map (ctx_of df_poss) df_points) =
  if keys_clash (map (fun e => Some (ro_Player e)) roster)
                (map ac_Player (actions_of df_passes)) ||
     keys_clash (map (fun e => Some (ro_Player e)) roster)
                (map ba_Player (_aggregate_blocks df_blocks))
  then None
  else Some (merge_left Z.eqb pp_Point Point
               (map (pp_of df_passes df_blocks) roster)
               (map (ctx_of df_poss) df_points)).
Proof.
  unfold pp_table.
  destruct (keys_clash (map (fun e => Some (ro_Player e)) roster)
              (map ac_Player (actions_of df_passes))); [reflexivity|].
  rewrite (merge_left_unique key_eqb key_eqb_spec ro_key ac_key)
    by apply actions_keys.
  rewrite map_map. cbn [fst orb].
  destruct (keys_clash (map (fun e => Some (ro_Player e)) roster)
              (map ba_Player (_aggregate_blocks df_blocks))); [reflexivity|].
  rewrite (merge_left_unique key_eqb key_eqb_spec (fun x => ro_key (fst x)) ba_key)
    by apply blocks_keys.
  rewrite !map_map. reflexivity.
Qed.

Lemma traverse_app {A B : Type} (f : A -> option B) (l1 l2 : list A) :
  traverse f (l1 ++ l2) =
  match traverse f l1, traverse f l2 with
  | Some a, Some b => Some (a ++ b)
  | _, _ => None
  end.
Proof.
  induction l1 as [|x t IH]; simpl.
  - now destruct (traverse f l2).
  - rewrite IH. destruct (f x); [|reflexivity].
    destruct (traverse f t); [|reflexivity].
    now destruct (traverse f l2).
Qed.

Lemma traverse_joined gid (x : PPRow) (ms : list Ctx) :
  traverse (final_row gid) (joined x ms) =
  match ms with
  | [] => None
  | _ => Some (map (make_row gid x) ms)
  end.
Proof.
  assert (T : forall l, traverse (final_row gid) (map (fun b => (x, Some b)) l) =
                       Some (map (make_row gid x) l)).
  { induction l as [|d l IH]; cbn [traverse map]; [reflexivity|].
    rewrite IH. reflexivity. }
  destruct ms as [|c ms]; [reflexivity|].
  unfold joined. apply T.
Qed.

Lemma matches_nil_existsb {A B : Type} (kl : A -> Z) (kr : B -> Z) a (r : list B) :
  existsb (fun b => kl a =? kr b) r = false <-> matches Z.eqb kl kr a r = [].
Proof.
  unfold matches. induction r as [|b t IH]; simpl; [tauto|].
  destruct (kl a =? kr b); simpl; [split; discriminate | exact IH].
Qed.

Lemma traverse_final gid (pps : list PPRow) (ctx : list Ctx) :
  traverse (final_row gid) (merge_left Z.eqb pp_Point Point pps ctx) =
  if forallb (fun x => existsb (fun c => pp_Point x =? Point c) ctx) pps
  then Some (rows_of gid pps ctx) else None.
Proof.
  unfold merge_left, rows_of.
  induction pps as [|x t IH]; cbn [flat_map forallb]; [reflexivity|].
  rewrite traverse_app, traverse_joined, IH.
  destruct (existsb (fun c => pp_Point x =? Point c) ctx) eqn:E.
  - destruct (matches Z.eqb pp_Point Point x ctx) eqn:M.
    + apply matches_nil_existsb in M. congruence.
    + simpl. now destruct (forallb _ t).
  - apply matches_nil_existsb in E. now rewrite E.
Qed.

Lemma covered_ctx df_passes df_blocks df_poss roster df_points :
  forallb (fun x => existsb (fun c => pp_Point x =? Point c)
                      (map (ctx_of df_poss) df_points))
          (map (pp_of df_passes df_blocks) roster) =
  covered roster df_points.
Proof.
  unfold covered. induction roster as [|e t IH]; simpl; [reflexivity|].
  rewrite IH. f_equal. clear IH.
  induction df_points as [|p u IHu]; simpl; [reflexivity|].
  rewrite IHu. reflexivity.
Qed.

(** The build in closed form. *)
Lemma build_eq df_player df_points df_passes df_blocks df_poss gid :
  build_per_player_per_point df_player df_points df_passes df_blocks df_poss gid =
  if returns df_player df_points df_passes df_blocks
  then Some (rows_of gid
               (map (pp_of df_passes df_blocks)
                    (roster_of df_player))
               (map (ctx_of df_poss) df_points),
             map (ptsum_row gid) (map (ctx_of df_poss) df_points))
  else None.
Proof.
  unfold build_per_player_per_point, returns, clashes.
  rewrite expand_roster_eq, aggregate_passes_eq.
  destruct (readable df_player); [|reflexivity].
  destruct (keys_clash (map th_Player (throws_table df_passes))
              (map ca_Player (catches_table df_passes))); [reflexivity|].
  cbv zeta. rewrite ctx_map, pp_table_eq. cbn [orb andb].
  destruct (keys_clash (map (fun e => Some (ro_Player e)) (roster_of df_player))
              (map ac_Player (actions_of df_passes)) ||
            keys_clash (map (fun e => Some (ro_Player e)) (roster_of df_player))
              (map ba_Player (_aggregate_blocks df_blocks))); [reflexivity|].
  rewrite traverse_final, covered_ctx. cbn [negb andb].
  now destruct (covered _ df_points).
Qed.

Lemma returns_parts df_player df_points df_passes df_blocks :
  returns df_player df_points df_passes df_blocks = true ->
  _expand_roster_from_player_stats df_player = Some (roster_of df_player) /\
  _aggregate_passes df_passes = Some (actions_of df_passes) /\
  covered (roster_of df_player) df_points = true.
Proof.
  unfold returns, clashes. rewrite expand_roster_eq, aggregate_passes_eq.
  intros H. apply andb_true_iff in H. destruct H as [H C].
  apply andb_true_iff in H. destruct H as [R K].
  apply negb_true_iff in K. apply orb_false_iff in K. destruct K as [K _].
  apply orb_false_iff in K. destruct K as [K _].
  rewrite R, K. auto.
Qed.

(** A build that returned: its tables, and what its parts returned. *)
Lemma build_Some df_player df_points df_passes df_blocks df_poss gid rows ptsum :
  build_per_player_per_point df_player df_points df_passes df_blocks df_poss gid =
    Some (rows, ptsum) ->
  rows = rows_of gid (map (pp_of df_passes df_blocks) (roster_of df_player))
           (map (ctx_of df_poss) df_points) /\
  ptsum = map (ptsum_row gid) (map (ctx_of df_poss) df_points) /\
  returns df_player df_points df_passes df_blocks = true.
Proof.
  rewrite build_eq.
  destruct (returns df_player df_points df_passes df_blocks); [|discriminate].
  intros H. inversion H. auto.
Qed.

Lemma covered_In roster df_points :
  covered roster df_points = true <->
  forall e, In e roster -> In (ro_Point e) (map pt_Point df_points).
Proof.
  unfold covered. rewrite forallb_forall. split; intros H e He.
  - specialize (H e He). apply existsb_exists in H.
    destruct H as [p [Hp E]]. apply Z.eqb_eq in E. rewrite E. now apply in_map.
  - specialize (H e He). apply in_map_iff in H. destruct H as [p [E Hp]].
    apply existsb_exists. exists p. split; [assumption|]. now apply Z.eqb_eq.
Qed.

(** Membership in the final rows. *)
Lemma rows_of_In gid pps ctx r :
  In r (rows_of gid pps ctx) <->
  exists x c, In x pps /\ In c ctx /\ pp_Point x = Point c /\ r = make_row gid x c.
Proof.
  unfold rows_of, matches. rewrite in_flat_map. split.
  - intros [x [Hx Hr]]. apply in_map_iff in Hr. destruct Hr as [c [E Hc]].
    apply filter_In in Hc. destruct Hc as [Hc Hk]. apply Z.eqb_eq in Hk.
    exists x, c. auto.
  - intros [x [c [Hx [Hc [Hk ->]]]]]. exists x. split; [assumption|].
    apply in_map. apply filter_In. split; [assumption | now apply Z.eqb_eq].
Qed.

(** The aggregate columns of a key in terms of the events under it. *)
Lemma action_stats df k :
  let a := lookup key_eqb ac_key k (actions_of df) in
  opt_z ac_throws a = count_notna (map pa_Thrower (thrown df k)) /\
  opt_z ac_completions a = count_if (fun e => pa_Turnover e =? 0) (thrown df k) /\
  opt_z ac_turnovers a = count_if (fun e => pa_Turnover e =? 1) (thrown df k) /\
  opt_z ac_assists a = zsum (map pa_Assist (thrown df k)) /\
  opt_z ac_catches a = count_notna (map pa_Receiver (caught df k)) /\
  opt_z ac_goals a = count_if (fun e => pa_Assist e =? 1) (caught df k).
Proof.
  cbv zeta. rewrite lookup_actions.
  destruct (thrown df k), (caught df k); repeat split; reflexivity.
Qed.

Lemma count_notna_all {A : Type} (f : A -> option string) (g : list A) :
  (forall e, In e g -> f e <> None) -> count_notna (map f g) = len g.
Proof.
  unfold count_notna, count_if, len. intros H. f_equal.
  induction g as [|e t IH]; simpl; [reflexivity|].
  destruct (f e) eqn:E; [|exfalso; apply (H e); simpl; auto].
  simpl. rewrite IH; [reflexivity|]. intros x Hx. apply H. now right.
Qed.

Lemma thrown_named df pt name :
  count_notna (map pa_Thrower (thrown df (pt, Some name))) =
  len (thrown df (pt, Some name)).
Proof.
  apply count_notna_all. intros e He.
  apply filter_In in He. destruct He as [_ He].
  apply key_eqb_spec in He. unfold throw_key in He.
  inversion He as [[E1 E2]]. congruence.
Qed.

Lemma caught_named df pt name :
  count_notna (map pa_Receiver (caught df (pt, Some name))) =
  len (caught df (pt, Some name)).
Proof.
  apply count_notna_all. intros e He.
  apply filter_In in He. destruct He as [_ He].
  apply key_eqb_spec in He. unfold catch_key in He.
  inversion He as [[E1 E2]]. congruence.
Qed.

Lemma lookup_In {B : Type} (kr : B -> key) (r : list B) b :
  NoDup (map kr r) -> In b r -> lookup key_eqb kr (kr b) r = Some b.
Proof.
  unfold lookup. induction r as [|x t IH]; simpl; intros ND H; [contradiction|].
  inversion ND as [|? ? Hn ND']; subst.
  destruct H as [->|H].
  - now rewrite (eqb_refl key_eqb key_eqb_spec).
  - destruct (key_eqb (kr b) (kr x)) eqn:E; [|auto].
    apply key_eqb_spec in E. exfalso. apply Hn. rewrite <- E. now apply in_map.
Qed.

Lemma count_split {A : Type} (f : A -> Z) (g : list A) :
  (forall e, In e g -> f e = 0 \/ f e = 1) ->
  len g = count_if (fun e => f e =? 0) g + count_if (fun e => f e =? 1) g.
Proof.
  unfold count_if, len. intros H. rewrite <- Nat2Z.inj_add. f_equal.
  induction g as [|e t IH]; simpl; [reflexivity|].
  assert (IH' := IH (fun x Hx => H x (or_intror Hx))).
  destruct (H e (or_introl eq_refl)) as [E|E]; rewrite E; simpl; lia.
Qed.

(** ** The pass aggregator *)

(** C10, as stated: a pass whose thrower cell is empty falls into a group of
    its own ([dropna=False]) in which [count] finds no thrower; the row of
    that group has 0 throws and 1 completion. *)
Lemma throws_of_unnamed_thrower :
  let df := [ Sample.pass 1 (Some "A") (Some "B") 0 0 5;
              Sample.pass 1 None (Some "B") 0 0 5 ] in
  (forall e, In e df -> pa_Turnover e = 0 \/ pa_Turnover e = 1) /\
  exists actions a,
    _aggregate_passes df = Some actions /\ In a actions /\
    ac_throws a = 0 /\ ac_completions a = 1 /\ ac_turnovers a = 0.
Proof.
  split.
  - intros e [<-|[<-|[]]]; left; reflexivity.
  - eexists. eexists. split; [reflexivity|].
    split; [right; left; reflexivity|]. repeat split; reflexivity.
Qed.

(** C10, amended.  When every [Turnover?] value is 0 or 1, every row of the
    pass aggregator's output that carries a player name has
    [throws = completions + turnovers]. *)
Theorem throws_are_completions_plus_turnovers :
  forall df_passes actions a,
    (forall e, In e df_passes -> pa_Turnover e = 0 \/ pa_Turnover e = 1) ->
    _aggregate_passes df_passes = Some actions ->
    In a actions ->
    ac_Player a <> None ->
    ac_throws a = ac_completions a + ac_turnovers a.
Proof.
  intros df actions a HT HA Ha Hn.
  apply aggregate_passes_Some in HA. subst actions.
  pose proof (lookup_In ac_key _ a (actions_keys df) Ha) as L.
  destruct (action_stats df (ac_key a)) as [S1 [S2 [S3 _]]].
  rewrite L in S1, S2, S3. simpl in S1, S2, S3.
  rewrite S1, S2, S3.
  destruct (ac_Player a) as [name|] eqn:P; [|congruence].
  unfold ac_key. rewrite P, thrown_named.
  apply count_split. intros e He. apply HT.
  apply filter_In in He. tauto.
Qed.

Lemma throws_are_completions_plus_turnovers_witness :
  exists actions a,
    _aggregate_passes Sample.passes = Some actions /\ In a actions /\
    ac_throws a = ac_completions a + ac_turnovers a.
Proof.
  exists (actions_of Sample.passes). eexists.
  split; [reflexivity|]. split; [left; reflexivity|].
  apply (throws_are_completions_plus_turnovers Sample.passes
           (actions_of Sample.passes)).
  - intros e H. simpl in H.
    repeat (destruct H as [<-|H]; [simpl; auto|]). contradiction.
  - reflexivity.
  - left. reflexivity.
  - discriminate.
Defined.

(** ** The per-player-per-point table *)

Lemma pp_of_Point df_passes df_blocks e :
  pp_Point (pp_of df_passes df_blocks e) = ro_Point e.
Proof. reflexivity. Qed.

Lemma build_parts df_player df_points df_passes df_blocks df_poss gid t :
  build_per_player_per_point df_player df_points df_passes df_blocks df_poss gid =
    Some t ->
  readable df_player = true /\
  _expand_roster_from_player_stats df_player = Some (roster_of df_player) /\
  _aggregate_passes df_passes = Some (actions_of df_passes) /\
  covered (roster_of df_player) df_points = true.
Proof.
  destruct t as [rows ptsum]. intros H.
  apply build_Some in H. destruct H as [_ [_ H]].
  apply returns_parts in H. destruct H as [H1 [H2 H3]].
  split; [now apply expand_roster_Some in H1 | auto].
Qed.

(** A build that returned, in closed form. *)
Ltac returned H :=
  apply build_Some in H; destruct H as [? [? _]]; subst.

(** Every final row comes from a roster entry and a context row of its
    point. *)
Lemma build_rows_In df_player df_points df_passes df_blocks df_poss gid rows ptsum r :
  build_per_player_per_point df_player df_points df_passes df_blocks df_poss gid =
    Some (rows, ptsum) ->
  In r rows ->
  exists e c,
    In e (roster_of df_player) /\
    In c (map (ctx_of df_poss) df_points) /\
    ro_Point e = Point c /\
    r = make_row gid (pp_of df_passes df_blocks e) c.
Proof.
  intros E Hr. returned E.
  apply rows_of_In in Hr. destruct Hr as [x [c [Hx [Hc [Hk ->]]]]].
  apply in_map_iff in Hx. destruct Hx as [e [<- He]].
  exists e, c. auto.
Qed.

(** C1.  In every row of the returned per-player-per-point table, [touches]
    is [throws] plus the [catches] value that the pass aggregator holds for
    the row's (point, player), 0 when it holds none; that value is the number
    of completed passes the player received on the point. *)
Theorem touches_are_throws_plus_catches :
  forall df_player df_points df_passes df_blocks df_poss gid rows ptsum r,
    build_per_player_per_point df_player df_points df_passes df_blocks df_poss gid =
      Some (rows, ptsum) ->
    In r rows ->
    exists actions pt,
      _aggregate_passes df_passes = Some actions /\
      point_uid r = make_point_uid gid pt /\
      touches r = throws r + catches_for actions (pt, Some (player r)) /\
      catches_for actions (pt, Some (player r)) =
        len (caught df_passes (pt, Some (player r))).
Proof.
  intros df_player df_points df_passes df_blocks df_poss gid rows ptsum r HB Hr.
  destruct (build_rows_In _ _ _ _ _ _ _ _ _ HB Hr) as [e [c [He [Hc [Hk ->]]]]].
  destruct (build_parts _ _ _ _ _ _ _ HB) as [_ [_ [HA _]]].
  exists (actions_of df_passes), (ro_Point e).
  split; [exact HA|]. split; [reflexivity|]. split; [reflexivity|].
  unfold catches_for. simpl.
  destruct (action_stats df_passes (ro_Point e, Some (ro_Player e)))
    as [_ [_ [_ [_ [S5 _]]]]].
  rewrite S5. apply caught_named.
Qed.

Lemma touches_are_throws_plus_catches_witness :
  exists actions pt,
    _aggregate_passes Sample.passes = Some actions /\
    "G_P03" = make_point_uid "G" pt /\
    2 = 1 + catches_for actions (pt, Some "A") /\
    catches_for actions (pt, Some "A") =
      len (caught Sample.passes (pt, Some "A")).
Proof.
  refine (touches_are_throws_plus_catches Sample.players Sample.points
            Sample.passes Sample.blocks Sample.possessions "G" _ _
            (make_row "G" (pp_of Sample.passes Sample.blocks
                             {| ro_Player := "A"; ro_Point := 3 |})
                      (ctx_of Sample.possessions (Sample.point 3 1 1)))
            eq_refl _).
  right. left. reflexivity.
Defined.

Lemma is_row_make gid name pt df_passes df_blocks e c :
  is_row gid name pt (make_row gid (pp_of df_passes df_blocks e) c) =
  is_entry name pt e.
Proof.
  unfold is_row, is_entry. simpl. f_equal.
  destruct (ro_Point e =? pt) eqn:E.
  - apply Z.eqb_eq in E. rewrite E. apply String.eqb_refl.
  - apply Z.eqb_neq in E. apply String.eqb_neq. intros H. apply E.
    now apply make_point_uid_inj in H.
Qed.

Lemma ctx_keys df_poss df_points :
  map Point (map (ctx_of df_poss) df_points) = map pt_Point df_points.
Proof. rewrite map_map. reflexivity. Qed.

(** With point numbers a key of the points table, a player row on a covered
    point is joined with exactly one context row. *)
Lemma matches_one df_passes df_blocks df_poss df_points e :
  NoDup (map pt_Point df_points) ->
  In (ro_Point e) (map pt_Point df_points) ->
  exists c,
    matches Z.eqb pp_Point Point (pp_of df_passes df_blocks e)
      (map (ctx_of df_poss) df_points) = [c].
Proof.
  intros ND Hin.
  rewrite (matches_unique Z.eqb Zeqb_spec) by now rewrite ctx_keys.
  destruct (lookup Z.eqb Point (pp_Point (pp_of df_passes df_blocks e))
              (map (ctx_of df_poss) df_points)) as [c|] eqn:L.
  - now exists c.
  - apply (lookup_None Z.eqb Zeqb_spec) in L. rewrite ctx_keys in L.
    contradiction.
Qed.

Lemma filter_app_len {A : Type} (f : A -> bool) (l1 l2 : list A) :
  count_if f (l1 ++ l2) = count_if f l1 + count_if f l2.
Proof.
  unfold count_if, len. now rewrite filter_app, length_app, Nat2Z.inj_add.
Qed.




(** *** Tokens and roster entries *)

Lemma digit_tokens_In raw t :
  In t (digit_tokens raw) <->
  exists tok, In tok (Text.split ","%char raw) /\ Text.strip tok = t /\
              Text.isdigit t = true.
Proof.
  unfold digit_tokens. rewrite filter_In, in_map_iff. split.
  - intros [[tok [E Ht]] Hd]. exists tok. auto.
  - intros [tok [Ht [E Hd]]]. split; [now exists tok | assumption].
Qed.

Lemma points_of_In raw pt :
  In pt (points_of raw) <->
  exists tok, In tok (Text.split ","%char raw) /\
              Text.isdigit (Text.strip tok) = true /\
              Text.int_acc 0 (Text.strip tok) = pt.
Proof.
  unfold points_of. rewrite in_map_iff. split.
  - intros [t [E Ht]]. apply digit_tokens_In in Ht.
    destruct Ht as [tok [Htok [<- Hd]]]. exists tok. auto.
  - intros [tok [Htok [Hd E]]]. exists (Text.strip tok). split; [assumption|].
    apply digit_tokens_In. exists tok. auto.
Qed.

(** The entries of the roster, from the tokens of the cells. *)
Lemma roster_of_In df_player name pt :
  In {| ro_Player := name; ro_Point := pt |} (roster_of df_player) <->
  exists row tok,
    In row df_player /\ ps_Player row = Some name /\
    In tok (Text.split ","%char (ps_Points_played row)) /\
    Text.isdigit (Text.strip tok) = true /\ Text.int_acc 0 (Text.strip tok) = pt.
Proof.
  unfold roster_of, dropna. rewrite in_flat_map. split.
  - intros [[o q] [H1 H2]]. apply in_flat_map in H1. destruct H1 as [row [Hrow H1]].
    apply in_map_iff in H1. destruct H1 as [q' [E Hq]]. inversion E; subst o q'.
    simpl in H2. destruct (ps_Player row) as [n|] eqn:P; [|contradiction].
    destruct H2 as [H2|[]]. inversion H2; subst n q.
    apply points_of_In in Hq. destruct Hq as [tok [Ht [Hd Hi]]].
    exists row, tok. auto.
  - intros [row [tok [Hrow [P [Ht [Hd Hi]]]]]].
    exists (Some name, pt). split; [|now left].
    apply in_flat_map. exists row. split; [assumption|].
    rewrite P. apply in_map. apply points_of_In. exists tok. auto.
Qed.

Lemma readable_spec df_player :
  readable df_player = true <->
  forall row tok,
    In row df_player -> In tok (Text.split ","%char (ps_Points_played row)) ->
    Text.isdigit (Text.strip tok) = true -> Text.int_ok (Text.strip tok) = true.
Proof.
  unfold readable. rewrite forallb_forall. split.
  - intros H row tok Hrow Htok Hd. specialize (H row Hrow).
    rewrite forallb_forall in H. apply H. apply digit_tokens_In. exists tok. auto.
  - intros H row Hrow. apply forallb_forall. intros t Ht.
    apply digit_tokens_In in Ht. destruct Ht as [tok [Htok [<- Hd]]].
    now apply (H row tok).
Qed.













Lemma roster_nonneg df_player e :
  readable df_player = true -> In e (roster_of df_player) -> 0 <= ro_Point e.
Proof.
  intros R He. destruct e as [n q]. apply roster_of_In in He.
  destruct He as [row [tok [Hrow [_ [Ht [Hd <-]]]]]].
  pose proof (proj1 (readable_spec df_player) R row tok Hrow Ht Hd) as D.
  apply (TextFacts.int_nonneg (Text.strip tok)). now apply TextFacts.int_Some.
Qed.

Lemma NoDup_map_uid gid (l : list Z) :
  NoDup l -> NoDup (map (make_point_uid gid) l).
Proof.
  induction 1 as [|x t Hn ND IH]; simpl; constructor; [|assumption].
  intros H. apply in_map_iff in H. destruct H as [y [E Hy]].
  apply make_point_uid_inj in E. now subst.
Qed.

Lemma make_point_uid_padded gid pt :
  make_point_uid gid pt = (gid ++ "_P" ++ zero_padded2 pt)%string.
Proof. unfold make_point_uid. now rewrite TextFacts.format_02d_padded. Qed.

(** C9.  In every row of the returned fact table and of the point-level
    summary, [point_uid] is the game id, then ["_P"], then the point number
    zero-padded to two digits; the fact row's point number is a rostered
    point of its player.  When point numbers are distinct in the points
    table, the [point_uid] values of the summary are pairwise distinct --
    whether or not a point number exceeds 99. *)
Theorem point_uid_format_and_uniqueness :
  forall df_player df_points df_passes df_blocks df_poss gid rows ptsum,
    build_per_player_per_point df_player df_points df_passes df_blocks
      df_poss gid = Some (rows, ptsum) ->
    (exists roster,
       _expand_roster_from_player_stats df_player = Some roster /\
       forall r, In r rows ->
         exists pt,
           In {| ro_Player := player r; ro_Point := pt |} roster /\
           0 <= pt /\
           point_uid r = (gid ++ "_P" ++ zero_padded2 pt)%string) /\
    map su_ctx ptsum = _build_point_context_with_possessions df_points df_poss /\
    (forall s, In s ptsum ->
       su_game_id s = gid /\
       su_point_uid s = (gid ++ "_P" ++ zero_padded2 (Point (su_ctx s)))%string) /\
    (NoDup (map pt_Point df_points) -> NoDup (map su_point_uid ptsum)).
Proof.
  intros df_player df_points df_passes df_blocks df_poss gid rows ptsum HB.
  split; [|split; [|split]].
  - destruct (build_parts _ _ _ _ _ _ _ HB) as [R [HR _]].
    exists (roster_of df_player). split; [exact HR|].
    intros r Hr.
    destruct (build_rows_In _ _ _ _ _ _ _ _ _ HB Hr) as [e [c [He [_ [_ ->]]]]].
    exists (ro_Point e). simpl. split; [now destruct e|].
    split; [now apply (roster_nonneg df_player) | apply make_point_uid_padded].
  - returned HB. rewrite ctx_map, map_map. simpl. apply map_id.
  - returned HB. intros s Hs.
    apply in_map_iff in Hs. destruct Hs as [c [<- _]]. simpl.
    split; [reflexivity | apply make_point_uid_padded].
  - returned HB. intros ND.
    rewrite !map_map. simpl.
    rewrite <- (map_map pt_Point (make_point_uid gid)).
    now apply NoDup_map_uid.
Qed.

Lemma point_uid_format_and_uniqueness_witness :
  NoDup (map su_point_uid
           (map (ptsum_row "G")
              (_build_point_context_with_possessions
                 Sample.points Sample.possessions))).
Proof.
  refine (proj2 (proj2 (proj2
    (point_uid_format_and_uniqueness Sample.players Sample.points Sample.passes
       Sample.blocks Sample.possessions "G" _ _ eq_refl))) _).
  simpl. repeat constructor; simpl; intuition discriminate.
Defined.

Example point_uid_ex :
  map (make_point_uid "2025-07-03_FBA") [1; 12; 100] =
  ["2025-07-03_FBA_P01"; "2025-07-03_FBA_P12"; "2025-07-03_FBA_P100"].
Proof. reflexivity. Qed.

(** ** One more assisted completion *)

Section Insert.

Context {A : Type} (key : A -> key).

Lemma group_insert_hit (l1 l2 : list A) e :
  group key_eqb key (l1 ++ e :: l2) (key e) =
  group key_eqb key l1 (key e) ++ e :: group key_eqb key l2 (key e).
Proof.
  unfold group. rewrite filter_app. simpl.
  now rewrite (eqb_refl key_eqb key_eqb_spec).
Qed.

Lemma group_insert_miss (l1 l2 : list A) e k :
  key e <> k ->
  group key_eqb key (l1 ++ e :: l2) k = group key_eqb key (l1 ++ l2) k.
Proof.
  intros H. unfold group. rewrite !filter_app. simpl.
  apply (eqb_neq key_eqb key_eqb_spec) in H. now rewrite H.
Qed.

Lemma group_app (l1 l2 : list A) k :
  group key_eqb key (l1 ++ l2) k = group key_eqb key l1 k ++ group key_eqb key l2 k.
Proof. apply filter_app. Qed.

End Insert.

Lemma len_insert {A : Type} (l1 l2 : list A) e :
  len (l1 ++ e :: l2) = len (l1 ++ l2) + 1.
Proof. unfold len. rewrite !length_app. simpl. lia. Qed.

Lemma count_if_insert {A : Type} (f : A -> bool) (l1 l2 : list A) e :
  count_if f (l1 ++ e :: l2) = count_if f (l1 ++ l2) + b2z (f e).
Proof.
  unfold count_if, len. rewrite !filter_app, !length_app. simpl.
  destruct (f e); simpl; lia.
Qed.

Lemma zsum_insert {A : Type} (g : A -> Z) (l1 l2 : list A) e :
  zsum (map g (l1 ++ e :: l2)) = zsum (map g (l1 ++ l2)) + g e.
Proof.
  induction l1 as [|x t IH]; simpl; [lia|]. rewrite IH. lia.
Qed.

Lemma completed_insert_hit l1 l2 e :
  pa_Turnover e = 0 ->
  completed (l1 ++ e :: l2) = completed l1 ++ e :: completed l2.
Proof. intros H. unfold completed. rewrite filter_app. simpl. now rewrite H. Qed.

Lemma completed_insert_miss l1 l2 e :
  pa_Turnover e <> 0 -> completed (l1 ++ e :: l2) = completed (l1 ++ l2).
Proof.
  intros H. unfold completed. rewrite !filter_app. simpl.
  apply Z.eqb_neq in H. now rewrite H.
Qed.

Lemma completed_app l1 l2 : completed (l1 ++ l2) = completed l1 ++ completed l2.
Proof. apply filter_app. Qed.

Section Event.

Variables (l1 l2 : list PassEvent) (e : PassEvent) (a b : string) (pt : Z).
Hypothesis e_Point : pa_Point e = pt.
Hypothesis e_Thrower : pa_Thrower e = Some a.
Hypothesis e_Receiver : pa_Receiver e = Some b.
Hypothesis e_Turnover : pa_Turnover e = 0.
Hypothesis e_Assist : pa_Assist e = 1.

Lemma e_throw_key : throw_key e = (pt, Some a).
Proof. unfold throw_key. now rewrite e_Point, e_Thrower. Qed.

Lemma e_catch_key : catch_key e = (pt, Some b).
Proof. unfold catch_key. now rewrite e_Point, e_Receiver. Qed.

Lemma thrown_thrower :
  thrown (l1 ++ e :: l2) (pt, Some a) =
  thrown l1 (pt, Some a) ++ e :: thrown l2 (pt, Some a).
Proof. unfold thrown. rewrite <- e_throw_key. apply group_insert_hit. Qed.

Lemma thrown_other k :
  k <> (pt, Some a) -> thrown (l1 ++ e :: l2) k = thrown (l1 ++ l2) k.
Proof.
  intros H. unfold thrown. apply group_insert_miss. rewrite e_throw_key. congruence.
Qed.

Lemma caught_receiver :
  caught (l1 ++ e :: l2) (pt, Some b) =
  caught l1 (pt, Some b) ++ e :: caught l2 (pt, Some b).
Proof.
  unfold caught. rewrite completed_insert_hit by assumption.
  rewrite <- e_catch_key. apply group_insert_hit.
Qed.

Lemma thrown_split k : thrown (l1 ++ l2) k = thrown l1 k ++ thrown l2 k.
Proof. apply group_app. Qed.

Lemma caught_split k : caught (l1 ++ l2) k = caught l1 k ++ caught l2 k.
Proof. unfold caught. rewrite completed_app. apply group_app. Qed.

Lemma catches_for_delta :
  catches_for (actions_of (l1 ++ e :: l2)) (pt, Some b) =
  catches_for (actions_of (l1 ++ l2)) (pt, Some b) + 1.
Proof.
  unfold catches_for.
  destruct (action_stats (l1 ++ e :: l2) (pt, Some b)) as [_ [_ [_ [_ [-> _]]]]].
  destruct (action_stats (l1 ++ l2) (pt, Some b)) as [_ [_ [_ [_ [-> _]]]]].
  rewrite !caught_named, caught_receiver, caught_split. apply len_insert.
Qed.

Lemma event_delta_row gid df_blocks x c :
  event_delta gid a b pt
    (make_row gid (pp_of (l1 ++ e :: l2) df_blocks x) c)
    (make_row gid (pp_of (l1 ++ l2) df_blocks x) c).
Proof.
  unfold event_delta. split; [reflexivity|]. split; [reflexivity|].
  cbn [player point_uid make_row pp_of fill_pp pp_Player pp_Point fst snd
       completions assists goals touches pp_completions pp_assists pp_goals
       pp_touches].
  unfold ro_key.
  destruct (action_stats (l1 ++ e :: l2) (ro_Point x, Some (ro_Player x)))
    as [S1 [S2 [_ [S4 [S5 S6]]]]].
  destruct (action_stats (l1 ++ l2) (ro_Point x, Some (ro_Player x)))
    as [T1 [T2 [_ [T4 [T5 T6]]]]].
  rewrite S1, S2, S4, S5, S6, T1, T2, T4, T5, T6. clear S1 S2 S4 S5 S6 T1 T2 T4 T5 T6.
  split; intros Hp Hu; apply make_point_uid_inj in Hu; rewrite Hp, Hu.
  - rewrite thrown_thrower, thrown_split, count_if_insert, zsum_insert.
    rewrite e_Turnover, e_Assist. split; reflexivity.
  - rewrite !caught_named, !thrown_named.
    rewrite caught_receiver, caught_split, count_if_insert, e_Assist.
    split; [reflexivity|]. intros Hab.
    rewrite thrown_other by congruence. rewrite len_insert. lia.
Qed.

Lemma event_delta_rows gid df_blocks roster ctx :
  Forall2 (event_delta gid a b pt)
    (rows_of gid (map (pp_of (l1 ++ e :: l2) df_blocks) roster) ctx)
    (rows_of gid (map (pp_of (l1 ++ l2) df_blocks) roster) ctx).
Proof.
  unfold rows_of. induction roster as [|x t IH]; cbn [map flat_map]; [constructor|].
  apply Forall2_app; [|exact IH].
  unfold matches. rewrite !pp_of_Point.
  induction (filter (fun c => ro_Point x =? Point c) ctx) as [|c u IHu];
    cbn [map]; constructor; [apply event_delta_row | exact IHu].
Qed.

End Event.

Lemma rostered_row df_passes df_blocks df_poss df_points gid roster name pt :
  covered roster df_points = true ->
  In {| ro_Player := name; ro_Point := pt |} roster ->
  exists r,
    In r (rows_of gid (map (pp_of df_passes df_blocks) roster)
            (map (ctx_of df_poss) df_points)) /\
    player r = name /\ point_uid r = make_point_uid gid pt.
Proof.
  intros Hc He. apply covered_In with (e := {| ro_Player := name; ro_Point := pt |}) in Hc;
    [|assumption].
  apply in_map_iff in Hc. destruct Hc as [p [E Hp]]. simpl in E.
  exists (make_row gid (pp_of df_passes df_blocks {| ro_Player := name; ro_Point := pt |})
            (ctx_of df_poss p)).
  split; [|split; reflexivity].
  apply rows_of_In. eexists. eexists.
  split; [apply in_map; exact He|].
  split; [apply in_map; exact Hp|].
  split; [|reflexivity]. now rewrite ctx_of_Point.
Qed.

(** With named throwers and receivers, only the block table can clash. *)
Lemma clashes_named_passes df_player df_passes df_blocks :
  throwers_named df_passes = true -> receivers_named df_passes = true ->
  clashes df_player df_passes df_blocks =
  keys_clash (map (fun e => Some (ro_Player e)) (roster_of df_player))
             (map ba_Player (_aggregate_blocks df_blocks)).
Proof.
  intros HT HR. unfold clashes.
  pose proof (throwers_named_column df_passes HT) as T.
  pose proof (receivers_named_column df_passes HR) as R.
  pose proof (throwers_named_actions df_passes HT) as A.
  assert (K1 : keys_clash (map th_Player (throws_table df_passes))
                 (map ca_Player (catches_table df_passes)) = false).
  { unfold keys_clash.
    now rewrite (all_missing_named _ T), (all_missing_named _ R), !andb_false_r. }
  assert (K2 : keys_clash (map (fun e => Some (ro_Player e)) (roster_of df_player))
                 (map ac_Player (actions_of df_passes)) = false).
  { rewrite keys_clash_names.
    destruct (roster_of df_player); [reflexivity | now apply all_missing_named]. }
  now rewrite K1, K2.
Qed.

Lemma returns_blocks df_player df_points df_passes df_blocks :
  returns df_player df_points df_passes df_blocks = true ->
  keys_clash (map (fun e => Some (ro_Player e)) (roster_of df_player))
             (map ba_Player (_aggregate_blocks df_blocks)) = false.
Proof.
  unfold returns, clashes. intros H.
  apply andb_true_iff in H. destruct H as [H _].
  apply andb_true_iff in H. destruct H as [_ K].
  apply negb_true_iff in K. apply orb_false_iff in K. tauto.
Qed.

(** C8.  Let the pass events contain a completed pass [e] on point [pt],
    thrown by [a], caught by [b] and flagged as an assist, with [a] and [b]
    rostered on [pt], and let the build return a table.  Whenever the build
    without [e] returns -- it does when the remaining passes still name a
    thrower and the receiver of a completed pass -- it returns the same
    summary and the same rows in the same order, except that in the row of
    [a] on [pt] [completions] and [assists] are smaller by 1, and in the row
    of [b] on [pt] [goals], the aggregated catches and (for [b] other than
    [a]) [touches] are smaller by 1; both rows exist.  An event with
    [Turnover?] other than 0 never enters the catching-side aggregates. *)
Theorem assisted_completion_counts :
  forall df_player df_points l1 e l2 df_blocks df_poss gid a b pt roster rows ptsum,
    pa_Point e = pt -> pa_Thrower e = Some a -> pa_Receiver e = Some b ->
    pa_Turnover e = 0 -> pa_Assist e = 1 ->
    _expand_roster_from_player_stats df_player = Some roster ->
    In {| ro_Player := a; ro_Point := pt |} roster ->
    In {| ro_Player := b; ro_Point := pt |} roster ->
    build_per_player_per_point df_player df_points (l1 ++ e :: l2) df_blocks
      df_poss gid = Some (rows, ptsum) ->
    (throwers_named (l1 ++ l2) = true -> receivers_named (l1 ++ l2) = true ->
     exists rows',
       build_per_player_per_point df_player df_points (l1 ++ l2) df_blocks
         df_poss gid = Some (rows', ptsum)) /\
    (forall rows' ptsum',
       build_per_player_per_point df_player df_points (l1 ++ l2) df_blocks
         df_poss gid = Some (rows', ptsum') ->
       ptsum' = ptsum /\
       Forall2 (event_delta gid a b pt) rows rows' /\
       exists actions actions',
         _aggregate_passes (l1 ++ e :: l2) = Some actions /\
         _aggregate_passes (l1 ++ l2) = Some actions' /\
         catches_for actions (pt, Some b) = catches_for actions' (pt, Some b) + 1) /\
    (exists r, In r rows /\ player r = a /\ point_uid r = make_point_uid gid pt) /\
    (exists r, In r rows /\ player r = b /\ point_uid r = make_point_uid gid pt) /\
    (forall m1 x m2, pa_Turnover x <> 0 ->
       catches_table (m1 ++ x :: m2) = catches_table (m1 ++ m2)).
Proof.
  intros df_player df_points l1 e l2 df_blocks df_poss gid a b pt roster rows ptsum
         E1 E2 E3 E4 E5 HR Ha Hb HB.
  apply expand_roster_Some in HR. destruct HR as [R ->].
  destruct (build_parts _ _ _ _ _ _ _ HB) as [_ [_ [HA C]]].
  apply build_Some in HB. destruct HB as [-> [-> HB]].
  split; [|split; [|split; [|split]]].
  - intros HT HC. rewrite build_eq. unfold returns.
    rewrite R, C, (clashes_named_passes _ _ _ HT HC), (returns_blocks _ _ _ _ HB).
    eexists. reflexivity.
  - intros rows' ptsum' HB'.
    destruct (build_parts _ _ _ _ _ _ _ HB') as [_ [_ [HA' _]]].
    apply build_Some in HB'. destruct HB' as [-> [-> _]].
    split; [reflexivity|]. split; [now apply event_delta_rows|].
    exists (actions_of (l1 ++ e :: l2)), (actions_of (l1 ++ l2)).
    split; [exact HA|]. split; [exact HA'|]. now apply catches_for_delta.
  - now apply rostered_row.
  - now apply rostered_row.
  - intros m1 x m2 Hx. unfold catches_table.
    now rewrite completed_insert_miss.
Qed.

Lemma assisted_completion_counts_witness :
  let l1 := [Sample.pass 3 (Some "B") (Some "A") 0 0 2.5] in
  let e := Sample.pass 3 (Some "A") (Some "B") 0 1 10 in
  let l2 := [Sample.pass 1 (Some "A") None 1 0 4] in
  exists rows rows' ptsum,
    build_per_player_per_point Sample.players Sample.points (l1 ++ e :: l2)
      Sample.blocks Sample.possessions "G" = Some (rows, ptsum) /\
    build_per_player_per_point Sample.players Sample.points (l1 ++ l2)
      Sample.blocks Sample.possessions "G" = Some (rows', ptsum) /\
    Forall2 (event_delta "G" "A" "B" 3) rows rows'.
Proof.
  intros l1 e l2.
  destruct (assisted_completion_counts Sample.players Sample.points l1 e l2
              Sample.blocks Sample.possessions "G" "A" "B" 3 _ _ _
              eq_refl eq_refl eq_refl eq_refl eq_refl eq_refl
              (or_intror (or_introl eq_refl))
              (or_intror (or_intror (or_introl eq_refl)))
              eq_refl) as [H1 [H2 _]].
  destruct (H1 eq_refl eq_refl) as [rows' HB'].
  eexists. exists rows'. eexists. split; [reflexivity|].
  split; [exact HB'|]. exact (proj1 (proj2 (H2 _ _ HB'))).
Defined.

(** Without the event the build need not return: when the only other pass
    is a completed one without a receiver name, the catching side is left
    with a float64 [Player] column and the outer merge raises. *)
Example assisted_completion_removed_ex :
  let l1 := [Sample.pass 3 (Some "A") None 0 0 2.5] in
  let e := Sample.pass 3 (Some "A") (Some "B") 0 1 10 in
  build_per_player_per_point Sample.players Sample.points (l1 ++ [e])
    Sample.blocks Sample.possessions "G" <> None /\
  build_per_player_per_point Sample.players Sample.points l1
    Sample.blocks Sample.possessions "G" = None.
Proof. split; [discriminate | reflexivity]. Qed.

(** ** When the build returns, and what the fact table holds *)

Lemma covered_false roster df_points :
  covered roster df_points = false <->
  exists e, In e roster /\ ~ In (ro_Point e) (map pt_Point df_points).
Proof.
  split.
  - intros H. induction roster as [|e t IH]; [discriminate|].
    unfold covered in H. cbn [forallb] in H. apply andb_false_iff in H.
    destruct H as [H|H].
    + exists e. split; [now left|]. intros Hin.
      apply in_map_iff in Hin. destruct Hin as [p [E Hp]].
      assert (X : existsb (fun p => ro_Point e =? pt_Point p) df_points = true).
      { apply existsb_exists. exists p. split; [assumption|]. now apply Z.eqb_eq. }
      congruence.
    + destruct (IH H) as [x [Hx Hn]]. exists x. split; [now right | assumption].
  - intros [e [He Hn]]. destruct (covered roster df_points) eqn:C; [|reflexivity].
    exfalso. apply Hn. now apply (proj1 (covered_In roster df_points) C).
Qed.

(** A key column of a table with rows whose keys all lack a name. *)
Lemma key_column_missing {B : Type} (kr : B -> key) (f : B -> option string)
    (rows : list B) k0 :
  (forall b, f b = snd (kr b)) -> In k0 (map kr rows) ->
  (forall k, In k (map kr rows) -> snd k = None) ->
  all_missing (map f rows) = true.
Proof.
  intros Hf H0 Hk. apply all_missing_spec. split.
  - destruct rows; [contradiction | discriminate].
  - intros o Ho. apply in_map_iff in Ho. destruct Ho as [b [<- Hb]].
    rewrite Hf. apply Hk. now apply in_map.
Qed.

Lemma throws_column_missing df e :
  In e df -> (forall x, In x df -> pa_Thrower x = None) ->
  all_missing (map th_Player (throws_table df)) = true.
Proof.
  intros He H.
  apply (key_column_missing th_key th_Player _ (throw_key e)); [reflexivity | |].
  - apply throws_key_In. now apply in_map.
  - intros k Hk. apply throws_key_In in Hk. apply in_map_iff in Hk.
    destruct Hk as [x [<- Hx]]. now apply H.
Qed.

Lemma catches_column_missing df e :
  In e df -> pa_Turnover e = 0 ->
  (forall x, In x df -> pa_Turnover x = 0 -> pa_Receiver x = None) ->
  all_missing (map ca_Player (catches_table df)) = true.
Proof.
  intros He Ht H.
  apply (key_column_missing ca_key ca_Player _ (catch_key e)); [reflexivity | |].
  - apply catches_key_In. apply in_map. apply filter_In.
    split; [assumption | now apply Z.eqb_eq].
  - intros k Hk. apply catches_key_In in Hk. apply in_map_iff in Hk.
    destruct Hk as [x [<- Hx]]. apply filter_In in Hx. destruct Hx as [Hx Hc].
    apply Z.eqb_eq in Hc. now apply H.
Qed.

Lemma actions_column_missing df e :
  In e df -> (forall x, In x df -> pa_Thrower x = None) ->
  (forall x, In x df -> pa_Turnover x = 0 -> pa_Receiver x = None) ->
  all_missing (map ac_Player (actions_of df)) = true.
Proof.
  intros He HT HR.
  apply (key_column_missing ac_key ac_Player _ (throw_key e)); [reflexivity | |].
  - now apply thrown_covered.
  - intros k Hk. apply actions_key_In in Hk. destruct Hk as [Hk|Hk];
      apply group_nonempty in Hk; destruct Hk as [x [Hx <-]].
    + now apply HT.
    + apply filter_In in Hx. destruct Hx as [Hx Hc]. apply Z.eqb_eq in Hc.
      now apply HR.
Qed.

Lemma blocks_column_missing df b :
  In b df -> (forall x, In x df -> bl_Player x = None) ->
  all_missing (map ba_Player (_aggregate_blocks df)) = true.
Proof.
  intros Hb H.
  apply (key_column_missing ba_key ba_Player _ (block_key b)); [reflexivity | |].
  - apply blocks_key_In. now apply in_map.
  - intros k Hk. apply blocks_key_In in Hk. apply in_map_iff in Hk.
    destruct Hk as [x [<- Hx]]. now apply H.
Qed.

Lemma build_None df_player df_points df_passes df_blocks df_poss gid :
  returns df_player df_points df_passes df_blocks = false ->
  build_per_player_per_point df_player df_points df_passes df_blocks df_poss gid = None.
Proof. intros H. now rewrite build_eq, H. Qed.

Lemma returns_false_clash df_player df_points df_passes df_blocks :
  clashes df_player df_passes df_blocks = true ->
  returns df_player df_points df_passes df_blocks = false.
Proof.
  intros H. unfold returns. rewrite H. cbn [negb]. now rewrite andb_false_r.
Qed.

(** X1.  When the build raises.  It raises on a digit token that [int] does
    not convert; on a pass table in which no thrower has a name and a
    completed pass has a receiver name, or in which a thrower has a name, a
    pass is completed and no receiver has a name; and, with a roster entry,
    on a pass table or a block table that has rows and no player name at
    all.  When every row of the player table has a name, [int] converts
    every digit token and the pass and block tables name their players, it
    raises exactly when some row of the player table lists a point that has
    no row in the points table. *)
Theorem build_raises :
  forall df_player df_points df_passes df_blocks df_poss gid,
    ((exists row tok,
        In row df_player /\ In tok (Text.split ","%char (ps_Points_played row)) /\
        Text.isdigit (Text.strip tok) = true /\
        Text.int (Text.strip tok) = None) ->
     build_per_player_per_point df_player df_points df_passes df_blocks df_poss gid
       = None) /\
    ((forall e, In e df_passes -> pa_Thrower e = None) ->
     receivers_named df_passes = true ->
     build_per_player_per_point df_player df_points df_passes df_blocks df_poss gid
       = None) /\
    (throwers_named df_passes = true ->
     (exists e, In e df_passes /\ pa_Turnover e = 0) ->
     (forall e, In e df_passes -> pa_Receiver e = None) ->
     build_per_player_per_point df_player df_points df_passes df_blocks df_poss gid
       = None) /\
    (forall roster,
       _expand_roster_from_player_stats df_player = Some roster -> roster <> [] ->
       (df_passes <> [] /\
        (forall e, In e df_passes -> pa_Thrower e = None /\ pa_Receiver e = None)) \/
       (df_blocks <> [] /\ (forall b, In b df_blocks -> bl_Player b = None)) ->
       build_per_player_per_point df_player df_points df_passes df_blocks df_poss gid
         = None) /\
    ((forall row, In row df_player -> ps_Player row <> None) ->
     (forall row tok,
        In row df_player -> In tok (Text.split ","%char (ps_Points_played row)) ->
        Text.isdigit (Text.strip tok) = true ->
        Text.int (Text.strip tok) <> None) ->
     throwers_named df_passes = true -> receivers_named df_passes = true ->
     blockers_named df_blocks = true ->
     (build_per_player_per_point df_player df_points df_passes df_blocks df_poss gid
        = None <->
      exists row tok p,
        In row df_player /\
        In tok (Text.split ","%char (ps_Points_played row)) /\
        Text.isdigit (Text.strip tok) = true /\
        Text.int (Text.strip tok) = Some p /\
        ~ In p (map pt_Point df_points))).
Proof.
  intros df_player df_points df_passes df_blocks df_poss gid.
  split; [|split; [|split; [|split]]].
  - intros [row [tok [Hrow [Htok [Hd Hn]]]]]. apply build_None.
    unfold returns. destruct (readable df_player) eqn:R; [|reflexivity].
    apply TextFacts.int_None in Hn.
    rewrite (proj1 (readable_spec df_player) R row tok Hrow Htok Hd) in Hn.
    discriminate.
  - intros HT HR. apply build_None, returns_false_clash.
    pose proof (receivers_named_column df_passes HR) as C.
    apply existsb_exists in HR. destruct HR as [e [He _]].
    unfold clashes, keys_clash.
    now rewrite (throws_column_missing df_passes e He HT), C.
  - intros HT [e [He Hc]] HR. apply build_None, returns_false_clash.
    unfold clashes, keys_clash.
    rewrite (throwers_named_column df_passes HT).
    rewrite (catches_column_missing df_passes e He Hc) by (intros x Hx _; now apply HR).
    cbn [andb orb]. now rewrite orb_true_r.
  - intros roster HR Hne H. apply expand_roster_Some in HR. destruct HR as [_ ->].
    apply build_None, returns_false_clash. unfold clashes.
    rewrite !keys_clash_names.
    destruct (roster_of df_player) as [|x t]; [congruence|].
    destruct H as [[Hp H]|[Hb H]].
    + destruct df_passes as [|e u]; [congruence|].
      rewrite (actions_column_missing (e :: u) e (or_introl eq_refl))
        by (intros y Hy; try intros _; now apply H).
      now rewrite orb_true_r.
    + destruct df_blocks as [|b u]; [congruence|].
      rewrite (blocks_column_missing (b :: u) b (or_introl eq_refl) H).
      now rewrite orb_true_r.
  - intros Hname Hint HT HR HB.
    assert (Hdec : forall row tok,
              In row df_player ->
              In tok (Text.split ","%char (ps_Points_played row)) ->
              Text.isdigit (Text.strip tok) = true ->
              Text.int_ok (Text.strip tok) = true).
    { intros row tok Hrow Htok Hd. specialize (Hint row tok Hrow Htok Hd).
      destruct (Text.int_ok (Text.strip tok)) eqn:E; [reflexivity|].
      now apply TextFacts.int_None in E. }
    pose proof (proj2 (readable_spec df_player) Hdec) as R.
    rewrite build_eq. unfold returns.
    rewrite R, (named_no_clash df_player df_passes df_blocks HT HR HB).
    cbn [negb andb].
    destruct (covered (roster_of df_player) df_points) eqn:C.
    + split; [discriminate|]. intros [row [tok [p [Hrow [Htok [Hd [Hi Hp]]]]]]].
      exfalso. apply Hp.
      destruct (ps_Player row) as [name|] eqn:P;
        [|exfalso; exact (Hname row Hrow P)].
      apply TextFacts.int_isdecimal in Hi. destruct Hi as [_ ->].
      apply (proj1 (covered_In _ _) C {| ro_Player := name;
               ro_Point := Text.int_acc 0 (Text.strip tok) |}).
      apply roster_of_In. exists row, tok. auto.
    + split; [|reflexivity]. intros _.
      apply covered_false in C. destruct C as [[name q] [He Hq]].
      apply roster_of_In in He. destruct He as [row [tok [Hrow [P [Htok [Hd Hi]]]]]].
      exists row, tok, q. split; [assumption|].
      split; [assumption|]. split; [assumption|]. split; [|exact Hq].
      rewrite TextFacts.int_Some by now apply (Hdec row tok). now rewrite Hi.
Qed.

(** Three tables on which the build raises: a cell with a superscript two, a
    single completed pass without a receiver name, and a single block
    without a player name. *)
Lemma build_raises_witness :
  build_per_player_per_point
    [ {| ps_Player := Some "A"; ps_Points_played := String (ascii_of_nat 178) "" |} ]
    Sample.points Sample.passes Sample.blocks Sample.possessions "G" = None /\
  build_per_player_per_point Sample.players Sample.points
    [ Sample.pass 3 (Some "A") None 0 0 5 ] Sample.blocks Sample.possessions "G"
    = None /\
  build_per_player_per_point Sample.players Sample.points Sample.passes
    [ {| bl_Point := 1; bl_Player := None |} ] Sample.possessions "G" = None.
Proof.
  split; [|split].
  - apply (proj1 (build_raises _ Sample.points Sample.passes Sample.blocks
                    Sample.possessions "G")).
    eexists. eexists. split; [left; reflexivity|].
    split; [left; reflexivity|]. split; reflexivity.
  - apply (proj1 (proj2 (proj2 (build_raises Sample.players Sample.points _
                    Sample.blocks Sample.possessions "G")))).
    + reflexivity.
    + eexists. split; [left; reflexivity | reflexivity].
    + intros e [<-|[]]. reflexivity.
  - apply (proj1 (proj2 (proj2 (proj2 (build_raises Sample.players Sample.points
                    Sample.passes _ Sample.possessions "G"))))
             _ eq_refl).
    + discriminate.
    + right. split; [discriminate|]. intros b [<-|[]]. reflexivity.
Defined.

Lemma count_if_flat_map {A B : Type} (f : B -> bool) (g : A -> list B) (l : list A) :
  count_if f (flat_map g l) = zsum (map (fun a => count_if f (g a)) l).
Proof.
  induction l as [|a t IH]; cbn [flat_map map zsum fold_right]; [reflexivity|].
  rewrite filter_app_len. fold (zsum (map (fun a => count_if f (g a)) t)).
  now rewrite IH.
Qed.

Lemma count_if_const {A : Type} (b : bool) (l : list A) :
  count_if (fun _ => b) l = if b then len l else 0.
Proof.
  unfold count_if, len. destruct b.
  - f_equal. f_equal. induction l as [|a t IH]; simpl; [reflexivity | now rewrite IH].
  - f_equal. induction l as [|a t IH]; simpl; [reflexivity | exact IH].
Qed.

Lemma count_if_map {A B : Type} (f : B -> bool) (g : A -> B) (l : list A) :
  count_if f (map g l) = count_if (fun a => f (g a)) l.
Proof.
  unfold count_if, len. f_equal.
  induction l as [|a t IH]; simpl; [reflexivity|].
  destruct (f (g a)); simpl; now rewrite IH.
Qed.

Lemma matches_len df_passes df_blocks df_poss df_points e :
  len (matches Z.eqb pp_Point Point (pp_of df_passes df_blocks e)
         (map (ctx_of df_poss) df_points)) =
  count_if (fun p => pt_Point p =? ro_Point e) df_points.
Proof.
  unfold matches, count_if, len. f_equal. rewrite pp_of_Point.
  induction df_points as [|p t IH]; simpl; [reflexivity|].
  rewrite (Z.eqb_sym (ro_Point e)).
  destruct (pt_Point p =? ro_Point e); simpl; now rewrite IH.
Qed.

Lemma zsum_scale {A : Type} (f : A -> bool) (c : Z) (l : list A) :
  zsum (map (fun a => if f a then c else 0) l) = count_if f l * c.
Proof.
  unfold count_if, len. induction l as [|a t IH]; simpl; [reflexivity|].
  fold (zsum (map (fun a => if f a then c else 0) t)). rewrite IH.
  destruct (f a); cbn [List.length]; lia.
Qed.

Lemma count_if_ext_row gid name pt df_passes df_blocks e (l : list Ctx) :
  count_if (fun c => is_row gid name pt (make_row gid (pp_of df_passes df_blocks e) c)) l =
  count_if (fun _ => is_entry name pt e) l.
Proof.
  unfold count_if. f_equal. apply filter_ext. intros c. apply is_row_make.
Qed.

(** X2.  In a returned fact table, the number of rows of a player on a point
    is the number of times the roster lists the player on the point, times
    the number of rows the points table has for the point: a point number
    repeated in the points table repeats the player rows. *)
Theorem fact_row_multiplicity :
  forall df_player df_points df_passes df_blocks df_poss gid rows ptsum name pt,
    build_per_player_per_point df_player df_points df_passes df_blocks df_poss gid =
      Some (rows, ptsum) ->
    exists roster,
      _expand_roster_from_player_stats df_player = Some roster /\
      count_if (is_row gid name pt) rows =
      count_if (is_entry name pt) roster *
      count_if (fun p => pt_Point p =? pt) df_points.
Proof.
  intros df_player df_points df_passes df_blocks df_poss gid rows ptsum name pt HB.
  exists (roster_of df_player).
  split; [now destruct (build_parts _ _ _ _ _ _ _ HB) as [_ [? _]]|].
  returned HB. unfold rows_of.
  rewrite count_if_flat_map, map_map.
  rewrite <- zsum_scale. f_equal. apply map_ext. intros e.
  rewrite count_if_map.
  rewrite (count_if_ext_row gid name pt df_passes df_blocks e).
  rewrite count_if_const, matches_len.
  unfold is_entry. destruct (String.eqb (ro_Player e) name); simpl; [|reflexivity].
  destruct (ro_Point e =? pt) eqn:E; [|reflexivity].
  apply Z.eqb_eq in E. now rewrite E.
Qed.

Lemma fact_row_multiplicity_witness :
  exists roster,
    _expand_roster_from_player_stats Sample.players = Some roster /\
    count_if (is_row "G" "A" 3)
      (rows_of "G" (map (pp_of Sample.passes Sample.blocks)
                      (roster_of Sample.players))
         (map (ctx_of Sample.possessions)
              (Sample.points ++ [Sample.point 3 1 0]))) =
    count_if (is_entry "A" 3) roster *
    count_if (fun p => pt_Point p =? 3) (Sample.points ++ [Sample.point 3 1 0]).
Proof.
  apply (fact_row_multiplicity Sample.players (Sample.points ++ [Sample.point 3 1 0])
           Sample.passes Sample.blocks Sample.possessions "G" _
           (map (ptsum_row "G")
              (_build_point_context_with_possessions
                 (Sample.points ++ [Sample.point 3 1 0]) Sample.possessions))).
  reflexivity.
Defined.

Lemma rows_in_order gid df_passes df_blocks df_poss df_points roster :
  NoDup (map pt_Point df_points) ->
  (forall e, In e roster -> In (ro_Point e) (map pt_Point df_points)) ->
  map (fun r => (player r, point_uid r))
    (rows_of gid (map (pp_of df_passes df_blocks) roster)
       (map (ctx_of df_poss) df_points)) =
  map (fun e => (ro_Player e, make_point_uid gid (ro_Point e))) roster.
Proof.
  intros ND. unfold rows_of.
  induction roster as [|e t IH]; intros Hc; [reflexivity|].
  cbn [map flat_map]. rewrite map_app, IH by (intros x Hx; apply Hc; now right).
  destruct (matches_one df_passes df_blocks df_poss df_points e ND) as [c ->];
    [apply Hc; now left|].
  reflexivity.
Qed.

(** X3.  With distinct point numbers in the points table, a returned fact
    table has exactly one row per roster entry, in roster order: the players
    in the order of the player table, each with the points in the order of
    the tokens. *)
Theorem fact_rows_in_roster_order :
  forall df_player df_points df_passes df_blocks df_poss gid rows ptsum,
    NoDup (map pt_Point df_points) ->
    build_per_player_per_point df_player df_points df_passes df_blocks df_poss gid =
      Some (rows, ptsum) ->
    exists roster,
      _expand_roster_from_player_stats df_player = Some roster /\
      map (fun r => (player r, point_uid r)) rows =
      map (fun e => (ro_Player e, make_point_uid gid (ro_Point e))) roster.
Proof.
  intros df_player df_points df_passes df_blocks df_poss gid rows ptsum ND HB.
  exists (roster_of df_player).
  destruct (build_parts _ _ _ _ _ _ _ HB) as [_ [HR [_ C]]].
  split; [exact HR|].
  apply build_Some in HB. destruct HB as [-> _].
  apply rows_in_order; [assumption | now apply covered_In].
Qed.

Lemma fact_rows_in_roster_order_witness :
  exists roster,
    _expand_roster_from_player_stats Sample.players = Some roster /\
    map (fun r => (player r, point_uid r))
      (rows_of "G" (map (pp_of Sample.passes Sample.blocks)
                      (roster_of Sample.players))
         (map (ctx_of Sample.possessions) Sample.points)) =
    map (fun e => (ro_Player e, make_point_uid "G" (ro_Point e))) roster.
Proof.
  apply (fact_rows_in_roster_order Sample.players Sample.points Sample.passes
           Sample.blocks Sample.possessions "G" _
           (map (ptsum_row "G")
              (_build_point_context_with_possessions Sample.points Sample.possessions))).
  - simpl. repeat constructor; simpl; intuition discriminate.
  - reflexivity.
Defined.

Example fact_rows_in_roster_order_ex :
  option_map (fun t => map (fun r => (player r, point_uid r)) (fst t))
    (build_per_player_per_point Sample.players Sample.points Sample.passes
       Sample.blocks Sample.possessions "G") =
  Some [("A", "G_P01"); ("A", "G_P03"); ("B", "G_P03")].
Proof. reflexivity. Qed.

Lemma wrap64_small z : - 2 ^ 63 <= z < 2 ^ 63 -> wrap64 z = z.
Proof.
  intros H. unfold wrap64. rewrite Z.mod_small; lia.
Qed.

Lemma wrap64_range z : - 2 ^ 63 <= wrap64 z < 2 ^ 63.
Proof.
  unfold wrap64. pose proof (Z.mod_pos_bound (z + 2 ^ 63) (2 ^ 64)). lia.
Qed.

(** X4.  Every row of a returned fact table carries the context of its point:
    the summary table has a row with the same [point_uid] whose team line,
    result, possession count and five tags are those of the fact row.  The
    fact row's [score_diff_start] is the difference of that row's two scores
    taken in int64: it wraps, and is the plain difference whenever that lies
    in the int64 range. *)
Theorem fact_row_carries_point_context :
  forall df_player df_points df_passes df_blocks df_poss gid rows ptsum r,
    build_per_player_per_point df_player df_points df_passes df_blocks df_poss gid =
      Some (rows, ptsum) ->
    In r rows ->
    exists s,
      In s ptsum /\ su_point_uid s = point_uid r /\ su_game_id s = game_id r /\
      r_team_line r = team_line (su_ctx s) /\
      r_point_result r = point_result (su_ctx s) /\
      score_diff_start r =
        wrap64 (our_score_start (su_ctx s) - opp_score_start (su_ctx s)) /\
      (- 2 ^ 63 <= our_score_start (su_ctx s) - opp_score_start (su_ctx s) < 2 ^ 63 ->
       score_diff_start r = our_score_start (su_ctx s) - opp_score_start (su_ctx s)) /\
      r_num_possessions r = num_possessions (su_ctx s) /\
      r_clean_hold r = clean_hold (su_ctx s) /\ r_hold r = hold (su_ctx s) /\
      r_broken r = broken (su_ctx s) /\ r_break_scored r = break_scored (su_ctx s) /\
      r_break_chance r = break_chance (su_ctx s).
Proof.
  intros df_player df_points df_passes df_blocks df_poss gid rows ptsum r HB Hr.
  destruct (build_rows_In _ _ _ _ _ _ _ _ _ HB Hr) as [e [c [He [Hc [Hk ->]]]]].
  returned HB. exists (ptsum_row gid c).
  split; [now apply in_map|].
  split; [simpl; now rewrite Hk|].
  repeat split; try reflexivity.
  intros H. simpl. now apply wrap64_small.
Qed.

Lemma fact_row_carries_point_context_witness :
  exists s,
    In s (map (ptsum_row "G")
            (_build_point_context_with_possessions Sample.points Sample.possessions)) /\
    su_point_uid s = "G_P03" /\ su_game_id s = "G" /\
    Some "O" = team_line (su_ctx s) /\ 1 = point_result (su_ctx s) /\
    0 = wrap64 (our_score_start (su_ctx s) - opp_score_start (su_ctx s)) /\
    (- 2 ^ 63 <= our_score_start (su_ctx s) - opp_score_start (su_ctx s) < 2 ^ 63 ->
     0 = our_score_start (su_ctx s) - opp_score_start (su_ctx s)) /\
    1 = num_possessions (su_ctx s) /\ 1 = clean_hold (su_ctx s) /\
    1 = hold (su_ctx s) /\ 0 = broken (su_ctx s) /\ 0 = break_scored (su_ctx s) /\
    0 = break_chance (su_ctx s).
Proof.
  refine (fact_row_carries_point_context Sample.players Sample.points Sample.passes
            Sample.blocks Sample.possessions "G" _ _
            (make_row "G" (pp_of Sample.passes Sample.blocks
                             {| ro_Player := "B"; ro_Point := 3 |})
                      (ctx_of Sample.possessions (Sample.point 3 1 1)))
            eq_refl _).
  right. right. left. reflexivity.
Defined.

Example score_diff_wraps :
  score_diff_start
    (make_row "G" (pp_of [] [] {| ro_Player := "A"; ro_Point := 1 |})
       (ctx_of [] {| pt_Point := 1; pt_Started_on_offense := 1; pt_Scored := 0;
                     pt_Our_score_at_pull := 2 ^ 63 - 1;
                     pt_Opp_score_at_pull := -1; pt_Possessions := 0;
                     pt_Passes := 0; pt_Turnovers := 0;
                     pt_Defensive_blocks := 0 |})) = - 2 ^ 63.
Proof. reflexivity. Qed.

Lemma fillna0_idem x : fillna0 (fillna0 x) = fillna0 x.
Proof.
  unfold fillna0. destruct (is_nan x) eqn:E; [reflexivity | now rewrite E].
Qed.

Lemma action_sums df k :
  let a := lookup key_eqb ac_key k (actions_of df) in
  opt_z ac_secondary_assists a = zsum (map pa_Secondary_assist (thrown df k)) /\
  opt_z ac_hucks a = zsum (map pa_Huck (thrown df k)) /\
  opt_z ac_swings a = zsum (map pa_Swing (thrown df k)) /\
  opt_z ac_dumps a = zsum (map pa_Dump (thrown df k)) /\
  opt_f ac_throw_yards a = fillna0 (fsum (map pa_Forward_distance (thrown df k))) /\
  opt_f ac_received_yards a = fillna0 (fsum (map pa_Forward_distance (caught df k))).
Proof.
  cbv zeta. rewrite lookup_actions.
  destruct (thrown df k), (caught df k); repeat split;
    try reflexivity; cbn; now rewrite fillna0_idem.
Qed.

(** X5.  The statistics of a fact row are counts over the raw events of the
    row's player on the row's point: [throws] the passes thrown,
    [completions] and [turnovers] those with [Turnover?] 0 and 1, [assists],
    [secondary_assists], [hucks], [swings] and [dumps] the sums of the flags
    over the passes thrown, [goals] the completed passes received that are
    flagged as assists, [blocks] the block events, and [yards_gain_m] the
    sum, rounded to two decimals, of the distance thrown and the distance
    received, each of them the compensated sum [fsum] over its events with
    NaN read as 0. *)
Theorem fact_row_statistics :
  forall df_player df_points df_passes df_blocks df_poss gid rows ptsum r,
    build_per_player_per_point df_player df_points df_passes df_blocks df_poss gid =
      Some (rows, ptsum) ->
    In r rows ->
    exists pt,
      point_uid r = make_point_uid gid pt /\
      let k := (pt, Some (player r)) in
      throws r = len (thrown df_passes k) /\
      completions r = count_if (fun e => pa_Turnover e =? 0) (thrown df_passes k) /\
      turnovers r = count_if (fun e => pa_Turnover e =? 1) (thrown df_passes k) /\
      assists r = zsum (map pa_Assist (thrown df_passes k)) /\
      secondary_assists r = zsum (map pa_Secondary_assist (thrown df_passes k)) /\
      hucks r = zsum (map pa_Huck (thrown df_passes k)) /\
      swings r = zsum (map pa_Swing (thrown df_passes k)) /\
      dumps r = zsum (map pa_Dump (thrown df_passes k)) /\
      goals r = count_if (fun e => pa_Assist e =? 1) (caught df_passes k) /\
      blocks r = len (group key_eqb block_key df_blocks k) /\
      yards_gain_m r =
        round2 (fillna0 (fsum (map pa_Forward_distance (thrown df_passes k))) +
                fillna0 (fsum (map pa_Forward_distance (caught df_passes k))))%float /\
      pulls r = 0.
Proof.
  intros df_player df_points df_passes df_blocks df_poss gid rows ptsum r HB Hr.
  destruct (build_rows_In _ _ _ _ _ _ _ _ _ HB Hr) as [e [c [He [Hc [Hk ->]]]]].
  exists (ro_Point e). split; [reflexivity|]. cbv zeta.
  cbn [player make_row pp_of fill_pp pp_Player fst snd throws completions turnovers
       assists secondary_assists hucks swings dumps goals blocks yards_gain_m pulls
       pp_throws pp_completions pp_turnovers pp_assists pp_secondary_assists
       pp_hucks pp_swings pp_dumps pp_goals pp_blocks pp_throw_yards
       pp_received_yards].
  unfold ro_key.
  destruct (action_stats df_passes (ro_Point e, Some (ro_Player e)))
    as [S1 [S2 [S3 [S4 [_ S6]]]]].
  destruct (action_sums df_passes (ro_Point e, Some (ro_Player e)))
    as [T1 [T2 [T3 [T4 [T5 T6]]]]].
  rewrite S1, S2, S3, S4, S6, T1, T2, T3, T4, T5, T6, thrown_named, lookup_blocks.
  repeat split; try reflexivity.
  now destruct (group key_eqb block_key df_blocks (ro_Point e, Some (ro_Player e))).
Qed.

Lemma fact_row_statistics_witness :
  exists pt,
    "G_P01" = make_point_uid "G" pt /\
    let k := (pt, Some "A") in
    1 = len (thrown Sample.passes k) /\
    0 = count_if (fun e => pa_Turnover e =? 0) (thrown Sample.passes k) /\
    1 = count_if (fun e => pa_Turnover e =? 1) (thrown Sample.passes k) /\
    0 = zsum (map pa_Assist (thrown Sample.passes k)) /\
    0 = zsum (map pa_Secondary_assist (thrown Sample.passes k)) /\
    0 = zsum (map pa_Huck (thrown Sample.passes k)) /\
    0 = zsum (map pa_Swing (thrown Sample.passes k)) /\
    0 = zsum (map pa_Dump (thrown Sample.passes k)) /\
    0 = count_if (fun e => pa_Assist e =? 1) (caught Sample.passes k) /\
    1 = len (group key_eqb block_key Sample.blocks k) /\
    4%float =
      round2 (fillna0 (fsum (map pa_Forward_distance (thrown Sample.passes k))) +
              fillna0 (fsum (map pa_Forward_distance (caught Sample.passes k))))%float /\
    0 = 0.
Proof.
  refine (fact_row_statistics Sample.players Sample.points Sample.passes
            Sample.blocks Sample.possessions "G" _ _
            (make_row "G" (pp_of Sample.passes Sample.blocks
                             {| ro_Player := "A"; ro_Point := 1 |})
                      (ctx_of Sample.possessions (Sample.point 1 0 1)))
            eq_refl _).
  left. reflexivity.
Defined.

(** X6.  When no cell of the player table holds a digit token, or the table
    is empty, and the pass table names a thrower and the receiver of a
    completed pass, the build returns an empty fact table together with the
    full point summary, one row per row of the points table -- whatever the
    block table holds. *)
Theorem build_without_roster :
  forall df_player df_points df_passes df_blocks df_poss gid,
    (forall row, In row df_player -> digit_tokens (ps_Points_played row) = []) ->
    throwers_named df_passes = true -> receivers_named df_passes = true ->
    build_per_player_per_point df_player df_points df_passes df_blocks df_poss gid =
    Some ([], map (ptsum_row gid)
                (_build_point_context_with_possessions df_points df_poss)) /\
    List.length (_build_point_context_with_possessions df_points df_poss) =
    List.length df_points.
Proof.
  intros df_player df_points df_passes df_blocks df_poss gid H HT HR.
  assert (R : roster_of df_player = []).
  { unfold roster_of, points_of.
    induction df_player as [|row t IH]; [reflexivity|].
    cbn [flat_map]. rewrite (H row) by now left.
    apply IH. intros x Hx. apply H. now right. }
  assert (D : readable df_player = true).
  { unfold readable. apply forallb_forall. intros row Hrow.
    now rewrite (H row Hrow). }
  rewrite build_eq. unfold returns.
  rewrite D, (clashes_named_passes _ _ _ HT HR), R, ctx_map, length_map.
  split; reflexivity.
Qed.

Lemma build_without_roster_witness :
  build_per_player_per_point
    [ {| ps_Player := Some "C"; ps_Points_played := "" |};
      {| ps_Player := Some "D"; ps_Points_played := "nan" |} ]
    Sample.points Sample.passes [ {| bl_Point := 1; bl_Player := None |} ]
    Sample.possessions "G" =
  Some ([], map (ptsum_row "G")
              (_build_point_context_with_possessions Sample.points Sample.possessions)) /\
  List.length (_build_point_context_with_possessions Sample.points Sample.possessions) =
  List.length Sample.points.
Proof.
  apply build_without_roster; try reflexivity.
  intros row [<-|[<-|[]]]; reflexivity.
Defined.

(** ** More on the pass and block aggregators *)

(** X7.  The pass aggregator returns one row per (point, player): keys are
    pairwise distinct, and a key has a row exactly when some pass was thrown
    under it or some completed pass was caught under it.  The intended
    receiver of a turnover gets no row from that pass. *)
Theorem pass_aggregates_keys :
  forall df_passes actions,
    _aggregate_passes df_passes = Some actions ->
    NoDup (map ac_key actions) /\
    forall k,
      In k (map ac_key actions) <->
      (exists e, In e df_passes /\ throw_key e = k) \/
      (exists e, In e df_passes /\ pa_Turnover e = 0 /\ catch_key e = k).
Proof.
  intros df actions HA. apply aggregate_passes_Some in HA. subst actions.
  split; [apply actions_keys|]. intros k.
  rewrite actions_key_In. unfold thrown, caught. rewrite !group_nonempty.
  split; (intros [H|[e [He Hk]]]; [now left | right]).
  - apply filter_In in He. destruct He as [He Ht]. apply Z.eqb_eq in Ht.
    exists e. auto.
  - destruct Hk as [Ht Hk]. exists e. split; [|assumption].
    apply filter_In. split; [assumption | now apply Z.eqb_eq].
Qed.

Lemma pass_aggregates_keys_witness :
  exists actions,
    _aggregate_passes Sample.passes = Some actions /\
    NoDup (map ac_key actions) /\
    (In (3, Some "B") (map ac_key actions) <->
     (exists e, In e Sample.passes /\ throw_key e = (3, Some "B")) \/
     (exists e, In e Sample.passes /\ pa_Turnover e = 0 /\
                catch_key e = (3, Some "B"))).
Proof.
  exists (actions_of Sample.passes). split; [reflexivity|].
  destruct (pass_aggregates_keys Sample.passes (actions_of Sample.passes) eq_refl)
    as [H1 H2].
  split; [exact H1 | apply H2].
Defined.

(** X8.  A row that comes from the catching side only has every throwing
    column 0, and a row that comes from the throwing side only has every
    catching column 0: the outer merge never leaves a hole. *)
Theorem pass_aggregates_one_sided :
  forall df_passes actions a,
    _aggregate_passes df_passes = Some actions ->
    In a actions ->
    (thrown df_passes (ac_key a) = [] ->
       ac_throws a = 0 /\ ac_completions a = 0 /\ ac_turnovers a = 0 /\
       ac_assists a = 0 /\ ac_secondary_assists a = 0 /\ ac_hucks a = 0 /\
       ac_swings a = 0 /\ ac_dumps a = 0 /\ ac_throw_yards a = 0%float) /\
    (caught df_passes (ac_key a) = [] ->
       ac_catches a = 0 /\ ac_goals a = 0 /\ ac_received_yards a = 0%float).
Proof.
  intros df actions a HA Ha. apply aggregate_passes_Some in HA. subst actions.
  pose proof (lookup_In ac_key _ a (actions_keys df) Ha) as L.
  rewrite lookup_actions in L.
  split; intros E; rewrite E in L.
  - destruct (caught df (ac_key a)); [discriminate|].
    inversion L. repeat split; reflexivity.
  - destruct (thrown df (ac_key a)); [discriminate|].
    inversion L. repeat split; reflexivity.
Qed.

Lemma pass_aggregates_one_sided_witness :
  let a := {| ac_Point := 1; ac_Player := Some "B"; ac_throws := 0;
              ac_completions := 0; ac_turnovers := 0; ac_assists := 0;
              ac_secondary_assists := 0; ac_hucks := 0; ac_swings := 0;
              ac_dumps := 0; ac_throw_yards := 0; ac_catches := 1;
              ac_received_yards := 5; ac_goals := 1 |} in
  (thrown [Sample.pass 1 (Some "A") (Some "B") 0 1 5] (ac_key a) = [] ->
     ac_throws a = 0 /\ ac_completions a = 0 /\ ac_turnovers a = 0 /\
     ac_assists a = 0 /\ ac_secondary_assists a = 0 /\ ac_hucks a = 0 /\
     ac_swings a = 0 /\ ac_dumps a = 0 /\ ac_throw_yards a = 0%float) /\
  (caught [Sample.pass 1 (Some "A") (Some "B") 0 1 5] (ac_key a) = [] ->
     ac_catches a = 0 /\ ac_goals a = 0 /\ ac_received_yards a = 0%float).
Proof.
  apply (pass_aggregates_one_sided [Sample.pass 1 (Some "A") (Some "B") 0 1 5]
           (actions_of [Sample.pass 1 (Some "A") (Some "B") 0 1 5])).
  - reflexivity.
  - right. left. reflexivity.
Defined.

Lemma count_if_le {A : Type} (f : A -> bool) (l : list A) :
  0 <= count_if f l <= len l.
Proof.
  unfold count_if, len. pose proof (filter_length_le f l). lia.
Qed.

Lemma count_if_disjoint {A : Type} (f g : A -> bool) (l : list A) :
  (forall x, f x = true -> g x = false) ->
  count_if f l + count_if g l <= len l.
Proof.
  unfold count_if, len. intros H. rewrite <- Nat2Z.inj_add. apply inj_le.
  induction l as [|x t IH]; simpl; [lia|].
  destruct (f x) eqn:F; [rewrite (H x F)|destruct (g x)]; simpl; lia.
Qed.

(** X9.  Whatever the [Turnover?] and [Assist?] values are, a row of the pass
    aggregator that carries a player name has non-negative counts, no more
    completions and turnovers together than throws, and no more goals than
    catches. *)
Theorem pass_aggregates_bounds :
  forall df_passes actions a,
    _aggregate_passes df_passes = Some actions ->
    In a actions ->
    ac_Player a <> None ->
    0 <= ac_completions a /\ 0 <= ac_turnovers a /\
    ac_completions a + ac_turnovers a <= ac_throws a /\
    0 <= ac_goals a <= ac_catches a.
Proof.
  intros df actions a HA Ha Hn. apply aggregate_passes_Some in HA. subst actions.
  pose proof (lookup_In ac_key _ a (actions_keys df) Ha) as L.
  destruct (action_stats df (ac_key a)) as [S1 [S2 [S3 [_ [S5 S6]]]]].
  rewrite L in S1, S2, S3, S5, S6. simpl in S1, S2, S3, S5, S6.
  rewrite S1, S2, S3, S5, S6.
  destruct (ac_Player a) as [name|] eqn:P; [|congruence].
  unfold ac_key. rewrite P, thrown_named, caught_named.
  split; [apply count_if_le|]. split; [apply count_if_le|].
  split; [|apply count_if_le].
  apply count_if_disjoint. intros e E. apply Z.eqb_eq in E. now rewrite E.
Qed.

Lemma pass_aggregates_bounds_witness :
  exists actions a,
    _aggregate_passes [Sample.pass 1 (Some "A") (Some "B") 2 3 5] = Some actions /\
    In a actions /\
    0 <= ac_completions a /\ 0 <= ac_turnovers a /\
    ac_completions a + ac_turnovers a <= ac_throws a /\
    0 <= ac_goals a <= ac_catches a.
Proof.
  exists (actions_of [Sample.pass 1 (Some "A") (Some "B") 2 3 5]). eexists.
  split; [reflexivity|]. split; [left; reflexivity|].
  apply (pass_aggregates_bounds [Sample.pass 1 (Some "A") (Some "B") 2 3 5]
           (actions_of [Sample.pass 1 (Some "A") (Some "B") 2 3 5])).
  - reflexivity.
  - left. reflexivity.
  - discriminate.
Defined.

Section Totals.

Context {A : Type} (kf : A -> key) (m : A -> Z).

Lemma zsum_app (l1 l2 : list Z) : zsum (l1 ++ l2) = zsum l1 + zsum l2.
Proof. induction l1 as [|x t IH]; simpl; [reflexivity | rewrite IH; lia]. Qed.

Lemma zsum_map_add {B : Type} (f g : B -> Z) (l : list B) :
  zsum (map (fun x => f x + g x) l) = zsum (map f l) + zsum (map g l).
Proof. induction l as [|x t IH]; simpl; [reflexivity | rewrite IH; lia]. Qed.

Lemma count_key_NoDup (ks : list key) k :
  NoDup ks -> In k ks -> count_if (key_eqb k) ks = 1.
Proof.
  unfold count_if, len. induction ks as [|x t IH]; simpl; intros ND H; [contradiction|].
  inversion ND as [|? ? Hn ND']; subst.
  destruct (key_eqb k x) eqn:E.
  - apply key_eqb_spec in E. subst x. simpl.
    assert (F : filter (key_eqb k) t = []).
    { destruct (filter (key_eqb k) t) as [|y u] eqn:F; [reflexivity|].
      assert (Hy : In y (filter (key_eqb k) t)) by (rewrite F; now left).
      apply filter_In in Hy. destruct Hy as [Hy Ey]. apply key_eqb_spec in Ey.
      subst y. contradiction. }
    now rewrite F.
  - destruct H as [->|H]; [|auto].
    now rewrite (eqb_refl key_eqb key_eqb_spec) in E.
Qed.

(** Summing a measure group by group over distinct keys that cover the rows
    gives the sum over the rows. *)
Lemma zsum_groups (rows : list A) (ks : list key) :
  NoDup ks -> (forall r, In r rows -> In (kf r) ks) ->
  zsum (map (fun k => zsum (map m (group key_eqb kf rows k))) ks) =
  zsum (map m rows).
Proof.
  intros ND. induction rows as [|r t IH]; intros Hc.
  - unfold group. simpl. induction ks as [|k u IHu]; simpl; [reflexivity|].
    inversion ND; subst. now rewrite IHu.
  - transitivity
      (zsum (map (fun k => (if key_eqb (kf r) k then m r else 0) +
                           zsum (map m (group key_eqb kf t k))) ks)).
    + f_equal. apply map_ext. intros k. unfold group. cbn [filter].
      destruct (key_eqb (kf r) k); reflexivity.
    + rewrite zsum_map_add, zsum_scale, IH by (intros x Hx; apply Hc; now right).
      rewrite (count_key_NoDup ks (kf r) ND) by (apply Hc; now left).
      cbn [map]. unfold zsum. cbn [fold_right]. lia.
Qed.

End Totals.

Lemma count_if_zsum {A : Type} (f : A -> bool) (l : list A) :
  count_if f l = zsum (map (fun x => b2z (f x)) l).
Proof.
  unfold count_if, len. induction l as [|x t IH]; simpl; [reflexivity|].
  fold (zsum (map (fun x => b2z (f x)) t)). rewrite <- IH.
  destruct (f x); cbn [List.length b2z]; lia.
Qed.

Lemma column_total df (col : ActionRow -> Z) (key : PassEvent -> key)
    (rows : list PassEvent) (m : PassEvent -> Z) :
  (forall k, opt_z col (lookup key_eqb ac_key k (actions_of df)) =
             zsum (map m (group key_eqb key rows k))) ->
  (forall e, In e rows -> In (key e) (map ac_key (actions_of df))) ->
  zsum (map col (actions_of df)) = zsum (map m rows).
Proof.
  intros Hcol Hcov.
  rewrite <- (zsum_groups key m rows (map ac_key (actions_of df)))
    by (apply actions_keys || assumption).
  rewrite map_map. f_equal. apply map_ext_in. intros a Ha.
  rewrite <- Hcol, (lookup_In ac_key _ a (actions_keys df) Ha). reflexivity.
Qed.

Lemma count_notna_zsum {A : Type} (f : A -> option string) (l : list A) :
  count_notna (map f l) = zsum (map (fun e => b2z (named (f e))) l).
Proof.
  unfold count_notna. rewrite count_if_map. apply count_if_zsum.
Qed.

Lemma count_if_filter {A : Type} (f g : A -> bool) (l : list A) :
  count_if f (filter g l) = count_if (fun x => g x && f x) l.
Proof.
  unfold count_if, len. f_equal.
  induction l as [|x t IH]; simpl; [reflexivity|].
  destruct (g x); simpl; [destruct (f x); simpl|]; now rewrite IH.
Qed.

(** X10.  Nothing is lost or counted twice by the grouping and the outer
    merge.  Over all rows of the pass aggregator, [throws] add up to the
    passes with a thrower name, [completions] and [turnovers] to the passes
    with [Turnover?] 0 and 1, [assists] to the sum of the [Assist?] column,
    [catches] to the completed passes with a receiver name, and [goals] to
    the completed passes flagged as assists. *)
Theorem pass_aggregates_totals :
  forall df_passes actions,
    _aggregate_passes df_passes = Some actions ->
    zsum (map ac_throws actions) =
      count_if (fun e => named (pa_Thrower e)) df_passes /\
    zsum (map ac_completions actions) =
      count_if (fun e => pa_Turnover e =? 0) df_passes /\
    zsum (map ac_turnovers actions) =
      count_if (fun e => pa_Turnover e =? 1) df_passes /\
    zsum (map ac_assists actions) = zsum (map pa_Assist df_passes) /\
    zsum (map ac_catches actions) =
      count_if (fun e => (pa_Turnover e =? 0) && named (pa_Receiver e)) df_passes /\
    zsum (map ac_goals actions) =
      count_if (fun e => (pa_Turnover e =? 0) && (pa_Assist e =? 1)) df_passes.
Proof.
  intros df actions HA. apply aggregate_passes_Some in HA. subst actions.
  repeat split.
  - rewrite count_if_zsum.
    apply (column_total df ac_throws throw_key df); [|apply thrown_covered].
    intros k. destruct (action_stats df k) as [-> _]. apply count_notna_zsum.
  - rewrite count_if_zsum.
    apply (column_total df ac_completions throw_key df); [|apply thrown_covered].
    intros k. destruct (action_stats df k) as [_ [-> _]]. apply count_if_zsum.
  - rewrite count_if_zsum.
    apply (column_total df ac_turnovers throw_key df); [|apply thrown_covered].
    intros k. destruct (action_stats df k) as [_ [_ [-> _]]]. apply count_if_zsum.
  - apply (column_total df ac_assists throw_key df); [|apply thrown_covered].
    intros k. now destruct (action_stats df k) as [_ [_ [_ [-> _]]]].
  - rewrite <- count_if_filter. fold (completed df). rewrite count_if_zsum.
    apply (column_total df ac_catches catch_key (completed df)); [|apply caught_covered].
    intros k. destruct (action_stats df k) as [_ [_ [_ [_ [-> _]]]]].
    apply count_notna_zsum.
  - rewrite <- count_if_filter. fold (completed df). rewrite count_if_zsum.
    apply (column_total df ac_goals catch_key (completed df)); [|apply caught_covered].
    intros k. destruct (action_stats df k) as [_ [_ [_ [_ [_ ->]]]]].
    apply count_if_zsum.
Qed.

Lemma pass_aggregates_totals_witness :
  exists actions,
    _aggregate_passes Sample.passes = Some actions /\
    zsum (map ac_throws actions) = 3 /\ zsum (map ac_completions actions) = 2 /\
    zsum (map ac_turnovers actions) = 1 /\ zsum (map ac_assists actions) = 1 /\
    zsum (map ac_catches actions) = 2 /\ zsum (map ac_goals actions) = 1.
Proof.
  exists (actions_of Sample.passes). split; [reflexivity|].
  exact (pass_aggregates_totals Sample.passes (actions_of Sample.passes) eq_refl).
Defined.

Lemma zsum_ones {A : Type} (l : list A) : zsum (map (fun _ => 1) l) = len l.
Proof.
  unfold len, zsum. induction l as [|x t IH]; [reflexivity|].
  cbn [map List.length fold_right]. rewrite IH. lia.
Qed.

(** X11.  The block aggregator returns one row per (point, player) that has a
    block event, with [blocks] the number of those events, at least 1; over
    all rows the blocks add up to the number of block events.  An empty
    table gives an empty result. *)
Theorem block_aggregates :
  forall df_blocks,
    NoDup (map ba_key (_aggregate_blocks df_blocks)) /\
    (forall b, In b (_aggregate_blocks df_blocks) ->
       1 <= ba_blocks b /\
       ba_blocks b = len (group key_eqb block_key df_blocks (ba_key b))) /\
    (forall k, In k (map ba_key (_aggregate_blocks df_blocks)) <->
               In k (map block_key df_blocks)) /\
    zsum (map ba_blocks (_aggregate_blocks df_blocks)) = len df_blocks /\
    (df_blocks = [] -> _aggregate_blocks df_blocks = []).
Proof.
  intros df.
  assert (KI : forall k, In k (map ba_key (_aggregate_blocks df)) <->
                         In k (map block_key df)).
  { intros k. split.
    - intros H. destruct (group key_eqb block_key df k) eqn:G.
      + exfalso. revert H. apply (lookup_None key_eqb key_eqb_spec).
        now rewrite lookup_blocks, G.
      + assert (N : group key_eqb block_key df k <> []) by (rewrite G; discriminate).
        apply group_nonempty in N. destruct N as [e [He <-]]. now apply in_map.
    - intros H.
      destruct (lookup key_eqb ba_key k (_aggregate_blocks df)) as [b|] eqn:L.
      + apply find_some in L. destruct L as [Lb Lk]. apply key_eqb_spec in Lk.
        rewrite Lk. now apply in_map.
      + exfalso. rewrite lookup_blocks in L.
        destruct (group key_eqb block_key df k) eqn:G; [|discriminate].
        apply (group_nil key_eqb key_eqb_spec) in G. contradiction. }
  assert (LB : forall b, In b (_aggregate_blocks df) ->
                 ba_blocks b = len (group key_eqb block_key df (ba_key b)) /\
                 group key_eqb block_key df (ba_key b) <> []).
  { intros b Hb.
    pose proof (lookup_In ba_key _ b (blocks_keys df) Hb) as L.
    rewrite lookup_blocks in L.
    destruct (group key_eqb block_key df (ba_key b)) as [|e g]; [discriminate|].
    inversion L. simpl. split; [reflexivity | discriminate]. }
  split; [apply blocks_keys|]. split; [|split; [exact KI|split]].
  - intros b Hb. destruct (LB b Hb) as [E N]. split; [|exact E].
    rewrite E. destruct (group key_eqb block_key df (ba_key b)); [congruence|].
    unfold len. simpl. lia.
  - transitivity (zsum (map (fun _ => 1) df)).
    + rewrite <- (zsum_groups block_key (fun _ => 1) df
                    (map ba_key (_aggregate_blocks df)))
        by (apply blocks_keys || (intros r Hr; apply KI; now apply in_map)).
      rewrite map_map. f_equal. apply map_ext_in. intros b Hb.
      destruct (LB b Hb) as [-> _]. symmetry. apply zsum_ones.
    + apply zsum_ones.
  - intros ->. reflexivity.
Qed.

(** ** More on the point context builder *)

Lemma b2z_01 b : b2z b = 0 \/ b2z b = 1.
Proof. destruct b; auto. Qed.

(** X12.  In every context row each of the five tags is 0 or 1.  A point
    started on offence is either a hold or broken, never both, and has no
    break tag; a point whose [Started on offense?] is anything but 1 has no
    hold tag.  The team line is ["O"] for 1, ["D"] for 0 and missing for any
    other value.  A scored point is never broken, and is a hold or a break,
    never both. *)
Theorem tags_partition :
  forall df_points df_poss c,
    In c (_build_point_context_with_possessions df_points df_poss) ->
    (clean_hold c = 0 \/ clean_hold c = 1) /\ (hold c = 0 \/ hold c = 1) /\
    (broken c = 0 \/ broken c = 1) /\ (break_scored c = 0 \/ break_scored c = 1) /\
    (break_chance c = 0 \/ break_chance c = 1) /\
    (Started_on_offense c = 1 ->
       hold c + broken c = 1 /\ break_scored c = 0 /\ break_chance c = 0 /\
       team_line c = Some "O") /\
    (Started_on_offense c <> 1 ->
       clean_hold c = 0 /\ hold c = 0 /\ broken c = 0 /\ team_line c <> Some "O") /\
    (Started_on_offense c = 0 -> team_line c = Some "D") /\
    (Started_on_offense c <> 1 -> Started_on_offense c <> 0 -> team_line c = None) /\
    (Scored c = 1 -> broken c = 0 /\ hold c + break_scored c = 1) /\
    (Scored c <> 1 -> clean_hold c = 0 /\ hold c = 0 /\ break_scored c = 0) /\
    point_result c = Scored c.
Proof.
  intros df_points df_poss c Hc. rewrite ctx_map in Hc.
  apply in_map_iff in Hc. destruct Hc as [p [<- _]].
  unfold ctx_of, ctx_row.
  cbn [clean_hold hold broken break_scored break_chance Started_on_offense Scored
       team_line point_result fst snd].
  repeat (split; [apply b2z_01|]).
  destruct (Z.eqb_spec (pt_Started_on_offense p) 1) as [E1|E1],
           (Z.eqb_spec (pt_Started_on_offense p) 0) as [E0|E0],
           (Z.eqb_spec (pt_Scored p) 1) as [E2|E2];
    cbn [andb negb b2z];
    repeat (split; [try (intros H); try (intros H'); try lia;
                    repeat split; try reflexivity; try lia; try discriminate|]);
    reflexivity.
Qed.

Lemma tags_partition_witness :
  let c := ctx_of Sample.possessions
             {| pt_Point := 1; pt_Started_on_offense := 2; pt_Scored := 1;
                pt_Our_score_at_pull := 0; pt_Opp_score_at_pull := 0;
                pt_Possessions := 1; pt_Passes := 2; pt_Turnovers := 0;
                pt_Defensive_blocks := 0 |} in
  team_line c = None /\ hold c = 0 /\ break_scored c = 1.
Proof.
  intros c.
  destruct (tags_partition
              [ {| pt_Point := 1; pt_Started_on_offense := 2; pt_Scored := 1;
                   pt_Our_score_at_pull := 0; pt_Opp_score_at_pull := 0;
                   pt_Possessions := 1; pt_Passes := 2; pt_Turnovers := 0;
                   pt_Defensive_blocks := 0 |} ] Sample.possessions c
              (or_introl eq_refl))
    as [_ [_ [_ [_ [_ [_ [H1 [_ [H2 [H3 _]]]]]]]]]].
  split; [apply H2; discriminate|].
  split; [apply H1; discriminate|].
  destruct (H3 eq_refl) as [_ H4].
  destruct (H1 ltac:(discriminate)) as [_ [H5 _]].
  rewrite H5 in H4. exact H4.
Defined.

Lemma lookup_first_row df pt :
  lookup Z.eqb fst pt (first_pos df) =
  option_map (fun r => (pt, po_Scored r)) (first_row pt df).
Proof.
  rewrite lookup_first_pos, <- hd_sort_values.
  unfold agg_of, first_scored.
  now destruct (poss_of (sort_values df) pt).
Qed.

(** The possession columns of a context row, from the rows of its point. *)
Lemma ctx_of_possession_fields df_poss p :
  num_possessions (ctx_of df_poss p) =
    nunique (map po_Possession (poss_of df_poss (pt_Point p))) /\
  first_possession_scored (ctx_of df_poss p) =
    match first_row (pt_Point p) df_poss with
    | Some r => po_Scored r
    | None => 0
    end /\
  any_possession_scored (ctx_of df_poss p) =
    zmax (map po_Scored (poss_of df_poss (pt_Point p))).
Proof.
  unfold ctx_of, ctx_row.
  cbn [num_possessions first_possession_scored any_possession_scored fst snd].
  rewrite lookup_possum, lookup_first_row, lookup_any_pos_scored.
  unfold agg_of.
  destruct (poss_of df_poss (pt_Point p)), (first_row (pt_Point p) df_poss);
    repeat split; reflexivity.
Qed.

Lemma unique_length_le (l : list Z) :
  (List.length (unique Z.eqb l) <= List.length l)%nat.
Proof.
  induction l as [|a t IH]; simpl; [lia|].
  pose proof (filter_length_le (fun k' => negb (a =? k')) (unique Z.eqb t)). lia.
Qed.

Lemma unique_NoDup_id (l : list Z) : NoDup l -> unique Z.eqb l = l.
Proof.
  induction 1 as [|a t Hn ND IH]; simpl; [reflexivity|].
  rewrite IH. f_equal.
  clear IH ND. induction t as [|x u IHu]; simpl; [reflexivity|].
  destruct (a =? x) eqn:E.
  - apply Z.eqb_eq in E. exfalso. apply Hn. now left.
  - simpl. f_equal. apply IHu. intros H. apply Hn. now right.
Qed.

(** X13.  [num_possessions] of a context row counts the distinct possession
    numbers among the rows of its point: it is the length of any list that
    holds each of those numbers once.  So it lies between 0 and the number
    of those rows, is 0 exactly when the point has no possession row, and is
    the number of rows when their possession numbers are distinct. *)
Theorem num_possessions_counts_distinct :
  forall df_points df_poss c,
    In c (_build_point_context_with_possessions df_points df_poss) ->
    let rows := poss_of df_poss (Point c) in
    (forall d,
       NoDup d ->
       (forall x, In x d <->
                  exists r, In r df_poss /\ po_Point r = Point c /\
                            po_Possession r = x) ->
       num_possessions c = len d) /\
    0 <= num_possessions c <= len rows /\
    (num_possessions c = 0 <-> ~ In (Point c) (map po_Point df_poss)) /\
    (NoDup (map po_Possession rows) -> num_possessions c = len rows).
Proof.
  intros df_points df_poss c Hc. rewrite ctx_map in Hc.
  apply in_map_iff in Hc. destruct Hc as [p [<- _]]. rewrite ctx_of_Point.
  cbv zeta. destruct (ctx_of_possession_fields df_poss p) as [-> _].
  unfold nunique, len. split; [|split; [|split]].
  - intros d ND Hd. f_equal.
    assert (Hu : forall x,
              In x (unique Z.eqb (map po_Possession (poss_of df_poss (pt_Point p))))
              <-> In x d).
    { intros x. rewrite (unique_In Z.eqb Zeqb_spec), Hd, in_map_iff. split.
      - intros [r [E Hr]]. apply filter_In in Hr. destruct Hr as [Hr Hk].
        apply Z.eqb_eq in Hk. exists r. auto.
      - intros [r [Hr [Hk E]]]. exists r. split; [assumption|].
        apply filter_In. split; [assumption | now apply Z.eqb_eq]. }
    apply Nat.le_antisymm.
    + apply NoDup_incl_length;
        [apply (unique_NoDup Z.eqb Zeqb_spec) | intros x Hx; now apply Hu].
    + apply NoDup_incl_length; [exact ND | intros x Hx; now apply Hu].
  - pose proof (unique_length_le (map po_Possession (poss_of df_poss (pt_Point p)))).
    rewrite length_map in H. lia.
  - rewrite <- (group_nil Z.eqb Zeqb_spec po_Point df_poss (pt_Point p)).
    fold (poss_of df_poss (pt_Point p)).
    destruct (poss_of df_poss (pt_Point p)); simpl; split; intros H;
      try reflexivity; try discriminate; lia.
  - intros ND. rewrite (unique_NoDup_id _ ND), length_map. reflexivity.
Qed.

Lemma num_possessions_counts_distinct_witness :
  let df_poss := [Sample.poss 3 1 0; Sample.poss 1 1 0; Sample.poss 3 1 0;
                  Sample.poss 3 2 1] in
  let c := ctx_of df_poss (Sample.point 3 1 1) in
  num_possessions c = len [2; 1] /\ len (poss_of df_poss (Point c)) = 3.
Proof.
  intros df_poss c. split; [|reflexivity].
  apply (proj1 (num_possessions_counts_distinct Sample.points df_poss c
                  (or_intror (or_introl eq_refl)))).
  - repeat constructor; simpl; intuition discriminate.
  - intros x. split.
    + intros [<-|[<-|[]]].
      * exists (Sample.poss 3 2 1). simpl. auto 10.
      * exists (Sample.poss 3 1 0). simpl. auto 10.
    + intros [r [Hr [Hk E]]]. simpl in Hr.
      repeat (destruct Hr as [<-|Hr];
              [simpl in E, Hk; try discriminate Hk; subst x; simpl; auto|]).
      contradiction.
Defined.

Lemma fold_max_spec (t : list Z) x :
  (fold_left Z.max t x = x \/ In (fold_left Z.max t x) t) /\
  x <= fold_left Z.max t x /\
  (forall y, In y t -> y <= fold_left Z.max t x).
Proof.
  revert x. induction t as [|a u IH]; intros x; simpl.
  - split; [now left|]. split; [lia | intros y []].
  - destruct (IH (Z.max x a)) as [H1 [H2 H3]]. split; [|split].
    + destruct H1 as [H1|H1]; [|right; now right].
      rewrite H1. destruct (Z.max_spec x a) as [[_ ->]|[_ ->]]; auto.
    + lia.
    + intros y [<-|Hy]; [lia | auto].
Qed.

Lemma zmax_spec (l : list Z) :
  l <> [] -> In (zmax l) l /\ forall y, In y l -> y <= zmax l.
Proof.
  destruct l as [|x t]; [congruence|]. intros _. unfold zmax.
  destruct (fold_max_spec t x) as [H1 [H2 H3]]. split.
  - destruct H1 as [->|H1]; [now left | now right].
  - intros y [<-|Hy]; auto.
Qed.

(** X14.  For a point with possession rows, [any_possession_scored] is the
    largest [Scored?] flag among them: no row of the point exceeds it, some
    row attains it, and [first_possession_scored] never exceeds it. *)
Theorem any_possession_scored_is_max :
  forall df_points df_poss c,
    In c (_build_point_context_with_possessions df_points df_poss) ->
    In (Point c) (map po_Point df_poss) ->
    (forall r, In r df_poss -> po_Point r = Point c ->
               po_Scored r <= any_possession_scored c) /\
    (exists r, In r df_poss /\ po_Point r = Point c /\
               po_Scored r = any_possession_scored c) /\
    first_possession_scored c <= any_possession_scored c.
Proof.
  intros df_points df_poss c Hc. rewrite ctx_map in Hc.
  apply in_map_iff in Hc. destruct Hc as [p [<- _]]. rewrite ctx_of_Point.
  intros Hp.
  destruct (ctx_of_possession_fields df_poss p) as [_ [-> ->]].
  assert (N : map po_Scored (poss_of df_poss (pt_Point p)) <> []).
  { intros E. apply map_eq_nil in E.
    apply (group_nil Z.eqb Zeqb_spec) in E. contradiction. }
  destruct (zmax_spec _ N) as [M1 M2].
  assert (A : forall r, In r df_poss -> po_Point r = pt_Point p ->
                        po_Scored r <= zmax (map po_Scored (poss_of df_poss (pt_Point p)))).
  { intros r Hr E. apply M2. apply in_map. apply filter_In.
    split; [assumption | now apply Z.eqb_eq]. }
  split; [exact A|]. split.
  - apply in_map_iff in M1. destruct M1 as [r [E Hr]].
    apply filter_In in Hr. destruct Hr as [Hr Hk]. apply Z.eqb_eq in Hk.
    exists r. auto.
  - destruct (first_row (pt_Point p) df_poss) as [r|] eqn:F.
    + destruct (first_row_spec _ _ _ F) as [l1 [l2 [E [Hk _]]]].
      apply A; [|assumption]. rewrite E. apply in_or_app. right. now left.
    + apply in_map_iff in M1. destruct M1 as [r [<- Hr]].
      apply filter_In in Hr. destruct Hr as [Hr Hk]. apply Z.eqb_eq in Hk.
      exfalso. clear - F Hr Hk.
      induction df_poss as [|x t IH]; [contradiction|]. simpl in F.
      destruct (po_Point x =? pt_Point p) eqn:Ex.
      * destruct (first_row (pt_Point p) t);
          [destruct (po_Possession x <=? po_Possession p0)|]; discriminate.
      * apply Z.eqb_neq in Ex. destruct Hr as [->|Hr]; [congruence | auto].
Qed.

Lemma any_possession_scored_is_max_witness :
  let df_poss := [Sample.poss 3 2 1; Sample.poss 1 1 0; Sample.poss 3 1 0] in
  let c := ctx_of df_poss (Sample.point 3 1 1) in
  (forall r, In r df_poss -> po_Point r = Point c ->
             po_Scored r <= any_possession_scored c) /\
  (exists r, In r df_poss /\ po_Point r = Point c /\
             po_Scored r = any_possession_scored c) /\
  first_possession_scored c <= any_possession_scored c.
Proof.
  apply (any_possession_scored_is_max Sample.points).
  - right. left. reflexivity.
  - left. reflexivity.
Defined.

Lemma poss_of_filter (keep : Z -> bool) df pt :
  keep pt = true ->
  poss_of (filter (fun r => keep (po_Point r)) df) pt = poss_of df pt.
Proof.
  intros K. unfold poss_of, group.
  induction df as [|r t IH]; simpl; [reflexivity|].
  destruct (po_Point r =? pt) eqn:E.
  - apply Z.eqb_eq in E. rewrite E, K. simpl.
    rewrite <- E at 1. rewrite Z.eqb_refl. now rewrite IH.
  - destruct (keep (po_Point r)); simpl; rewrite ?E; exact IH.
Qed.

Lemma first_row_filter (keep : Z -> bool) df pt :
  keep pt = true ->
  first_row pt (filter (fun r => keep (po_Point r)) df) = first_row pt df.
Proof.
  intros K. induction df as [|r t IH]; simpl; [reflexivity|].
  destruct (po_Point r =? pt) eqn:E.
  - assert (E' := E). apply Z.eqb_eq in E'. rewrite E', K. simpl.
    rewrite E. now rewrite IH.
  - destruct (keep (po_Point r)); simpl; rewrite ?E; exact IH.
Qed.

Lemma ctx_of_filter (keep : Z -> bool) df_poss p :
  keep (pt_Point p) = true ->
  ctx_of (filter (fun r => keep (po_Point r)) df_poss) p = ctx_of df_poss p.
Proof.
  intros K. unfold ctx_of.
  rewrite !lookup_possum, !lookup_first_row, !lookup_any_pos_scored.
  now rewrite poss_of_filter, first_row_filter.
Qed.

(** X15.  The context table has one row per row of the points table, in the
    same order, with the point's own columns unchanged.  Possession rows of
    points that the points table does not have create no context row and
    change none: dropping them from the input gives the same table. *)
Theorem context_rows_follow_points :
  forall df_points df_poss,
    map point_columns (_build_point_context_with_possessions df_points df_poss) =
      df_points /\
    _build_point_context_with_possessions df_points (known_possessions df_points df_poss) =
    _build_point_context_with_possessions df_points df_poss.
Proof.
  intros df_points df_poss. rewrite !ctx_map. split.
  - rewrite map_map. rewrite <- (map_id df_points) at 2.
    apply map_ext. intros p. now destruct p.
  - apply map_ext_in. intros p Hp. unfold known_possessions.
    apply (ctx_of_filter (fun pt => existsb (fun q => pt_Point q =? pt) df_points)).
    apply existsb_exists. exists p. split; [assumption | apply Z.eqb_refl].
Qed.

(** ** More on the roster expander *)

(** X16.  The roster expansion returns exactly when [int] converts every
    token that passes [isdigit]: every digit of it is decimal and it has at
    most 4300 digits; a superscript digit makes [int] raise.  When it
    returns, the roster lists a player on a point exactly when some row of
    the player table names the player and holds, between commas and after
    stripping blanks, a token of digits that reads as the point.  Rows
    without a player name, empty cells and tokens that are not all digits
    (signs, decimals, words) give nothing, and no rostered point is
    negative. *)
Theorem roster_membership :
  forall df_player,
    ((exists roster, _expand_roster_from_player_stats df_player = Some roster) <->
     (forall row tok,
        In row df_player -> In tok (Text.split ","%char (ps_Points_played row)) ->
        Text.isdigit (Text.strip tok) = true ->
        Text.all_decimal (Text.strip tok) = true /\
        (String.length (Text.strip tok) <= 4300)%nat)) /\
    (forall roster,
       _expand_roster_from_player_stats df_player = Some roster ->
       (forall name pt,
          In {| ro_Player := name; ro_Point := pt |} roster <->
          exists row tok,
            In row df_player /\ ps_Player row = Some name /\
            In tok (Text.split ","%char (ps_Points_played row)) /\
            Text.isdigit (Text.strip tok) = true /\
            Text.int (Text.strip tok) = Some pt) /\
       (forall e, In e roster -> 0 <= ro_Point e)).
Proof.
  intros df_player. split.
  - assert (E : forall tok,
              Text.isdigit (Text.strip tok) = true ->
              (Text.int_ok (Text.strip tok) = true <->
               Text.all_decimal (Text.strip tok) = true /\
               (String.length (Text.strip tok) <= 4300)%nat)).
    { intros tok Hd. rewrite TextFacts.int_ok_spec.
      destruct (Text.strip tok); [discriminate | reflexivity]. }
    rewrite expand_roster_eq.
    destruct (readable df_player) eqn:R; split.
    + intros _ row tok Hrow Htok Hd. apply (E tok Hd).
      now apply (proj1 (readable_spec df_player) R row tok).
    + intros _. eexists. reflexivity.
    + intros [roster H]. discriminate.
    + intros H. exfalso.
      assert (R' : readable df_player = true); [|congruence].
      apply readable_spec. intros row tok Hrow Htok Hd.
      apply (E tok Hd). now apply (H row tok).
  - intros roster HR. apply expand_roster_Some in HR. destruct HR as [R ->].
    split; [|intros e; now apply roster_nonneg].
    intros name pt. rewrite roster_of_In. split.
    + intros [row [tok [Hrow [P [Ht [Hd Hi]]]]]]. exists row, tok.
      repeat (split; [assumption|]).
      rewrite TextFacts.int_Some; [now rewrite Hi|].
      now apply (proj1 (readable_spec df_player) R row tok).
    + intros [row [tok [Hrow [P [Ht [Hd Hi]]]]]]. exists row, tok.
      repeat (split; [assumption|]).
      apply TextFacts.int_isdecimal in Hi. now destruct Hi as [_ ->].
Qed.

Lemma roster_membership_witness :
  exists roster,
    _expand_roster_from_player_stats Sample.players = Some roster /\
    (In {| ro_Player := "B"; ro_Point := 3 |} roster <->
     exists row tok,
       In row Sample.players /\ ps_Player row = Some "B" /\
       In tok (Text.split ","%char (ps_Points_played row)) /\
       Text.isdigit (Text.strip tok) = true /\
       Text.int (Text.strip tok) = Some 3).
Proof.
  eexists. split; [reflexivity|].
  apply (proj2 (roster_membership Sample.players) _ eq_refl).
Defined.

Example roster_membership_ex :
  points_played "7, x, -2, 3.0, 08,, 1 2,+4" = Some [7; 8].
Proof. reflexivity. Qed.

(** A no-break space is stripped like a blank, and a superscript two passes
    [isdigit] and makes [int] raise. *)
Example points_played_latin1_ex :
  points_played (String (ascii_of_nat 160) "12,3") = Some [12; 3] /\
  points_played ("1," ++ String (ascii_of_nat 178) "") = None /\
  _expand_roster_from_player_stats
    [ {| ps_Player := None;
         ps_Points_played := String (ascii_of_nat 178) "" |} ] = None.
Proof. repeat split; reflexivity. Qed.

Module TokenFacts.
Import Text.

Lemma split_no_sep sep s : no_sep sep s = true -> split sep s = [s].
Proof.
  induction s as [|c s IH]; simpl; [reflexivity|].
  intros H. apply andb_true_iff in H. destruct H as [H1 H2].
  apply negb_true_iff in H1. rewrite H1, (IH H2). reflexivity.
Qed.

Lemma split_app sep s t :
  no_sep sep s = true ->
  split sep (s ++ String sep t)%string = s :: split sep t.
Proof.
  induction s as [|c s IH]; simpl; intros H.
  - now rewrite Ascii.eqb_refl.
  - apply andb_true_iff in H. destruct H as [H1 H2].
    apply negb_true_iff in H1. rewrite H1, (IH H2). reflexivity.
Qed.

Lemma split_join sep (parts : list string) :
  parts <> [] ->
  Forall (fun t => no_sep sep t = true) parts ->
  split sep (join (String sep EmptyString) parts) = parts.
Proof.
  intros N F. induction F as [|x rest Hx F IH]; [congruence|].
  destruct rest as [|y rest'].
  - simpl. now apply split_no_sep.
  - change (join (String sep EmptyString) (x :: y :: rest'))
      with (x ++ String sep (join (String sep EmptyString) (y :: rest')))%string.
    rewrite split_app by assumption. f_equal. apply IH. discriminate.
Qed.

Lemma no_sep_app sep s t :
  no_sep sep (s ++ t)%string = no_sep sep s && no_sep sep t.
Proof.
  induction s as [|c s IH]; simpl; [reflexivity|].
  now rewrite IH, andb_assoc.
Qed.

Lemma digit_not_space c : is_decimal c = true -> is_space c = false.
Proof.
  unfold is_decimal, is_space. intros H.
  apply andb_true_iff in H. destruct H as [H1 H2].
  apply Nat.leb_le in H1, H2.
  repeat (apply orb_false_iff; split);
    try (apply andb_false_iff; right; apply Nat.leb_gt; lia);
    apply Nat.eqb_neq; lia.
Qed.

Lemma digit_not_comma c : is_decimal c = true -> Ascii.eqb c ","%char = false.
Proof.
  intros H. destruct (Ascii.eqb c ","%char) eqn:E; [|reflexivity].
  apply Ascii.eqb_eq in E. subst c. discriminate.
Qed.

Lemma space_not_comma c : is_space c = true -> Ascii.eqb c ","%char = false.
Proof.
  intros H. destruct (Ascii.eqb c ","%char) eqn:E; [|reflexivity].
  apply Ascii.eqb_eq in E. subst c. discriminate.
Qed.

Lemma all_decimal_no_comma s : all_decimal s = true -> no_sep ","%char s = true.
Proof.
  induction s as [|c s IH]; simpl; [reflexivity|].
  intros H. apply andb_true_iff in H. destruct H as [H1 H2].
  now rewrite (digit_not_comma c H1), (IH H2).
Qed.

Lemma all_space_no_comma s : all_space s = true -> no_sep ","%char s = true.
Proof.
  induction s as [|c s IH]; simpl; [reflexivity|].
  intros H. apply andb_true_iff in H. destruct H as [H1 H2].
  now rewrite (space_not_comma c H1), (IH H2).
Qed.

Lemma lstrip_spaces w s : all_space w = true -> lstrip (w ++ s)%string = lstrip s.
Proof.
  induction w as [|c w IH]; simpl; [reflexivity|].
  intros H. apply andb_true_iff in H. destruct H as [H1 H2].
  now rewrite H1, (IH H2).
Qed.

Lemma rstrip_spaces_only w : all_space w = true -> rstrip w = EmptyString.
Proof.
  induction w as [|c w IH]; simpl; [reflexivity|].
  intros H. apply andb_true_iff in H. destruct H as [H1 H2].
  now rewrite (IH H2), H1.
Qed.

Lemma rstrip_spaces s w : all_space w = true -> rstrip (s ++ w)%string = rstrip s.
Proof.
  intros H. induction s as [|c s IH]; simpl.
  - now apply rstrip_spaces_only.
  - now rewrite IH.
Qed.

Lemma rstrip_digits s : all_decimal s = true -> rstrip s = s.
Proof.
  induction s as [|c s IH]; simpl; [reflexivity|].
  intros H. apply andb_true_iff in H. destruct H as [H1 H2].
  rewrite (IH H2), (digit_not_space c H1). now destruct s.
Qed.

Lemma lstrip_digits s : all_decimal s = true -> lstrip s = s.
Proof.
  destruct s as [|c s]; simpl; [reflexivity|].
  intros H. apply andb_true_iff in H. destruct H as [H1 _].
  now rewrite (digit_not_space c H1).
Qed.

Lemma lstrip_all_space w : all_space w = true <-> lstrip w = EmptyString.
Proof.
  induction w as [|c w IH]; simpl; [tauto|].
  destruct (is_space c); simpl; [exact IH | split; discriminate].
Qed.

(** Stripping a number written between blanks gives the number. *)
Lemma strip_token w1 w2 d :
  all_space w1 = true -> all_space w2 = true -> all_decimal d = true ->
  strip (w1 ++ d ++ w2)%string = d.
Proof.
  intros H1 H2 Hd. unfold strip.
  rewrite lstrip_spaces by assumption.
  destruct d as [|c d'].
  - simpl. rewrite (proj1 (lstrip_all_space w2) H2). reflexivity.
  - assert (L : lstrip (String c d' ++ w2)%string = (String c d' ++ w2)%string).
    { simpl in Hd. apply andb_true_iff in Hd. destruct Hd as [Hc _].
      simpl. now rewrite (digit_not_space c Hc). }
    rewrite L, rstrip_spaces by assumption. now apply rstrip_digits.
Qed.

End TokenFacts.

Lemma str_nat_isdigit n : 0 <= n -> Text.isdigit (Text.str_nat n) = true.
Proof.
  intros H. apply TextFacts.isdecimal_isdigit. now apply TextFacts.str_nat_isdecimal.
Qed.

Lemma str_nat_all_decimal n : 0 <= n -> Text.all_decimal (Text.str_nat n) = true.
Proof. intros H. apply (TextFacts.digits_all (S (Z.to_nat (Z.log2 n))) n H). Qed.

(** The digit tokens of a cell in the export's form are its numbers. *)
Lemma digit_tokens_cell w1 w2 pts :
  all_space w1 = true -> all_space w2 = true ->
  (forall n, In n pts -> 0 <= n) ->
  digit_tokens (points_cell w1 w2 pts) = map Text.str_nat pts.
Proof.
  intros H1 H2 Hp. unfold digit_tokens, points_cell.
  destruct pts as [|n0 rest]; [reflexivity|].
  rewrite (TokenFacts.split_join ","%char).
  - rewrite map_map.
    rewrite (map_ext_in _ Text.str_nat).
    + generalize (n0 :: rest) Hp. clear.
      induction l as [|x t IH]; intros Hl; [reflexivity|]. cbn [map filter].
      rewrite str_nat_isdigit by (apply Hl; now left).
      f_equal. apply IH. intros y Hy. apply Hl. now right.
    + intros n Hn. apply TokenFacts.strip_token; try assumption.
      apply str_nat_all_decimal. now apply Hp.
  - discriminate.
  - apply Forall_forall. intros t Ht. apply in_map_iff in Ht.
    destruct Ht as [n [<- Hn]].
    rewrite !TokenFacts.no_sep_app.
    rewrite (TokenFacts.all_space_no_comma w1 H1),
            (TokenFacts.all_space_no_comma w2 H2).
    rewrite TokenFacts.all_decimal_no_comma; [reflexivity|].
    apply str_nat_all_decimal. now apply Hp.
Qed.

(** X17.  Reading back a cell written in the export's form.  A cell that
    lists non-negative point numbers in decimal, separated by commas, with
    any blanks before and after each number, is read as exactly those
    numbers in that order; a player row with such a cell expands to one
    roster entry per number.  The numbers have at most 4300 digits, the most
    that [int] converts. *)
Theorem points_played_round_trip :
  forall w1 w2 pts name,
    all_space w1 = true -> all_space w2 = true ->
    (forall n, In n pts -> 0 <= n < 10 ^ 4300) ->
    points_played (points_cell w1 w2 pts) = Some pts /\
    _expand_roster_from_player_stats
      [ {| ps_Player := Some name; ps_Points_played := points_cell w1 w2 pts |} ] =
    Some (map (fun pt => {| ro_Player := name; ro_Point := pt |}) pts).
Proof.
  intros w1 w2 pts name H1 H2 Hp.
  assert (R : points_played (points_cell w1 w2 pts) = Some pts).
  { assert (Hp0 : forall n, In n pts -> 0 <= n)
      by (intros n Hn; now apply Hp).
    rewrite points_played_eq. unfold points_of.
    rewrite digit_tokens_cell by assumption.
    assert (D : forallb Text.int_ok (map Text.str_nat pts) = true).
    { apply forallb_forall. intros t Ht. apply in_map_iff in Ht.
      destruct Ht as [n [<- Hn]]. apply TextFacts.str_nat_int_ok. now apply Hp. }
    rewrite D, map_map. f_equal.
    rewrite <- (map_id pts) at 2.
    apply map_ext_in. intros n Hn. apply TextFacts.str_nat_int. now apply Hp0. }
  split; [exact R|].
  unfold _expand_roster_from_player_stats, player_rows.
  cbn [traverse ps_Player ps_Points_played]. rewrite R.
  cbn [option_map List.concat]. rewrite app_nil_r. f_equal.
  unfold dropna. clear. induction pts as [|x t IH]; [reflexivity|].
  cbn [map flat_map fst snd]. rewrite IH. reflexivity.
Qed.

Lemma points_played_round_trip_witness :
  points_played (points_cell " " "" [1; 3; 12; 104]) = Some [1; 3; 12; 104] /\
  _expand_roster_from_player_stats
    [ {| ps_Player := Some "A";
         ps_Points_played := points_cell " " "" [1; 3; 12; 104] |} ] =
  Some (map (fun pt => {| ro_Player := "A"; ro_Point := pt |}) [1; 3; 12; 104]).
Proof.
  apply points_played_round_trip; try reflexivity.
  intros n H. simpl in H.
  assert (10 ^ 3 <= 10 ^ 4300) by (apply Z.pow_le_mono_r; lia).
  intuition lia.
Defined.

Example points_cell_ex : points_cell " " "" [1; 3; 12; 104] = " 1, 3, 12, 104".
Proof. reflexivity. Qed.

(** ** More on the row key *)

Lemma str_nat_two_digits n :
  10 <= n <= 99 -> String.length (Text.str_nat n) = 2%nat.
Proof.
  intros H. unfold Text.str_nat.
  assert (L : 3 <= Z.log2 n) by (apply Z.log2_le_pow2; simpl; lia).
  destruct (Z.to_nat (Z.log2 n)) as [|f] eqn:F; [lia|].
  rewrite TextFacts.digits_step.
  destruct (n <? 10) eqn:E; [apply Z.ltb_lt in E; lia|].
  rewrite TextFacts.length_app, TextFacts.digits_step.
  assert (D : n / 10 < 10) by (apply Z.div_lt_upper_bound; lia).
  apply Z.ltb_lt in D. rewrite D. reflexivity.
Qed.

Lemma str_nat_three_digits n :
  100 <= n -> (3 <= String.length (Text.str_nat n))%nat.
Proof.
  intros H. unfold Text.str_nat.
  assert (L : 6 <= Z.log2 n) by (apply Z.log2_le_pow2; simpl; lia).
  destruct (Z.to_nat (Z.log2 n)) as [|[|f]] eqn:F; try lia.
  rewrite TextFacts.digits_step.
  destruct (n <? 10) eqn:E; [apply Z.ltb_lt in E; lia|].
  rewrite TextFacts.length_app, TextFacts.digits_step.
  assert (D : 10 <= n / 10) by (apply Z.div_le_lower_bound; lia).
  apply Z.ltb_ge in D. rewrite D.
  rewrite TextFacts.length_app.
  pose proof (TextFacts.digits_nonempty f (n / 10 / 10)).
  cbn [String.length]. lia.
Qed.

(** X18.  The key keeps its width only up to point 99: for a point number
    from 0 to 99 [point_uid] is the game id followed by exactly four
    characters, from 100 on it is longer.  In both cases the digits after
    ["_P"] spell the point number, and [int] reads it back from them unless
    it has more than 4300 digits. *)
Theorem point_uid_width :
  forall gid pt,
    0 <= pt ->
    (pt <= 99 ->
       String.length (make_point_uid gid pt) = (String.length gid + 4)%nat) /\
    (100 <= pt ->
       (String.length gid + 4 < String.length (make_point_uid gid pt))%nat) /\
    Text.int_acc 0 (Text.format_02d pt) = pt /\
    (pt < 10 ^ 4300 -> Text.int (Text.format_02d pt) = Some pt).
Proof.
  intros gid pt H0. unfold make_point_uid.
  rewrite !TextFacts.length_app, TextFacts.format_02d_padded.
  unfold zero_padded2.
  destruct (pt <? 0) eqn:E0; [apply Z.ltb_lt in E0; lia|].
  destruct (pt <? 10) eqn:E1.
  - apply Z.ltb_lt in E1.
    split; [rewrite TextFacts.str_nat_small by assumption; reflexivity|].
    split; [lia|].
    assert (V : Text.int_acc 0 (String "0" (Text.str_nat pt)) = pt)
      by (cbn [Text.int_acc]; now apply TextFacts.str_nat_int).
    split; [exact V|]. intros _.
    rewrite TextFacts.int_Some; [now rewrite V|].
    apply TextFacts.int_ok_spec. rewrite TextFacts.str_nat_small by assumption.
    split; [|cbn [String.length]; unfold Text.max_str_digits; lia].
    cbn [Text.isdecimal Text.all_decimal].
    destruct (TextFacts.digit_char_ok pt) as [-> _]; [lia | reflexivity].
  - apply Z.ltb_ge in E1. split; [|split; [|split]].
    + intros H. rewrite str_nat_two_digits by lia. reflexivity.
    + intros H. pose proof (str_nat_three_digits pt H). cbn [String.length]. lia.
    + now apply TextFacts.str_nat_int.
    + intros H. apply TextFacts.str_nat_int_Some. lia.
Qed.

Lemma point_uid_width_witness :
  (100 <= 123 ->
     (String.length "G" + 4 < String.length (make_point_uid "G" 123))%nat) /\
  (7 <= 99 -> String.length (make_point_uid "G" 7) = (String.length "G" + 4)%nat).
Proof.
  split.
  - apply (point_uid_width "G" 123). lia.
  - apply (point_uid_width "G" 7). lia.
Defined.

(** ** The batch driver *)

Module BatchFacts.
Import Batch.

Lemma glob_nil s : glob_match EmptyString s = true <-> s = EmptyString.
Proof. destruct s; simpl; split; congruence. Qed.

Lemma glob_lit c p s :
  Ascii.eqb c "*"%char = false ->
  (glob_match (String c p) s = true <->
   exists t, s = String c t /\ glob_match p t = true).
Proof.
  intros H. cbn [glob_match]. rewrite H. destruct s as [|d s'].
  - split; [discriminate | intros [t [E _]]; discriminate].
  - rewrite andb_true_iff, Ascii.eqb_eq. split.
    + intros [-> G]. now exists s'.
    + intros [t [E G]]. inversion E. subst. auto.
Qed.

Lemma glob_star p s :
  glob_match (String "*"%char p) s = true <->
  exists a t, s = (a ++ t)%string /\ glob_match p t = true.
Proof.
  cbn [glob_match]. rewrite Ascii.eqb_refl. split.
  - induction s as [|d s' IH]; intros H.
    + apply orb_true_iff in H. destruct H as [H|H]; [|discriminate].
      exists EmptyString, EmptyString. auto.
    + apply orb_true_iff in H. destruct H as [H|H].
      * exists EmptyString, (String d s'). auto.
      * destruct (IH H) as [a [t [-> G]]]. exists (String d a), t. auto.
  - intros [a [t [-> G]]]. induction a as [|d a IH]; simpl.
    + destruct t; rewrite G; reflexivity.
    + rewrite IH. apply orb_true_r.
Qed.

Lemma glob_prefix l p s :
  no_sep "*"%char l = true ->
  (glob_match (l ++ p)%string s = true <->
   exists t, s = (l ++ t)%string /\ glob_match p t = true).
Proof.
  revert s. induction l as [|c l IH]; intros s H.
  - simpl. split; [intros G; now exists s | intros [t [-> G]]; exact G].
  - simpl in H. apply andb_true_iff in H. destruct H as [H1 H2].
    apply negb_true_iff in H1.
    change (String c l ++ p)%string with (String c (l ++ p)%string).
    rewrite (glob_lit c _ s H1). split.
    + intros [t [-> G]]. apply (IH t H2) in G. destruct G as [u [-> G]].
      now exists u.
    + intros [t [-> G]]. exists (l ++ t)%string. split; [reflexivity|].
      apply (IH _ H2). now exists t.
Qed.

(** The names that the pattern of a kind matches. *)
Lemma glob_kind kind name :
  no_sep "*"%char kind = true ->
  (glob_match (pattern_of kind) name = true <->
   exists a b, name = export_name kind a b).
Proof.
  intros H. unfold pattern_of, export_name.
  rewrite (glob_prefix kind _ name H). split.
  - intros [t [-> G]].
    apply (glob_prefix " vs" _ t eq_refl) in G. destruct G as [t1 [-> G]].
    apply glob_star in G. destruct G as [a [t2 [-> G]]].
    apply (glob_prefix "." _ t2 eq_refl) in G. destruct G as [t3 [-> G]].
    apply glob_star in G. destruct G as [b [t4 [-> G]]].
    apply (glob_prefix "csv" _ t4 eq_refl) in G. destruct G as [t5 [-> G]].
    apply glob_nil in G. subst t5. exists a, b. reflexivity.
  - intros [a [b ->]]. eexists. split; [reflexivity|].
    apply (glob_prefix " vs" _ _ eq_refl). eexists. split; [reflexivity|].
    apply glob_star. exists a. eexists. split; [reflexivity|].
    apply (glob_prefix "." _ _ eq_refl). eexists. split; [reflexivity|].
    apply glob_star. exists b. eexists. split; [reflexivity|].
    reflexivity.
Qed.

Lemma first_match_Some pat es e :
  first_match pat es = Some e -> In e es /\ glob_match pat e = true.
Proof.
  unfold first_match. intros H.
  destruct (filter (glob_match pat) es) as [|x t] eqn:F; [discriminate|].
  inversion H; subst x. apply filter_In. rewrite F. now left.
Qed.

Lemma first_match_existsb pat es :
  existsb (glob_match pat) es =
  match first_match pat es with Some _ => true | None => false end.
Proof.
  unfold first_match. induction es as [|x t IH]; simpl; [reflexivity|].
  destruct (glob_match pat x); simpl; [reflexivity | exact IH].
Qed.

Lemma kind_entry kind es :
  no_sep "*"%char kind = true ->
  (existsb (glob_match (pattern_of kind)) es = true <->
   exists a b, In (export_name kind a b) es).
Proof.
  intros H. rewrite existsb_exists. split.
  - intros [e [He G]]. apply (glob_kind kind e H) in G.
    destruct G as [a [b ->]]. now exists a, b.
  - intros [a [b He]]. eexists. split; [exact He|].
    apply (glob_kind kind _ H). now exists a, b.
Qed.

Lemma kinds_no_star kind : In kind kinds -> no_sep "*"%char kind = true.
Proof.
  intros H. simpl in H.
  repeat (destruct H as [<-|H]; [reflexivity|]). contradiction.
Qed.

(** X19.  When [find_game_files] returns, each of the five files is an entry
    of the directory whose name has the shape of its own kind, [<kind> vs],
    anything, a dot, anything, [csv]; the five files are pairwise distinct,
    so no file is read as two tables. *)
Theorem find_game_files_found :
  forall es fl,
    find_game_files es = inl fl ->
    Forall2 (fun kind file => In file es /\ exists a b, file = export_name kind a b)
      kinds [f_player fl; f_points fl; f_passes fl; f_blocks fl; f_poss fl] /\
    NoDup [f_player fl; f_points fl; f_passes fl; f_blocks fl; f_poss fl].
Proof.
  intros es fl H. unfold find_game_files in H.
  destruct (first_match "Player Stats vs*.*csv" es) as [f1|] eqn:E1; [|discriminate].
  destruct (first_match "Points vs*.*csv" es) as [f2|] eqn:E2; [|discriminate].
  destruct (first_match "Passes vs*.*csv" es) as [f3|] eqn:E3; [|discriminate].
  destruct (first_match "Defensive Blocks vs*.*csv" es) as [f4|] eqn:E4; [|discriminate].
  destruct (first_match "Possessions vs*.*csv" es) as [f5|] eqn:E5; [|discriminate].
  inversion H; subst fl; clear H. cbn [f_player f_points f_passes f_blocks f_poss].
  apply first_match_Some in E1, E2, E3, E4, E5.
  destruct E1 as [I1 G1], E2 as [I2 G2], E3 as [I3 G3], E4 as [I4 G4], E5 as [I5 G5].
  apply (glob_kind "Player Stats" f1 eq_refl) in G1.
  apply (glob_kind "Points" f2 eq_refl) in G2.
  apply (glob_kind "Passes" f3 eq_refl) in G3.
  apply (glob_kind "Defensive Blocks" f4 eq_refl) in G4.
  apply (glob_kind "Possessions" f5 eq_refl) in G5.
  split.
  - unfold kinds. repeat (constructor; [split; assumption|]). constructor.
  - destruct G1 as [a1 [b1 ->]], G2 as [a2 [b2 ->]], G3 as [a3 [b3 ->]],
             G4 as [a4 [b4 ->]], G5 as [a5 [b5 ->]].
    unfold export_name.
    repeat (constructor; [simpl; intuition discriminate|]). constructor.
Qed.

Lemma find_game_files_found_witness :
  let es := [ "notes.txt"; "Points vs. FBA 2025-07-03_15-45-00.csv";
              "Possessions vs. FBA 2025-07-03_15-45-00.csv";
              "Player Stats vs. FBA 2025-07-03_15-45-00.csv";
              "Passes vs. FBA 2025-07-03_15-45-00.csv";
              "Defensive Blocks vs. FBA 2025-07-03_15-45-00.csv" ] in
  let fl := {| f_player := "Player Stats vs. FBA 2025-07-03_15-45-00.csv";
               f_points := "Points vs. FBA 2025-07-03_15-45-00.csv";
               f_passes := "Passes vs. FBA 2025-07-03_15-45-00.csv";
               f_blocks := "Defensive Blocks vs. FBA 2025-07-03_15-45-00.csv";
               f_poss := "Possessions vs. FBA 2025-07-03_15-45-00.csv" |} in
  Forall2 (fun kind file => In file es /\ exists a b, file = export_name kind a b)
    kinds [f_player fl; f_points fl; f_passes fl; f_blocks fl; f_poss fl] /\
  NoDup [f_player fl; f_points fl; f_passes fl; f_blocks fl; f_poss fl].
Proof.
  apply find_game_files_found. reflexivity.
Defined.

(** X20.  [find_game_files] returns exactly when the directory has, for
    every kind, an entry of that kind's shape.  Otherwise it raises, and the
    error lists the labels of the kinds that have none, all of them, in the
    order player, points, passes, blocks, possessions. *)
Theorem find_game_files_missing :
  forall es,
    let lacking :=
      filter (fun kind => negb (existsb (glob_match (pattern_of kind)) es)) kinds in
    (forall kind, In kind lacking <->
       In kind kinds /\ ~ exists a b, In (export_name kind a b) es) /\
    (lacking = [] -> exists fl, find_game_files es = inl fl) /\
    (lacking <> [] -> find_game_files es = inr (map label_of lacking)).
Proof.
  intros es. cbv zeta. split; [|split].
  - intros kind. rewrite filter_In. split.
    + intros [Hk Hn]. split; [assumption|]. intros Hex.
      apply (kind_entry kind es (kinds_no_star kind Hk)) in Hex.
      rewrite Hex in Hn. discriminate.
    + intros [Hk Hn]. split; [assumption|].
      destruct (existsb (glob_match (pattern_of kind)) es) eqn:E; [|reflexivity].
      exfalso. apply Hn. now apply (kind_entry kind es (kinds_no_star kind Hk)).
  - unfold kinds. cbn [filter]. rewrite !first_match_existsb.
    unfold find_game_files, pattern_of. cbn [append].
    destruct (first_match "Player Stats vs*.*csv" es),
             (first_match "Points vs*.*csv" es),
             (first_match "Passes vs*.*csv" es),
             (first_match "Defensive Blocks vs*.*csv" es),
             (first_match "Possessions vs*.*csv" es);
      cbn [negb]; intros H; try discriminate H.
    eexists. reflexivity.
  - unfold kinds. cbn [filter]. rewrite !first_match_existsb.
    unfold find_game_files, pattern_of. cbn [append].
    destruct (first_match "Player Stats vs*.*csv" es),
             (first_match "Points vs*.*csv" es),
             (first_match "Passes vs*.*csv" es),
             (first_match "Defensive Blocks vs*.*csv" es),
             (first_match "Possessions vs*.*csv" es);
      cbn [negb]; intros H; try (exfalso; apply H; reflexivity); reflexivity.
Qed.

Example find_game_files_ex :
  find_game_files [ "Points vs. X.csv"; "Passes vs. X.csv"; "Player Stats vs Xcsv";
                    "Possessions vs. X.csv" ] =
  inr ["Player Stats vs*.csv"; "Defensive Blocks vs*.csv"].
Proof. reflexivity. Qed.

Lemma insert_name_In x l y : In y (insert_name x l) <-> y = x \/ In y l.
Proof.
  induction l as [|a t IH]; simpl.
  - intuition congruence.
  - destruct (String.leb x a); simpl; [intuition congruence|].
    rewrite IH. intuition congruence.
Qed.

Lemma sorted_names_In l y : In y (sorted_names l) <-> In y l.
Proof.
  induction l as [|a t IH]; simpl; [tauto|].
  rewrite insert_name_In, IH. intuition congruence.
Qed.

Lemma leb_name_le a b : String.leb a b = true <-> name_le a b.
Proof.
  unfold String.leb. revert b.
  induction a as [|c a IH]; intros [|d b]; cbn [String.compare name_le].
  - tauto.
  - tauto.
  - split; [discriminate | contradiction].
  - unfold Ascii.compare.
    destruct (N.compare_spec (N_of_ascii c) (N_of_ascii d)) as [E|L|G].
    + assert (c = d).
      { rewrite <- (ascii_N_embedding c), <- (ascii_N_embedding d). now rewrite E. }
      rewrite IH. split; [intros H1; right; auto | intros [H1|[_ H1]]; [lia | auto]].
    + split; [intros _; now left | reflexivity].
    + split; [discriminate|]. intros [H|[-> _]]; lia.
Qed.

Lemma name_le_trans a b c : name_le a b -> name_le b c -> name_le a c.
Proof.
  revert b c. induction a as [|x a IH]; intros [|y b] [|z c];
    cbn [name_le]; try tauto.
  intros [H1|[-> H1]] [H2|[-> H2]].
  - left. lia.
  - now left.
  - now left.
  - right. split; [reflexivity | now apply (IH b)].
Qed.

Lemma name_le_total a b : String.leb a b = false -> name_le b a.
Proof.
  intros H. destruct (String.leb_total a b) as [T|T]; [congruence|].
  now apply leb_name_le.
Qed.

Lemma insert_name_sorted x l :
  StronglySorted name_le l -> StronglySorted name_le (insert_name x l).
Proof.
  induction 1 as [|a t Ht IH Ha]; simpl.
  - repeat constructor.
  - destruct (String.leb x a) eqn:E.
    + apply leb_name_le in E.
      constructor; [now constructor|].
      constructor; [exact E|].
      eapply Forall_impl; [|exact Ha].
      intros b Hb. eapply name_le_trans; eassumption.
    + constructor; [assumption|].
      apply Forall_forall. intros y Hy.
      apply insert_name_In in Hy. destruct Hy as [->|Hy].
      * now apply name_le_total.
      * rewrite Forall_forall in Ha. auto.
Qed.

(** [sorted] puts the names in increasing order and keeps each of them. *)
Lemma sorted_names_sorted l : StronglySorted name_le (sorted_names l).
Proof.
  induction l as [|a t IH]; simpl; [constructor | now apply insert_name_sorted].
Qed.

Lemma insert_name_perm x l : Permutation (x :: l) (insert_name x l).
Proof.
  induction l as [|a t IH]; simpl; [reflexivity|].
  destruct (String.leb x a); [reflexivity|].
  rewrite perm_swap. now constructor.
Qed.

Lemma sorted_names_perm l : Permutation l (sorted_names l).
Proof.
  induction l as [|a t IH]; simpl; [constructor|].
  rewrite <- insert_name_perm. now constructor.
Qed.

(** The loop over games none of which fails. *)
Lemma games_ok fs root out_root dirs st :
  (forall name, In name dirs -> game_result fs root name <> Failed) ->
  games fs root out_root dirs st =
  ({| world :=
        {| stdout := stdout (world st) ++ log_of fs root dirs;
           made := made (world st) ++
                   map (fun g => out_root ++ [fst g]) (built_games fs root dirs);
           written := written (world st) ++
                      flat_map (game_writes out_root) (built_games fs root dirs) |};
      all_rows := all_rows st ++ map (fun g => fst (snd g)) (built_games fs root dirs);
      all_ptsum := all_ptsum st ++ map (fun g => snd (snd g)) (built_games fs root dirs) |},
   true).
Proof.
  revert st. induction dirs as [|name rest IH]; intros st H.
  - destruct st as [[o m w] r p]. simpl. now rewrite !app_nil_r.
  - assert (Hr : forall n, In n rest -> game_result fs root n <> Failed)
      by (intros n Hn; apply H; now right).
    assert (Hn := H name (or_introl eq_refl)).
    unfold built_games, log_of in *. cbn [games flat_map].
    unfold game_result in Hn |- * .
    destruct (find_game_files (entries fs name)) as [files|missing].
    + destruct (load_and_build fs (root ++ [name]) files name) as [[rows ptsum]|];
        [|congruence].
      rewrite (IH _ Hr). cbn [world all_rows all_ptsum stdout made written
                              print mkdir to_csv map flat_map app game_writes fst snd].
      repeat rewrite <- app_assoc. reflexivity.
    + rewrite (IH _ Hr). cbn [world all_rows all_ptsum stdout made written
                              print mkdir to_csv map flat_map app].
      repeat rewrite <- app_assoc. reflexivity.
Qed.

(** The loop up to the first game that fails. *)
Lemma games_failed fs root out_root l1 name l2 st :
  (forall n, In n l1 -> game_result fs root n <> Failed) ->
  game_result fs root name = Failed ->
  games fs root out_root (l1 ++ name :: l2) st =
  ({| world :=
        {| stdout := stdout (world st) ++ log_of fs root l1 ++ [Processing name];
           made := made (world st) ++
                   map (fun g => out_root ++ [fst g]) (built_games fs root l1);
           written := written (world st) ++
                      flat_map (game_writes out_root) (built_games fs root l1) |};
      all_rows := all_rows st ++ map (fun g => fst (snd g)) (built_games fs root l1);
      all_ptsum := all_ptsum st ++ map (fun g => snd (snd g)) (built_games fs root l1) |},
   false).
Proof.
  revert st. induction l1 as [|x rest IH]; intros st H HF.
  - destruct st as [[o m w] r p]. cbn [app games].
    unfold game_result in HF.
    destruct (find_game_files (entries fs name)) as [files|missing]; [|discriminate].
    destruct (load_and_build fs (root ++ [name]) files name) as [[rows ptsum]|];
      [discriminate|].
    simpl. now rewrite !app_nil_r.
  - assert (Hr : forall n, In n rest -> game_result fs root n <> Failed)
      by (intros n Hn; apply H; now right).
    assert (Hn := H x (or_introl eq_refl)).
    unfold built_games, log_of in *. cbn [app games flat_map].
    unfold game_result in Hn |- * .
    destruct (find_game_files (entries fs x)) as [files|missing].
    + destruct (load_and_build fs (root ++ [x]) files x) as [[rows ptsum]|];
        [|congruence].
      rewrite (IH _ Hr HF). cbn [world all_rows all_ptsum stdout made written
                                 print mkdir to_csv map flat_map app game_writes fst snd].
      repeat rewrite <- app_assoc. reflexivity.
    + rewrite (IH _ Hr HF). cbn [world all_rows all_ptsum stdout made written
                                 print mkdir to_csv map flat_map app].
      repeat rewrite <- app_assoc. reflexivity.
Qed.

Lemma map_eq_nil_iff {A B : Type} (f : A -> B) (l : list A) :
  map f l = [] <-> l = [].
Proof. destruct l; simpl; split; congruence. Qed.

Lemma main_closed fs root out_root :
  subdirs fs <> [] ->
  (forall name, In name (subdirs fs) -> game_result fs root name <> Failed) ->
  exists w,
    main fs root out_root = (Completed, w) /\
    written w =
      flat_map (game_writes out_root)
        (built_games fs root (sorted_names (subdirs fs))) ++
      season_writes out_root (built_games fs root (sorted_names (subdirs fs))) /\
    made w = out_root :: map (fun g => out_root ++ [fst g])
                           (built_games fs root (sorted_names (subdirs fs))).
Proof.
  intros Hs Hok. unfold main.
  destruct (subdirs fs) as [|d ds] eqn:S; [congruence|]. rewrite <- S in *.
  rewrite games_ok by (intros n Hn; apply Hok; now apply sorted_names_In).
  cbn [world all_rows all_ptsum stdout made written mkdir app].
  destruct (built_games fs root (sorted_names (subdirs fs))) as [|g gs] eqn:B.
  - eexists. split; [reflexivity|]. split; reflexivity.
  - cbn [map]. eexists. split; [reflexivity|].
    cbn [written made print to_csv season_writes map].
    rewrite <- app_assoc. split; reflexivity.
Qed.

(** X21.  A run in which no game fails to load or build completes.  The
    games are taken in increasing order of the directory names: a
    rearrangement of the sub-directories in which every name comes before
    the later ones.  For every game directory that has its five files the
    run writes, in that order, the two tables of that game, and then, if
    there was such a game at all, the two season tables: the concatenation
    of the games' tables in that same order.  Directories with missing
    files leave no file behind. *)
Theorem batch_completes :
  forall fs root out_root,
    subdirs fs <> [] ->
    (forall name, In name (subdirs fs) -> game_result fs root name <> Failed) ->
    exists names w,
      Permutation (subdirs fs) names /\ StronglySorted name_le names /\
      main fs root out_root = (Completed, w) /\
      let gs := built_games fs root names in
      written w = flat_map (game_writes out_root) gs ++ season_writes out_root gs /\
      made w = out_root :: map (fun g => out_root ++ [fst g]) gs.
Proof.
  intros fs root out_root Hs Hok.
  destruct (main_closed fs root out_root Hs Hok) as [w [H1 H2]].
  exists (sorted_names (subdirs fs)), w.
  split; [apply sorted_names_perm|]. split; [apply sorted_names_sorted|].
  split; [exact H1 | exact H2].
Qed.

(** X22.  Only missing files are forgiven.  When a game directory has its
    five files but reading them or building from them raises, the run ends
    there with that exception: the games before it, in increasing order of
    the names, have their two tables written, no later game is processed
    and no season table is written. *)
Theorem batch_aborts :
  forall fs root out_root l1 name l2,
    sorted_names (subdirs fs) = l1 ++ name :: l2 ->
    (forall n, In n l1 -> game_result fs root n <> Failed) ->
    game_result fs root name = Failed ->
    exists w,
      main fs root out_root = (Uncaught, w) /\
      written w = flat_map (game_writes out_root) (built_games fs root l1) /\
      stdout w = log_of fs root l1 ++ [Processing name].
Proof.
  intros fs root out_root l1 name l2 E H1 HF. unfold main.
  destruct (subdirs fs) as [|d ds] eqn:S.
  - simpl in E. destruct l1; discriminate.
  - rewrite <- S in *. rewrite E, (games_failed fs root out_root l1 name l2 _ H1 HF).
    eexists. split; [reflexivity|]. split; reflexivity.
Qed.

Lemma built_games_skipped fs root names :
  (forall name, In name names ->
     exists missing, game_result fs root name = Skipped missing) ->
  built_games fs root names = [].
Proof.
  unfold built_games. induction names as [|x t IH]; intros H; [reflexivity|].
  cbn [flat_map]. destruct (H x (or_introl eq_refl)) as [m ->].
  apply IH. intros n Hn. apply H. now right.
Qed.

(** X23.  A root without sub-directories ends the run by [sys.exit(1)], and a
    root in which every sub-directory lacks a file ends it normally; in both
    cases the output root is made and nothing is written. *)
Theorem batch_writes_nothing :
  forall fs root out_root,
    (subdirs fs = [] ->
       main fs root out_root =
       (Exit1, {| stdout := [NoSubdirectories root]; made := [out_root];
                  written := [] |})) /\
    (subdirs fs <> [] ->
     (forall name, In name (subdirs fs) ->
        exists missing, game_result fs root name = Skipped missing) ->
     exists w, main fs root out_root = (Completed, w) /\ written w = [] /\
               made w = [out_root]).
Proof.
  intros fs root out_root. split.
  - intros S. unfold main. rewrite S. reflexivity.
  - intros Hs Hsk.
    assert (Hok : forall name, In name (subdirs fs) -> game_result fs root name <> Failed).
    { intros n Hn. destruct (Hsk n Hn) as [m ->]. discriminate. }
    destruct (main_closed fs root out_root Hs Hok) as [w [E [W M]]].
    exists w. split; [exact E|].
    rewrite built_games_skipped in W, M
      by (intros n Hn; apply Hsk; now apply sorted_names_In).
    auto.
Qed.

Lemma batch_completes_witness :
  let fs := {| subdirs := ["g2"; "g1"];
               entries := entries SampleSeason.fs;
               read_player := read_player SampleSeason.fs;
               read_points := read_points SampleSeason.fs;
               read_passes := read_passes SampleSeason.fs;
               read_blocks := read_blocks SampleSeason.fs;
               read_poss := read_poss SampleSeason.fs |} in
  exists names w,
    Permutation (subdirs fs) names /\ StronglySorted name_le names /\
    main fs ["data"] ["out"] = (Completed, w) /\
    let gs := built_games fs ["data"] names in
    written w = flat_map (game_writes ["out"]) gs ++ season_writes ["out"] gs /\
    made w = ["out"] :: map (fun g => ["out"] ++ [fst g]) gs.
Proof.
  apply batch_completes.
  - discriminate.
  - intros name [<-|[<-|[]]]; discriminate.
Defined.

Example sorted_names_ex :
  sorted_names ["g2"; "G3"; "g10"; "g1"; ""] = [""; "G3"; "g1"; "g10"; "g2"].
Proof. reflexivity. Qed.

Lemma batch_aborts_witness :
  exists w,
    main SampleSeason.fs ["data"] ["out"] = (Uncaught, w) /\
    written w = flat_map (game_writes ["out"])
                  (built_games SampleSeason.fs ["data"] ["g1"; "g2"]) /\
    stdout w = log_of SampleSeason.fs ["data"] ["g1"; "g2"] ++ [Processing "g3"].
Proof.
  apply (batch_aborts SampleSeason.fs ["data"] ["out"] ["g1"; "g2"] "g3" []).
  - reflexivity.
  - intros n [<-|[<-|[]]]; discriminate.
  - reflexivity.
Defined.

Example batch_aborts_ex :
  map fst (written (snd (main SampleSeason.fs ["data"] ["out"]))) =
  [ ["out"; "g1"; "per_player_per_point.csv"];
    ["out"; "g1"; "point_level_summary.csv"] ].
Proof. reflexivity. Qed.

Lemma batch_writes_nothing_witness :
  let fs := {| subdirs := ["g2"];
               entries := entries SampleSeason.fs;
               read_player := read_player SampleSeason.fs;
               read_points := read_points SampleSeason.fs;
               read_passes := read_passes SampleSeason.fs;
               read_blocks := read_blocks SampleSeason.fs;
               read_poss := read_poss SampleSeason.fs |} in
  exists w, main fs ["data"] ["out"] = (Completed, w) /\ written w = [] /\
            made w = [["out"]].
Proof.
  apply batch_writes_nothing.
  - discriminate.
  - intros name [<-|[]]. eexists. reflexivity.
Defined.

Lemma built_game_names_rows fs root names g :
  In g (built_games fs root names) ->
  (forall r, In r (fst (snd g)) -> game_id r = fst g) /\
  (forall s, In s (snd (snd g)) ->
     su_game_id s = fst g /\
     su_point_uid s = make_point_uid (fst g) (Point (su_ctx s))).
Proof.
  intros Hg. unfold built_games in Hg.
  apply in_flat_map in Hg. destruct Hg as [name [Hn Hg]].
  unfold game_result in Hg.
  destruct (find_game_files (entries fs name)) as [files|missing]; [|contradiction].
  destruct (load_and_build fs (root ++ [name]) files name) as [[rows ptsum]|] eqn:L;
    [|contradiction].
  destruct Hg as [<-|[]]. cbn [fst snd].
  unfold load_and_build in L.
  destruct (read_player fs _) as [df_player|]; [|discriminate].
  destruct (read_points fs _) as [df_points|]; [|discriminate].
  destruct (read_passes fs _) as [df_passes|]; [|discriminate].
  destruct (read_blocks fs _) as [df_blocks|]; [|discriminate].
  destruct (read_poss fs _) as [df_poss|]; [|discriminate].
  split.
  - intros r Hr.
    now destruct (build_rows_In _ _ _ _ _ _ _ _ _ L Hr) as [e [c [_ [_ [_ ->]]]]].
  - returned L. intros s Hs. apply in_map_iff in Hs. destruct Hs as [c [<- _]].
    split; reflexivity.
Qed.

(** X24.  The name of a game directory is the game id of everything built
    from it: every fact row of a built game carries that name as [game_id]
    and as the prefix of its [point_uid], and so does every summary row. *)
Theorem built_game_carries_its_name :
  forall fs root names g,
    In g (built_games fs root names) ->
    In (fst g) names /\
    (forall r, In r (fst (snd g)) ->
       game_id r = fst g /\ exists pt, point_uid r = make_point_uid (fst g) pt) /\
    (forall s, In s (snd (snd g)) ->
       su_game_id s = fst g /\
       su_point_uid s = make_point_uid (fst g) (Point (su_ctx s))).
Proof.
  intros fs root names g Hg. unfold built_games in Hg.
  apply in_flat_map in Hg. destruct Hg as [name [Hn Hg]].
  unfold game_result in Hg.
  destruct (find_game_files (entries fs name)) as [files|missing]; [|contradiction].
  destruct (load_and_build fs (root ++ [name]) files name) as [[rows ptsum]|] eqn:L;
    [|contradiction].
  destruct Hg as [<-|[]]. cbn [fst snd]. split; [assumption|].
  unfold load_and_build in L.
  destruct (read_player fs _) as [df_player|]; [|discriminate].
  destruct (read_points fs _) as [df_points|]; [|discriminate].
  destruct (read_passes fs _) as [df_passes|]; [|discriminate].
  destruct (read_blocks fs _) as [df_blocks|]; [|discriminate].
  destruct (read_poss fs _) as [df_poss|]; [|discriminate].
  split.
  - intros r Hr.
    destruct (build_rows_In _ _ _ _ _ _ _ _ _ L Hr) as [e [c [_ [_ [_ ->]]]]].
    split; [reflexivity|]. now exists (ro_Point e).
  - returned L. intros s Hs. apply in_map_iff in Hs. destruct Hs as [c [<- _]].
    split; reflexivity.
Qed.

Lemma built_game_carries_its_name_witness :
  let g := ("g1", (rows_of "g1" (map (pp_of Sample.passes Sample.blocks)
                                   (roster_of Sample.players))
                     (map (ctx_of Sample.possessions) Sample.points),
                   map (ptsum_row "g1")
                       (map (ctx_of Sample.possessions) Sample.points))) in
  In (fst g) ["g1"; "g2"; "g3"] /\
  (forall r, In r (fst (snd g)) ->
     game_id r = fst g /\ exists pt, point_uid r = make_point_uid (fst g) pt) /\
  (forall s, In s (snd (snd g)) ->
     su_game_id s = fst g /\
     su_point_uid s = make_point_uid (fst g) (Point (su_ctx s))).
Proof.
  apply (built_game_carries_its_name SampleSeason.fs ["data"]).
  left. reflexivity.
Defined.

End BatchFacts.

(** ** The row key across games *)

Lemma no_sep_app_iff sep s t :
  no_sep sep (s ++ t)%string = no_sep sep s && no_sep sep t.
Proof. apply TokenFacts.no_sep_app. Qed.

Lemma digits_no_P s : Text.all_decimal s = true -> no_sep "P"%char s = true.
Proof.
  induction s as [|c s IH]; simpl; [reflexivity|].
  intros H. apply andb_true_iff in H. destruct H as [H1 H2].
  rewrite (IH H2), andb_true_r. apply negb_true_iff.
  destruct (Ascii.eqb c "P"%char) eqn:E; [|reflexivity].
  apply Ascii.eqb_eq in E. subst c. discriminate.
Qed.

Lemma format_02d_no_P n : no_sep "P"%char (Text.format_02d n) = true.
Proof.
  rewrite TextFacts.format_02d_padded. unfold zero_padded2.
  destruct (n <? 0) eqn:E0; [|destruct (n <? 10)]; cbn [no_sep Ascii.eqb negb andb];
    try (apply Z.ltb_lt in E0); try (apply Z.ltb_ge in E0);
    simpl; apply digits_no_P, str_nat_all_decimal; lia.
Qed.

Lemma key_suffix_inj (g1 g2 d1 d2 : string) :
  no_sep "P"%char d1 = true -> no_sep "P"%char d2 = true ->
  (g1 ++ "_P" ++ d1 = g2 ++ "_P" ++ d2)%string -> g1 = g2 /\ d1 = d2.
Proof.
  intros N1 N2. revert g2. induction g1 as [|c g1 IH]; intros g2 E.
  - destruct g2 as [|c2 g2].
    + simpl in E. inversion E. auto.
    + exfalso. simpl in E. inversion E as [[Ec E']]. clear E.
      destruct g2 as [|c3 g2]; simpl in E'; inversion E' as [[Ec' E'']].
      subst d1. rewrite no_sep_app_iff in N1. simpl in N1.
      rewrite andb_false_r in N1. discriminate.
  - destruct g2 as [|c2 g2].
    + exfalso. simpl in E. inversion E as [[Ec E']]. clear E.
      destruct g1 as [|c3 g1]; simpl in E'; inversion E' as [[Ec' E'']].
      subst d2. rewrite no_sep_app_iff in N2. simpl in N2.
      rewrite andb_false_r in N2. discriminate.
    + simpl in E. inversion E as [[Ec E']]. subst c2.
      destruct (IH g2 E') as [-> ->]. auto.
Qed.

Lemma point_uid_joint gid pt1 pt2 :
  make_point_uid gid pt1 = make_point_uid gid pt2 -> pt1 = pt2.
Proof. apply make_point_uid_inj. Qed.

Lemma point_uid_joint_fst gid1 gid2 pt1 pt2 :
  make_point_uid gid1 pt1 = make_point_uid gid2 pt2 -> gid1 = gid2.
Proof.
  unfold make_point_uid. intros E.
  apply key_suffix_inj in E; try apply format_02d_no_P. tauto.
Qed.

(** X25.  [point_uid] identifies the game and the point together: two keys
    are equal only for the same game id and the same point number, whatever
    the game ids look like.  Rows of different games never share a key in
    the season tables. *)
Theorem point_uid_identifies_game_and_point :
  forall gid1 gid2 pt1 pt2,
    make_point_uid gid1 pt1 = make_point_uid gid2 pt2 <->
    gid1 = gid2 /\ pt1 = pt2.
Proof.
  intros gid1 gid2 pt1 pt2. split; [|intros [-> ->]; reflexivity].
  unfold make_point_uid. intros E.
  apply key_suffix_inj in E; try apply format_02d_no_P.
  destruct E as [-> E]. split; [reflexivity|].
  now apply TextFacts.format_02d_inj.
Qed.

Example point_uid_identifies_ex :
  make_point_uid "G_P1" 23 <> make_point_uid "G" 123 /\
  make_point_uid "G" 7 <> make_point_uid "G_P0" 7.
Proof. split; discriminate. Qed.

(** ** The season summary *)

Module SeasonFacts.
Import Batch.

Lemma insert_name_NoDup x l : ~ In x l -> NoDup l -> NoDup (insert_name x l).
Proof.
  induction l as [|a t IH]; simpl; intros Hx ND.
  - constructor; [auto | constructor].
  - destruct (String.leb x a); [now constructor|].
    inversion ND as [|? ? Ha ND']; subst. constructor.
    + rewrite BatchFacts.insert_name_In. intros [->|H]; [apply Hx; now left | auto].
    + apply IH; [|assumption]. intros H. apply Hx. now right.
Qed.

Lemma sorted_names_NoDup l : NoDup l -> NoDup (sorted_names l).
Proof.
  induction 1 as [|x t Hx ND IH]; simpl; [constructor|].
  apply insert_name_NoDup; [|assumption].
  now rewrite BatchFacts.sorted_names_In.
Qed.

Lemma built_games_names fs root names g :
  In g (built_games fs root names) -> In (fst g) names.
Proof.
  unfold built_games. intros H. apply in_flat_map in H.
  destruct H as [name [Hn Hg]].
  destruct (game_result fs root name); try contradiction.
  destruct Hg as [<-|[]]. exact Hn.
Qed.

Lemma built_games_NoDup fs root names :
  NoDup names -> NoDup (map fst (built_games fs root names)).
Proof.
  induction 1 as [|x t Hx ND IH]; [constructor|].
  unfold built_games in *. cbn [flat_map].
  destruct (game_result fs root x); cbn [app map]; try exact IH.
  constructor; [|exact IH].
  intros H. apply in_map_iff in H. destruct H as [g [E Hg]].
  apply (built_games_names fs root t g) in Hg. cbn [fst] in E. congruence.
Qed.

(** X26.  The season summary keeps [point_uid] a key.  With game directories
    of distinct names, and point numbers distinct within the summary of each
    game, the [point_uid] values of the season summary table that a run
    writes are pairwise distinct. *)
Theorem season_summary_keys_distinct :
  forall fs root out_root t,
    NoDup (subdirs fs) ->
    let gs := built_games fs root (sorted_names (subdirs fs)) in
    (forall g, In g gs -> NoDup (map (fun s => Point (su_ctx s)) (snd (snd g)))) ->
    In (out_root ++ ["all_point_level_summary.csv"], SummaryTable t)
       (season_writes out_root gs) ->
    NoDup (map su_point_uid t).
Proof.
  intros fs root out_root t ND. cbv zeta. intros Hp Ht.
  assert (E : t = List.concat (map (fun g => snd (snd g))
                     (built_games fs root (sorted_names (subdirs fs))))).
  { unfold season_writes in Ht.
    destruct (built_games fs root (sorted_names (subdirs fs))); [contradiction|].
    destruct Ht as [Ht|[Ht|[]]]; inversion Ht. reflexivity. }
  subst t.
  pose proof (built_games_NoDup fs root _ (sorted_names_NoDup _ ND)) as NG.
  assert (C : forall g, In g (built_games fs root (sorted_names (subdirs fs))) ->
                forall s, In s (snd (snd g)) ->
                  su_point_uid s = make_point_uid (fst g) (Point (su_ctx s))).
  { intros g Hg s Hs.
    now destruct (BatchFacts.built_game_names_rows fs root _ g Hg) as [_ H];
      destruct (H s Hs). }
  revert Hp NG C.
  generalize (built_games fs root (sorted_names (subdirs fs))). intros gs.
  induction gs as [|g rest IH]; intros Hp NG C; [constructor|].
  cbn [map List.concat]. rewrite map_app.
  inversion NG as [|? ? Hg NG']; subst.
  apply NoDup_app.
  - assert (P := Hp g (or_introl eq_refl)).
    assert (Cg := C g (or_introl eq_refl)).
    revert P Cg. generalize (snd (snd g)). intros tbl.
    induction tbl as [|s u IHu]; intros P Cg; [constructor|].
    cbn [map] in *. inversion P as [|? ? Hs P']; subst. constructor.
    + intros H. apply in_map_iff in H. destruct H as [s' [E Hs']].
      rewrite (Cg s (or_introl eq_refl)), (Cg s' (or_intror Hs')) in E.
      apply point_uid_joint in E. apply Hs. rewrite <- E.
      now apply (in_map (fun s => Point (su_ctx s))).
    + apply IHu; [assumption|]. intros x Hx. apply Cg. now right.
  - apply IH; [|assumption|].
    + intros x Hx. apply Hp. now right.
    + intros x Hx. apply C. now right.
  - intros k Hk Hk'. apply in_map_iff in Hk. destruct Hk as [s [Es Hs]].
    apply in_map_iff in Hk'. destruct Hk' as [s' [Es' Hs']].
    apply in_concat in Hs'. destruct Hs' as [tbl [Htbl Hs']].
    apply in_map_iff in Htbl. destruct Htbl as [g' [<- Hg']].
    rewrite (C g (or_introl eq_refl) s Hs) in Es.
    rewrite (C g' (or_intror Hg') s' Hs') in Es'.
    rewrite <- Es' in Es. apply point_uid_joint_fst in Es.
    apply Hg. rewrite Es. now apply in_map.
Qed.

Lemma season_summary_keys_distinct_witness :
  NoDup (map su_point_uid
           (map (ptsum_row "g1") (map (ctx_of Sample.possessions) Sample.points) ++
            map (ptsum_row "g4") (map (ctx_of Sample.possessions) Sample.points))).
Proof.
  apply (season_summary_keys_distinct
           {| subdirs := ["g4"; "g2"; "g1"];
              entries := entries SampleSeason.fs;
              read_player := read_player SampleSeason.fs;
              read_points := read_points SampleSeason.fs;
              read_passes := read_passes SampleSeason.fs;
              read_blocks := read_blocks SampleSeason.fs;
              read_poss := read_poss SampleSeason.fs |} ["data"] ["out"]).
  - repeat constructor; simpl; intuition discriminate.
  - intros g [<-|[<-|[]]]; simpl; repeat constructor; simpl; intuition discriminate.
  - right. left. reflexivity.
Defined.

End SeasonFacts.
